(** * The RLP type cache ([rlp/typecache.go])

    A shallow embedding of the codec cache of the RLP package: the struct
    tag parser [parseStructTag], the field enumerator [structFields], the
    generator entry point [genTypeInfo] and the two cache entry points
    [cachedTypeInfo] and [cachedTypeInfo1], followed by the properties the
    specification states about them and by further properties of the same
    code. The memory database of package [ethdb] comes last.

    The process-wide variables of the package (the map [typeCache] and
    the objects its values point to) are threaded through explicitly as a
    [State]; pointers to [typeinfo] objects are addresses into a heap, so
    that pointer identity and in-place updates can be stated. *)

From Stdlib Require Import ZArith Ascii String Lia.
From stdpp Require Import base decidable option list strings gmap finite.

Local Open Scope string_scope.
Local Open Scope Z_scope.

(** ** Strings: the two functions of package [strings] used by the parser *)

Module Strings.

(** [strings.Split(s, sep)] for a separator of one byte (the parser only
    splits on the comma): the pieces between the separators, in order.
    The empty string splits into one empty piece. *)
Fixpoint Split (s : string) (sep : ascii) : list string :=
  match s with
  | EmptyString => [EmptyString]
  | String c r =>
      if Ascii.eqb c sep then EmptyString :: Split r sep
      else match Split r sep with
           | h :: t => String c h :: t
           | [] => [String c EmptyString]
           end
  end.

Definition byte (n : nat) : ascii := ascii_of_nat n.

(** The white space of [unicode.IsSpace], as UTF-8 byte sequences:
    the six ASCII characters tab, line feed, vertical tab, form feed,
    carriage return and space, then U+0085, U+00A0, U+1680,
    U+2000..U+200A, U+2028, U+2029, U+202F, U+205F and U+3000. *)
Definition spaces : list (list ascii) :=
  map (fun n => [byte n]) [9; 10; 11; 12; 13; 32]%nat
  ++ [[byte 194; byte 133]; [byte 194; byte 160]; [byte 225; byte 154; byte 128]]
  ++ map (fun n => [byte 226; byte 128; byte n])
         [128; 129; 130; 131; 132; 133; 134; 135; 136; 137; 138; 168; 169; 175]%nat
  ++ [[byte 226; byte 129; byte 159]; [byte 227; byte 128; byte 128]].

Fixpoint strip_prefix (p s : list ascii) : option (list ascii) :=
  match p, s with
  | [], _ => Some s
  | a :: p', b :: s' => if Ascii.eqb a b then strip_prefix p' s' else None
  | _ :: _, [] => None
  end.

(** One leading white space character removed, if there is one. *)
Fixpoint strip_space (sps : list (list ascii)) (s : list ascii)
  : option (list ascii) :=
  match sps with
  | [] => None
  | p :: rest =>
      match strip_prefix p s with
      | Some r => Some r
      | None => strip_space rest s
      end
  end.

Fixpoint trim_left (sps : list (list ascii)) (n : nat) (s : list ascii)
  : list ascii :=
  match n with
  | O => s
  | S n' =>
      match strip_space sps s with
      | Some r => trim_left sps n' r
      | None => s
      end
  end.

Definition TrimLeftSpace (s : list ascii) : list ascii :=
  trim_left spaces (length s) s.

(** Trailing white space: the same scan on the reversed bytes, against
    the reversed encodings. *)
Definition TrimRightSpace (s : list ascii) : list ascii :=
  rev (trim_left (map (@rev ascii) spaces) (length s) (rev s)).

(** [strings.TrimSpace(s)]: [s] without its leading and trailing white
    space. *)
Definition TrimSpace (s : string) : string :=
  string_of_list_ascii
    (TrimRightSpace (TrimLeftSpace (list_ascii_of_string s))).

End Strings.

(** ** Package [reflect]: what the cache asks of a type descriptor *)

(** [reflect.Kind], in the order of its constants. *)
Inductive Kind : Set :=
| Invalid | Bool
| Int | Int8 | Int16 | Int32 | Int64
| Uint | Uint8 | Uint16 | Uint32 | Uint64 | Uintptr
| Float32 | Float64 | Complex64 | Complex128
| Array | Chan | Func | Interface | Map | Ptr | Slice | String_ | Struct
| UnsafePointer.

#[global] Instance Kind_eq_dec : EqDecision Kind.
Proof. solve_decision. Defined.

(** The numeric value of a [Kind] constant. *)
Definition Kind_value (k : Kind) : Z :=
  match k with
  | Invalid => 0 | Bool => 1
  | Int => 2 | Int8 => 3 | Int16 => 4 | Int32 => 5 | Int64 => 6
  | Uint => 7 | Uint8 => 8 | Uint16 => 9 | Uint32 => 10 | Uint64 => 11
  | Uintptr => 12
  | Float32 => 13 | Float64 => 14 | Complex64 => 15 | Complex128 => 16
  | Array => 17 | Chan => 18 | Func => 19 | Interface => 20 | Map => 21
  | Ptr => 22 | Slice => 23 | String_ => 24 | Struct => 25
  | UnsafePointer => 26
  end.

(** [reflect.StructField], with the fields the cache reads. [Tag_rlp] is
    the value of [f.Tag.Get("rlp")]: the text of the field's rlp tag, and
    the empty string when the field has none. *)
Record StructField (Ty : Type) : Type := mkStructField {
  Name : string;
  PkgPath : string;
  Typ : Ty;
  Tag_rlp : string
}.
Arguments mkStructField {Ty}.
Arguments Name {Ty}.
Arguments PkgPath {Ty}.
Arguments Typ {Ty}.
Arguments Tag_rlp {Ty}.

(** [reflect.Type] is an interface; a type of descriptors [Ty] implements
    it by giving each descriptor its kind and, for a struct, its fields in
    declaration order. Descriptors are compared by identity, which is
    equality on [Ty]. *)
Class ReflectType (Ty : Type) `{Countable Ty} := {
  type_Kind : Ty -> Kind;
  type_fields : Ty -> list (StructField Ty)
}.

Section Reflect.
Context `{ReflectType Ty}.

(** [typ.NumField()]: panics ([None]) when [typ] is not a struct. *)
Definition NumField (typ : Ty) : option Z :=
  if decide (type_Kind typ = Struct)
  then Some (Z.of_nat (length (type_fields typ)))
  else None.

(** [typ.Field(i)]: panics ([None]) when [typ] is not a struct or [i]
    is out of range. *)
Definition Field (typ : Ty) (i : Z) : option (StructField Ty) :=
  if decide (type_Kind typ = Struct)
  then if decide (0 <= i) then type_fields typ !! Z.to_nat i else None
  else None.
End Reflect.

(** ** Data of the cache *)

(** [tags]: the struct tags of a field. *)
Record tags : Set := mkTags {
  nilOK : bool;
  tail : bool;
  ignored : bool
}.

(** The zero value of [tags]. *)
Definition tags_zero : tags := mkTags false false false.

#[global] Instance tags_eq_dec : EqDecision tags.
Proof. solve_decision. Defined.

#[global] Instance tags_countable : Countable tags.
Proof.
  refine (inj_countable' (fun t => (nilOK t, tail t, ignored t))
                         (fun p => mkTags p.1.1 p.1.2 p.2) _).
  by intros [].
Defined.

(** [typekey]: a type descriptor with the tags it is encoded under. *)
Record typekey (Ty : Type) : Type := mkKey {
  key_Type : Ty;
  key_tags : tags
}.
Arguments mkKey {Ty}.
Arguments key_Type {Ty}.
Arguments key_tags {Ty}.

#[global] Instance typekey_eq_dec `{EqDecision Ty} : EqDecision (typekey Ty).
Proof. solve_decision. Defined.

#[global] Instance typekey_countable `{Countable Ty} : Countable (typekey Ty).
Proof.
  refine (inj_countable' (fun k => (key_Type k, key_tags k))
                         (fun p => mkKey p.1 p.2) _).
  by intros [].
Defined.

(** The errors of this file are made by [fmt.Errorf]; each constructor
    stands for one format string, applied to the type and the field name
    (and to the offending token).
    - [ErrTailPosition]: invalid struct tag tail (must be on last field)
    - [ErrTailType]: invalid struct tag tail (field type is not slice)
    - [ErrUnknownTag]: unknown struct tag
    - [ErrGenerator]: an error made by the codec generator. *)
Inductive error (Ty : Type) : Type :=
| ErrTailPosition (typ : Ty) (name : string)
| ErrTailType (typ : Ty) (name : string)
| ErrUnknownTag (t : string) (typ : Ty) (name : string)
| ErrGenerator (msg : string).
Arguments ErrTailPosition {Ty}.
Arguments ErrTailType {Ty}.
Arguments ErrUnknownTag {Ty}.
Arguments ErrGenerator {Ty}.

(** ** The struct tag parser *)

Section Parser.
Context `{ReflectType Ty}.

(** The body of the loop of [parseStructTag] over the tokens of the
    tag. The result is the pair the function returns: the tags read so
    far and the error, or [None] when a call into [reflect] panics. *)
Fixpoint parseTokens (typ : Ty) (fi : Z) (f : StructField Ty)
    (tokens : list string) (ts : tags)
  : option (tags * option (error Ty)) :=
  match tokens with
  | [] => Some (ts, None)
  | t0 :: rest =>
      let t := Strings.TrimSpace t0 in
      if String.eqb t "" then parseTokens typ fi f rest ts
      else if String.eqb t "-" then
        parseTokens typ fi f rest (mkTags (nilOK ts) (tail ts) true)
      else if String.eqb t "nil" then
        parseTokens typ fi f rest (mkTags true (tail ts) (ignored ts))
      else if String.eqb t "tail" then
        let ts := mkTags (nilOK ts) true (ignored ts) in
        match NumField typ with
        | None => None
        | Some n =>
            if negb (fi =? n - 1) then
              Some (ts, Some (ErrTailPosition typ (Name f)))
            else if negb (bool_decide (type_Kind (Typ f) = Slice)) then
              Some (ts, Some (ErrTailType typ (Name f)))
            else parseTokens typ fi f rest ts
        end
      else Some (ts, Some (ErrUnknownTag t typ (Name f)))
  end.

Definition parseStructTag (typ : Ty) (fi : Z)
  : option (tags * option (error Ty)) :=
  match Field typ fi with
  | None => None
  | Some f =>
      parseTokens typ fi f (Strings.Split (Tag_rlp f) ",") tags_zero
  end.

(** [isUint]: the kinds of the unsigned integers. *)
Definition isUint (k : Kind) : bool :=
  (Kind_value Uint <=? Kind_value k) && (Kind_value k <=? Kind_value Uintptr).
End Parser.


(** ** Objects, pointers and the package state *)

(** A pointer to a [typeinfo] object: its address in the heap. *)
Definition ptr : Set := nat.

(** [field]: the position of a struct field and the codec info of its
    type. *)
Record field : Set := mkField {
  index : Z;
  info : ptr
}.

#[global] Instance field_eq_dec : EqDecision field.
Proof. solve_decision. Defined.

(** A Go result pair [(value, error)] in which exactly one side is set. *)
Inductive result (Ty A : Type) : Type :=
| Ok (a : A)
| Failed (err : error Ty).
Arguments Ok {Ty A}.
Arguments Failed {Ty A}.

(** The codec generator ([makeDecoder], [makeWriter]) is a collaborator of
    the cache and not part of this file: it is given a type and its tags
    and may call back into the cache, through [cachedTypeInfo1] for a
    nested type and through [structFields] for the fields of a struct,
    before it returns a codec function or an error. A [gen A] is such a
    run, as the tree of its calls: after each call the generator goes on
    with what the call returned. The cache is stated for any generator
    of this form. *)
Inductive gen (Ty A : Type) : Type :=
| gen_return (a : A)
| gen_error (err : error Ty)
| gen_cachedTypeInfo1 (typ : Ty) (ts : tags) (k : result Ty ptr -> gen Ty A)
| gen_structFields (typ : Ty) (k : result Ty (list field) -> gen Ty A).
Arguments gen_return {Ty A}.
Arguments gen_error {Ty A}.
Arguments gen_cachedTypeInfo1 {Ty A}.
Arguments gen_structFields {Ty A}.

(** [typeinfo]: the decoder and the writer of a type. A function value
    that is nil is [None]. *)
Record typeinfo (decoder writer : Type) : Type := mkTypeinfo {
  typeinfo_decoder : option decoder;
  typeinfo_writer : option writer
}.
Arguments mkTypeinfo {decoder writer}.
Arguments typeinfo_decoder {decoder writer}.
Arguments typeinfo_writer {decoder writer}.

(** [new(typeinfo)] points to the zero value. *)
Definition typeinfo_zero {decoder writer : Type} : typeinfo decoder writer :=
  mkTypeinfo None None.

(** The state of the package: the map [typeCache], the [typeinfo] objects
    allocated so far (the object at address [p] is [heap !! p]) and, as a
    ghost record, the keys [genTypeInfo] was called for, oldest first. *)
Record State (Ty decoder writer : Type) `{Countable Ty} : Type := mkState {
  typeCache : gmap (typekey Ty) ptr;
  heap : list (typeinfo decoder writer);
  generated : list (typekey Ty)
}.
Arguments mkState {Ty decoder writer _ _}.
Arguments typeCache {Ty decoder writer _ _}.
Arguments heap {Ty decoder writer _ _}.
Arguments generated {Ty decoder writer _ _}.

(** How a call ends: it returns a value in a new state, it panics (a call
    into [reflect] out of its domain, a nil pointer dereferenced), or the
    model ran out of its recursion budget. *)
Inductive outcome (S A : Type) : Type :=
| Returns (a : A) (s : S)
| Panics
| OutOfFuel.
Arguments Returns {S A}.
Arguments Panics {S A}.
Arguments OutOfFuel {S A}.

Section Cache.
Context `{ReflectType Ty} {decoder writer : Type}.

Local Abbreviation State := (State Ty decoder writer).
Local Abbreviation result := (result Ty).
Local Abbreviation gen := (gen Ty).

(** A function of the package: a state transformer. *)
Definition M (A : Type) : Type := State -> outcome State A.

Definition ret {A} (a : A) : M A := fun s => Returns a s.

Definition bind {A B} (m : M A) (f : A -> M B) : M B :=
  fun s => match m s with
           | Returns a s' => f a s'
           | Panics => Panics
           | OutOfFuel => OutOfFuel
           end.

Definition panic {A} : M A := fun _ => Panics.

Notation "'let*' x ':=' m 'in' f" := (bind m (fun x => f))
  (at level 10, x binder, f at level 200).

(** [typeCache[key]]: nil ([None]) when the key is absent. *)
Definition cache_get (key : typekey Ty) : M (option ptr) :=
  fun s => Returns (typeCache s !! key) s.

(** [typeCache[key] = p] *)
Definition cache_put (key : typekey Ty) (p : ptr) : M unit :=
  fun s => Returns tt (mkState (<[key := p]> (typeCache s)) (heap s) (generated s)).

(** [delete(typeCache, key)] *)
Definition cache_delete (key : typekey Ty) : M unit :=
  fun s => Returns tt (mkState (delete key (typeCache s)) (heap s) (generated s)).

(** [new(typeinfo)]: a fresh object holding the zero value. *)
Definition new_typeinfo : M ptr :=
  fun s => Returns (length (heap s))
             (mkState (typeCache s) (heap s ++ [typeinfo_zero]) (generated s)).

(** [*p]: reading through a pointer that points to no object panics. *)
Definition load (p : ptr) : M (typeinfo decoder writer) :=
  fun s => match heap s !! p with
           | Some v => Returns v s
           | None => Panics
           end.

(** [*p = v] *)
Definition store (p : ptr) (v : typeinfo decoder writer) : M unit :=
  fun s => match heap s !! p with
           | Some _ => Returns tt (mkState (typeCache s) (<[p := v]> (heap s)) (generated s))
           | None => Panics
           end.

(** Ghost: note that [genTypeInfo] was entered for [key]. *)
Definition note_generation (key : typekey Ty) : M unit :=
  fun s => Returns tt (mkState (typeCache s) (heap s) (generated s ++ [key])).

(** The generator of the package, a parameter of the cache. *)
Variable makeDecoder : Ty -> tags -> gen decoder.
Variable makeWriter : Ty -> tags -> gen writer.

Section Calls.
(** [cachedTypeInfo1] as the functions below call it: one level further
    down the recursion. *)
Variable cachedTypeInfo1_rec : Ty -> tags -> M (result ptr).

(** The loop of [structFields], from field [i] on, for the indices [todo]
    that are left, with the value of [fields] so far. *)
Fixpoint structFields_loop (typ : Ty) (todo : list nat) (fields : list field)
  : M (result (list field)) :=
  match todo with
  | [] => ret (Ok fields)
  | i :: rest =>
      match Field typ (Z.of_nat i) with
      | None => panic
      | Some f =>
          if String.eqb (PkgPath f) "" then
            match parseStructTag typ (Z.of_nat i) with
            | None => panic
            | Some (_, Some err) => ret (Failed err)
            | Some (tags, None) =>
                if ignored tags then structFields_loop typ rest fields
                else
                  let* r := cachedTypeInfo1_rec (Typ f) tags in
                  match r with
                  | Failed err => ret (Failed err)
                  | Ok info =>
                      structFields_loop typ rest
                        (fields ++ [mkField (Z.of_nat i) info])
                  end
            end
          else structFields_loop typ rest fields
      end
  end.

Definition structFields (typ : Ty) : M (result (list field)) :=
  match NumField typ with
  | None => panic
  | Some n => structFields_loop typ (seq 0 (Z.to_nat n)) []
  end.

(** A run of the generator: its calls go to the cache. *)
Fixpoint run_gen {A} (g : gen A) : M (result A) :=
  match g with
  | gen_return a => ret (Ok a)
  | gen_error err => ret (Failed err)
  | gen_cachedTypeInfo1 typ ts k =>
      let* r := cachedTypeInfo1_rec typ ts in run_gen (k r)
  | gen_structFields typ k =>
      let* r := structFields typ in run_gen (k r)
  end.

Definition genTypeInfo (typ : Ty) (tags : tags) : M (result ptr) :=
  let* _ := note_generation (mkKey typ tags) in
  let* info := new_typeinfo in
  let* d := run_gen (makeDecoder typ tags) in
  match d with
  | Failed err => ret (Failed err)
  | Ok dec =>
      let* v := load info in
      let* _ := store info (mkTypeinfo (Some dec) (typeinfo_writer v)) in
      let* w := run_gen (makeWriter typ tags) in
      match w with
      | Failed err => ret (Failed err)
      | Ok wr =>
          let* v := load info in
          let* _ := store info (mkTypeinfo (typeinfo_decoder v) (Some wr)) in
          ret (Ok info)
      end
  end.

(** The body of [cachedTypeInfo1]. The pointer it returns on success is
    [typeCache[key]], read once more after the copy; nothing intervenes,
    so it is the pointer the copy went through. *)
Definition cachedTypeInfo1_body (typ : Ty) (tags : tags) : M (result ptr) :=
  let key := mkKey typ tags in
  let* cached := cache_get key in
  match cached with
  | Some info => ret (Ok info)
  | None =>
      let* dummy := new_typeinfo in
      let* _ := cache_put key dummy in
      let* r := genTypeInfo typ tags in
      match r with
      | Failed err => let* _ := cache_delete key in ret (Failed err)
      | Ok info =>
          let* target := cache_get key in
          match target with
          | None => panic
          | Some p =>
              let* v := load info in
              let* _ := store p v in
              ret (Ok p)
          end
      end
  end.
End Calls.

(** [cachedTypeInfo1], with a budget for the depth of its recursion
    through the generator. *)
Fixpoint cachedTypeInfo1 (fuel : nat) (typ : Ty) (tags : tags)
  : M (result ptr) :=
  match fuel with
  | O => fun _ => OutOfFuel
  | S n => cachedTypeInfo1_body (cachedTypeInfo1 n) typ tags
  end.

(** [cachedTypeInfo]. The read lock is held around the first lookup and
    the write lock around the call of [cachedTypeInfo1]; a single caller
    never waits for either. *)
Definition cachedTypeInfo (fuel : nat) (typ : Ty) (tags : tags)
  : M (result ptr) :=
  let* cached := cache_get (mkKey typ tags) in
  match cached with
  | Some info => ret (Ok info)
  | None => cachedTypeInfo1 fuel typ tags
  end.

End Cache.

(** ** The field enumerator, after the specification

    The specification's wording of the field enumerator, to compare
    [structFields] with: walk the fields in declaration order; skip a
    field that is not exported; parse the tag of the others, and stop
    with the error if it is malformed; skip the field if its tag sets
    [ignored]; otherwise resolve the codec info of the pair of the
    field's type and its parsed tags through the cache, stop with the
    error if that fails, and append the descriptor. *)

Section EnumeratorSpec.
Context `{ReflectType Ty} {decoder writer : Type}.
Variable resolve : Ty -> tags -> @M Ty _ _ decoder writer (result Ty ptr).

Fixpoint enumerate_from (typ : Ty) (position : nat)
    (fs : list (StructField Ty)) (acc : list field)
  : @M Ty _ _ decoder writer (result Ty (list field)) :=
  match fs with
  | [] => ret (Ok acc)
  | f :: rest =>
      if bool_decide (PkgPath f = "") then
        match parseStructTag typ (Z.of_nat position) with
        | None => panic
        | Some (_, Some err) => ret (Failed err)
        | Some (ts, None) =>
            if ignored ts then enumerate_from typ (S position) rest acc
            else
              bind (resolve (Typ f) ts)
                (fun r =>
                   match r with
                   | Failed err => ret (Failed err)
                   | Ok p =>
                       enumerate_from typ (S position) rest
                         (acc ++ [mkField (Z.of_nat position) p])
                   end)
        end
      else enumerate_from typ (S position) rest acc
  end.

Definition enumerate_spec (typ : Ty) : @M Ty _ _ decoder writer (result Ty (list field)) :=
  enumerate_from typ 0 (type_fields typ) [].

(** The fields the enumerator retains: exported, and not ignored by their
    tag. *)
Definition retained (typ : Ty) (i : nat) : bool :=
  match Field typ (Z.of_nat i), parseStructTag typ (Z.of_nat i) with
  | Some f, Some (ts, None) => bool_decide (PkgPath f = "") && negb (ignored ts)
  | _, _ => false
  end.
End EnumeratorSpec.

(** ** Vocabulary of the properties *)

Section Vocabulary.
Context `{ReflectType Ty} {decoder writer : Type}.

(** How often [genTypeInfo] was called for [key]. *)
Definition generations (key : typekey Ty) (st : State Ty decoder writer) : nat :=
  length (filter (fun k => k = key) (generated st)).

(** [extends st st']: the state [st'] comes after [st]. Every entry of the
    cache is still there under the same pointer, every object that
    existed is unchanged, no key that had an entry was generated again,
    and every key that has got an entry was generated in between. *)
Record extends (st st' : State Ty decoder writer) : Prop := mkExtends {
  extends_cache : typeCache st ⊆ typeCache st';
  extends_heap : heap st `prefix_of` heap st';
  extends_generated : generated st `prefix_of` generated st';
  extends_present : forall key,
    is_Some (typeCache st !! key) -> generations key st' = generations key st;
  extends_new : forall key,
    typeCache st !! key = None -> is_Some (typeCache st' !! key) ->
    (generations key st < generations key st')%nat
}.

(** A generator that asks for the fields of structs only (on any other
    type [NumField] panics). *)
Inductive structs_only {A : Type} : gen Ty A -> Prop :=
| structs_only_return a : structs_only (gen_return a)
| structs_only_error err : structs_only (gen_error err)
| structs_only_cachedTypeInfo1 typ ts k :
    (forall r, structs_only (k r)) ->
    structs_only (gen_cachedTypeInfo1 typ ts k)
| structs_only_structFields typ k :
    type_Kind typ = Struct ->
    (forall r, structs_only (k r)) ->
    structs_only (gen_structFields typ k).

(** A generator that fails when the field enumerator fails, as the one
    for structs does. *)
Definition propagates {A : Type} (g : gen Ty A) (typ : Ty) : Prop :=
  exists k, g = gen_structFields typ k
            /\ forall err, exists err', k (Failed err) = gen_error err'.

(** The tokens of a tag, as the parser compares them. *)
Definition tokens (tag : string) : list string :=
  map Strings.TrimSpace (Strings.Split tag ",").


(** The keys of a program with finitely many types, and the number of
    them that have no entry: the recursion of [cachedTypeInfo1] can go no
    deeper. *)
Definition all_tags : list tags :=
  [mkTags false false false; mkTags false false true;
   mkTags false true false; mkTags false true true;
   mkTags true false false; mkTags true false true;
   mkTags true true false; mkTags true true true].

Definition all_keys `{!Finite Ty} : list (typekey Ty) :=
  concat (map (fun typ => map (mkKey typ) all_tags) (enum Ty)).

Definition missing `{!Finite Ty} (st : State Ty decoder writer) : nat :=
  length (filter (fun key => typeCache st !! key = None) all_keys).

Definition budget `{!Finite Ty} : nat := S (length all_keys).

End Vocabulary.
Arguments budget Ty {_ _}.

(** ** Concurrent callers

    [typeCacheMutex] makes two parts of [cachedTypeInfo] atomic: the
    lookup under the read lock, and the whole call of [cachedTypeInfo1]
    under the write lock. Between the two a caller holds no lock and
    others may run. A caller is therefore in one of three places, and a
    run of several callers is a sequence of such atomic parts, chosen by
    a schedule. *)

Inductive caller (Ty : Type) : Type :=
| AtEntry (typ : Ty) (ts : tags)
| AtLock (typ : Ty) (ts : tags)
| Finished (r : result Ty ptr).
Arguments AtEntry {Ty}.
Arguments AtLock {Ty}.
Arguments Finished {Ty}.

Section Callers.
Context `{ReflectType Ty} {decoder writer : Type}.
Variable makeDecoder : Ty -> tags -> gen Ty decoder.
Variable makeWriter : Ty -> tags -> gen Ty writer.

(** The next atomic part of a caller. *)
Definition caller_step (fuel : nat) (c : caller Ty)
  : @M Ty _ _ decoder writer (caller Ty) :=
  match c with
  | AtEntry typ ts =>
      bind (cache_get (mkKey typ ts))
        (fun cached =>
           match cached with
           | Some info => ret (Finished (Ok info))
           | None => ret (AtLock typ ts)
           end)
  | AtLock typ ts =>
      bind (cachedTypeInfo1 makeDecoder makeWriter fuel typ ts)
        (fun r => ret (Finished r))
  | Finished r => ret (Finished r)
  end.

(** The callers [pool] run under the schedule [sched]: each entry names
    the caller that runs its next part. *)
Fixpoint run_callers (fuel : nat) (sched : list nat) (pool : list (caller Ty))
  : @M Ty _ _ decoder writer (list (caller Ty)) :=
  match sched with
  | [] => ret pool
  | i :: rest =>
      match pool !! i with
      | None => run_callers fuel rest pool
      | Some c =>
          bind (caller_step fuel c)
            (fun c' => run_callers fuel rest (<[i := c']> pool))
      end
  end.

(** A caller that has returned, and one that has returned an error. *)
Definition finished (c : caller Ty) : bool :=
  match c with Finished _ => true | _ => false end.

Definition failed (c : caller Ty) : bool :=
  match c with Finished (Failed _) => true | _ => false end.

(** The number of callers that have returned an error. *)
Definition failures (pool : list (caller Ty)) : nat :=
  length (filter (fun c => failed c) pool).

(** A caller of [cachedTypeInfo] for [key], wherever it is. *)
Definition calls (key : typekey Ty) (c : caller Ty) : Prop :=
  match c with
  | AtEntry typ ts | AtLock typ ts => mkKey typ ts = key
  | Finished _ => True
  end.

(** The books of the callers of [key], from a state in which the key had
    no entry and had been generated [before] times: one generation for
    each caller that has failed and one more once the key has its entry,
    which is what every caller that succeeded has returned. *)
Definition accounted (key : typekey Ty) (before : nat)
    (pool : list (caller Ty)) (st : State Ty decoder writer) : Prop :=
  match typeCache st !! key with
  | Some p =>
      generations key st = (before + failures pool + 1)%nat
      /\ forall c q, c ∈ pool -> c = Finished (Ok q) -> q = p
  | None =>
      generations key st = (before + failures pool)%nat
      /\ forall c q, c ∈ pool -> c <> Finished (Ok q)
  end.
End Callers.

(** ** A sample program

    A few types and a generator for them, to run the cache on. *)

Module Sample.

(** The types of the sample program:
    - [Uint64T] is [uint64], [Uint64s] is [[]uint64], [ChanT] is a channel;
    - [Simple] is [struct { X uint64 }];
    - [Node] is [struct { Next *Node }], [PtrNode] is [*Node];
    - [Tree] is [struct { Children []Tree }], [Trees] is [[]Tree];
    - [TailFirst] is [struct { A uint64 `rlp:"tail"`; B uint64 }];
    - [TailScalar] is [struct { A uint64; B uint64 `rlp:"tail"` }];
    - [TailLast] is [struct { A uint64; Rest []uint64 `rlp:"tail"` }];
    - [TailHidden] is [struct { Rest []uint64 `rlp:"tail"`; b uint64 }];
    - [Unknown] is [struct { A uint64; B uint64 `rlp:"bogus"` }];
    - [LateTail] is [struct { A uint64 `rlp:"bogus,tail"`; B uint64 }];
    - [Mixed] is
      [struct { A uint64; b uint64; C uint64 `rlp:"-"`; D *Node `rlp:"nil"` }];
    - [Broken] is [struct { Next *Broken; C chan int }], [PtrBroken] is
      [*Broken]. *)
Inductive ty : Set :=
| Uint64T | Uint64s | ChanT
| Simple
| Node | PtrNode
| Tree | Trees
| TailFirst | TailScalar | TailLast | TailHidden | Unknown | LateTail
| Mixed
| Broken | PtrBroken.

#[global] Instance ty_eq_dec : EqDecision ty.
Proof. solve_decision. Defined.

#[global] Instance ty_finite : Finite ty.
Proof.
  refine {| enum := [Uint64T; Uint64s; ChanT; Simple; Node; PtrNode; Tree;
                     Trees; TailFirst; TailScalar; TailLast; TailHidden;
                     Unknown; LateTail; Mixed; Broken; PtrBroken] |}.
  - apply (bool_decide_unpack _). vm_compute. exact I.
  - intros []; apply (bool_decide_unpack _); vm_compute; exact I.
Defined.

Definition exported (name : string) (t : ty) (tag : string) : StructField ty :=
  mkStructField name "" t tag.

Definition unexported (name : string) (t : ty) (tag : string) : StructField ty :=
  mkStructField name "main" t tag.

Definition kind_of (t : ty) : Kind :=
  match t with
  | Uint64T => Uint64
  | Uint64s | Trees => Slice
  | ChanT => Chan
  | PtrNode | PtrBroken => Ptr
  | _ => Struct
  end.

Definition fields_of (t : ty) : list (StructField ty) :=
  match t with
  | Simple => [exported "X" Uint64T ""]
  | Node => [exported "Next" PtrNode ""]
  | Tree => [exported "Children" Trees ""]
  | TailFirst => [exported "A" Uint64T "tail"; exported "B" Uint64T ""]
  | TailScalar => [exported "A" Uint64T ""; exported "B" Uint64T "tail"]
  | TailLast => [exported "A" Uint64T ""; exported "Rest" Uint64s "tail"]
  | TailHidden => [exported "Rest" Uint64s "tail"; unexported "b" Uint64T ""]
  | Unknown => [exported "A" Uint64T ""; exported "B" Uint64T "bogus"]
  | LateTail => [exported "A" Uint64T "bogus,tail"; exported "B" Uint64T ""]
  | Mixed => [exported "A" Uint64T ""; unexported "b" Uint64T "";
              exported "C" Uint64T "-"; exported "D" PtrNode "nil"]
  | Broken => [exported "Next" PtrBroken ""; exported "C" ChanT ""]
  | _ => []
  end.

#[global] Instance ty_reflect : ReflectType ty :=
  {| type_Kind := kind_of; type_fields := fields_of |}.

(** [typ.Elem()] for the pointers and slices of the sample. *)
Definition elem_of_ty (t : ty) : option ty :=
  match t with
  | Uint64s => Some Uint64T
  | Trees => Some Tree
  | PtrNode => Some Node
  | PtrBroken => Some Broken
  | _ => None
  end.

(** What a generated codec function is made of: nothing for a scalar, the
    field descriptors for a struct, the codec info of the element for a
    pointer or a slice. *)
Inductive codec : Set :=
| ScalarCodec (k : Kind)
| StructCodec (fields : list field)
| ElemCodec (elem : ptr).

(** Modelled from the spec: the codec generator ([makeDecoder] and
    [makeWriter] are not among the sources). Generating for a struct
    drives the field enumerator and fails with its error; generating for
    a pointer or a sequence resolves the element type under the zero
    tags through the cache and fails with its error; a kind without a
    codec (here: a channel) is a generator failure; any other type is a
    scalar. *)
Definition make (typ : ty) (ts : tags) : gen ty codec :=
  match kind_of typ with
  | Struct =>
      gen_structFields typ
        (fun r => match r with
                  | Ok fields => gen_return (StructCodec fields)
                  | Failed err => gen_error err
                  end)
  | Ptr | Slice =>
      match elem_of_ty typ with
      | Some e =>
          gen_cachedTypeInfo1 e tags_zero
            (fun r => match r with
                      | Ok p => gen_return (ElemCodec p)
                      | Failed err => gen_error err
                      end)
      | None => gen_error (ErrGenerator "rlp: type is not RLP-serializable")
      end
  | Chan => gen_error (ErrGenerator "rlp: type is not RLP-serializable")
  | k => gen_return (ScalarCodec k)
  end.

Definition makeDecoder : ty -> tags -> gen ty codec := make.
Definition makeWriter : ty -> tags -> gen ty codec := make.

(** The state of a program that has not used the cache yet. *)
Definition fresh : State ty codec codec := mkState ∅ [] [].

(** [resolve typ ts]: [cachedTypeInfo] on the sample generator, with a
    budget that covers every key of the sample. *)
Definition resolve (typ : ty) (ts : tags)
  : State ty codec codec -> outcome (State ty codec codec) (result ty ptr) :=
  cachedTypeInfo makeDecoder makeWriter 200 typ ts.

(** What is left of an outcome to look at: the value returned, the
    entries of the cache, the objects and the generations. *)
Definition observe {A} (o : outcome (State ty codec codec) A)
  : option (A * list (typekey ty * ptr) * list (typeinfo codec codec)
            * list (typekey ty)) :=
  match o with
  | Returns a s => Some (a, map_to_list (typeCache s), heap s, generated s)
  | _ => None
  end.

(** The same in short: the value returned, the types that have an entry,
    the number of objects and the types generated for. *)
Definition summary {A} (o : outcome (State ty codec codec) A)
  : option (A * list (ty * ptr) * nat * list ty) :=
  match o with
  | Returns a s =>
      Some (a, map (fun e => (key_Type e.1, e.2)) (map_to_list (typeCache s)),
            length (heap s), map key_Type (generated s))
  | _ => None
  end.

End Sample.

(** ** The states a miss goes through

    On a miss [cachedTypeInfo1] puts a dummy value into the cache, calls
    [genTypeInfo], which allocates [info] and calls the two generators,
    and then copies [*info] over the dummy value or deletes the entry.
    These are the states in which it does so. *)

Section MissStates.
Context `{ReflectType Ty} {decoder writer : Type}.

(** After [typeCache[key] = new(typeinfo)]: the dummy value is a new
    object, at the next free address, and the entry of [key]. *)
Definition dummy_installed (key : typekey Ty) (st : State Ty decoder writer)
  : State Ty decoder writer :=
  mkState (<[key := length (heap st)]> (typeCache st))
          (heap st ++ [typeinfo_zero]) (generated st).

(** After [info = new(typeinfo)] in [genTypeInfo], called in [st]: the
    state in which [makeDecoder] is called. The object [info] is at
    address [length (heap st)]. *)
Definition generation_started (typ : Ty) (ts : tags)
    (st : State Ty decoder writer) : State Ty decoder writer :=
  mkState (typeCache st) (heap st ++ [typeinfo_zero])
          (generated st ++ [mkKey typ ts]).

(** After [*p = v]. *)
Definition object_set (p : ptr) (v : typeinfo decoder writer)
    (st : State Ty decoder writer) : State Ty decoder writer :=
  mkState (typeCache st) (<[p := v]> (heap st)) (generated st).

(** After [delete(typeCache, key)]. *)
Definition dummy_removed (key : typekey Ty) (st : State Ty decoder writer)
  : State Ty decoder writer :=
  mkState (delete key (typeCache st)) (heap st) (generated st).

(** Every entry points to an object, and no two entries to the same. *)
Definition wf_cache (st : State Ty decoder writer) : Prop :=
  (forall key (p : ptr),
     typeCache st !! key = Some p -> (p < length (heap st))%nat)
  /\ (forall key key' (p : ptr),
        typeCache st !! key = Some p -> typeCache st !! key' = Some p ->
        key = key').

End MissStates.

(** ** More vocabulary: complete entries, well-formed caches, tokens *)

Section MoreVocabulary.
Context `{ReflectType Ty} {decoder writer : Type}.

(** The object at [p] is a finished codec info: both functions are set. *)
Definition complete_at (st : State Ty decoder writer) (p : ptr) : Prop :=
  exists d w, heap st !! p = Some (mkTypeinfo (Some d) (Some w)).

(** Every entry of the cache is a finished codec info. *)
Definition all_complete (st : State Ty decoder writer) : Prop :=
  forall key p, typeCache st !! key = Some p -> complete_at st p.

(** The entries that [st'] has and [st] had not are at addresses from
    [n] on, and finished. *)
Definition settles_above (n : nat) (st st' : State Ty decoder writer) : Prop :=
  forall key (p : ptr),
    typeCache st' !! key = Some p -> typeCache st !! key = None ->
    (n <= p)%nat /\ complete_at st' p.

(** A token the parser goes past on field [fi], whose type is [f]'s:
    empty, [-], [nil], or [tail] on the last field when it is a slice. *)
Definition acceptable (typ : Ty) (fi : Z) (f : StructField Ty) (t : string)
  : Prop :=
  t = "" \/ t = "-" \/ t = "nil"
  \/ (t = "tail"
      /\ NumField typ = Some (fi + 1)
      /\ type_Kind (Typ f) = Slice).

(** The tags that a list of tokens sets. *)
Definition tags_of (toks : list string) : tags :=
  mkTags (bool_decide ("nil" ∈ toks)) (bool_decide ("tail" ∈ toks))
         (bool_decide ("-" ∈ toks)).

(** The tags that either of two sets. *)
Definition tags_join (a b : tags) : tags :=
  mkTags (nilOK a || nilOK b) (tail a || tail b) (ignored a || ignored b).

(** The error of a token the parser does not go past. *)
Definition token_error (typ : Ty) (fi : Z) (f : StructField Ty) (t : string)
  : error Ty :=
  if decide (t = "tail") then
    if decide (NumField typ = Some (fi + 1)%Z)
    then ErrTailType typ (Name f)
    else ErrTailPosition typ (Name f)
  else ErrUnknownTag t typ (Name f).

(** A caller that has returned a pointer. *)
Definition returned (c : caller Ty) (p : ptr) : Prop := c = Finished (Ok p).
End MoreVocabulary.

(** ** The memory database ([ethdb/memory_database.go])

    A byte slice is the list of its bytes, or [None] when it is nil. The
    database copies what it is given and what it gives out, and a batch
    copies what it is given, so no caller holds a slice that the database
    or a batch holds; the slices are therefore values here. [CopyBytes]
    is not part of this file and is a parameter. The locks order the
    callers and hold no data; they are left out. *)

Module ethdb.

(** [[]byte] *)
Definition bytes : Set := option (list ascii).

(** The bytes of a slice; none for nil. *)
Definition content (b : bytes) : list ascii := default [] b.

(** [len(b)] *)
Definition len (b : bytes) : Z := Z.of_nat (length (content b)).

(** [string(b)]: nil and the empty slice both give the empty string. *)
Definition string_of_bytes (b : bytes) : string :=
  string_of_list_ascii (content b).

(** [[]byte(s)]: never nil. *)
Definition bytes_of_string (s : string) : bytes :=
  Some (list_ascii_of_string s).

(** [int] on a 64-bit platform: the sum, wrapped around. *)
Definition int_add (x y : Z) : Z :=
  (x + y + 2 ^ 63) mod 2 ^ 64 - 2 ^ 63.

(** [IdealBatchSize] *)
Definition IdealBatchSize : Z := 100 * 1024.

(** [MemDatabase]: the map [db]. *)
Record MemDatabase : Type := mkMemDatabase {
  db : gmap string bytes
}.

(** [kv]: one write of a batch. *)
Record kv : Set := mkKv {
  k : bytes;
  v : bytes;
  del : bool
}.

(** [memBatch]: the writes and their size. The field [db] of the batch
    points to the database that made it; [memBatch_Write] is given that
    database. *)
Record memBatch : Set := mkMemBatch {
  writes : list kv;
  size : Z
}.

(** [NewMemDatabase] *)
Definition NewMemDatabase : MemDatabase := mkMemDatabase ∅.

Section Methods.
Variable CopyBytes : bytes -> bytes.

(** [MemDatabase.Put]: the database after the call, and the error. *)
Definition MemDatabase_Put (d : MemDatabase) (key value : bytes)
  : MemDatabase * option string :=
  (mkMemDatabase (<[string_of_bytes key := CopyBytes value]> (db d)), None).

(** [MemDatabase.Has] *)
Definition MemDatabase_Has (d : MemDatabase) (key : bytes)
  : bool * option string :=
  (bool_decide (is_Some (db d !! string_of_bytes key)), None).

(** [MemDatabase.Get] *)
Definition MemDatabase_Get (d : MemDatabase) (key : bytes)
  : bytes * option string :=
  match db d !! string_of_bytes key with
  | Some entry => (CopyBytes entry, None)
  | None => (None, Some "not found")
  end.

(** [MemDatabase.Keys]: the keys of the map, each once, in the order
    in which the loop happens to visit them. *)
Definition MemDatabase_Keys (d : MemDatabase) (keys : list bytes) : Prop :=
  keys ≡ₚ map (fun e => bytes_of_string e.1) (map_to_list (db d)).

(** [MemDatabase.Delete] *)
Definition MemDatabase_Delete (d : MemDatabase) (key : bytes)
  : MemDatabase * option string :=
  (mkMemDatabase (delete (string_of_bytes key) (db d)), None).

(** [MemDatabase.NewBatch] *)
Definition MemDatabase_NewBatch (d : MemDatabase) : memBatch :=
  mkMemBatch [] 0.

(** [MemDatabase.Len] *)
Definition MemDatabase_Len (d : MemDatabase) : Z :=
  Z.of_nat (base.size (db d)).

(** [memBatch.Put] *)
Definition memBatch_Put (b : memBatch) (key value : bytes)
  : memBatch * option string :=
  (mkMemBatch (writes b ++ [mkKv (CopyBytes key) (CopyBytes value) false])
              (int_add (size b) (len value)),
   None).

(** [memBatch.Delete] *)
Definition memBatch_Delete (b : memBatch) (key : bytes)
  : memBatch * option string :=
  (mkMemBatch (writes b ++ [mkKv (CopyBytes key) None true])
              (int_add (size b) 1),
   None).

(** One turn of the loop of [memBatch.Write]. *)
Definition write_one (m : gmap string bytes) (w : kv) : gmap string bytes :=
  if del w then delete (string_of_bytes (k w)) m
  else <[string_of_bytes (k w) := v w]> m.

(** [memBatch.Write], on the database of the batch. *)
Definition memBatch_Write (b : memBatch) (d : MemDatabase)
  : MemDatabase * option string :=
  (mkMemDatabase (fold_left write_one (writes b) (db d)), None).

(** [memBatch.ValueSize] *)
Definition memBatch_ValueSize (b : memBatch) : Z := size b.

(** [memBatch.Reset] *)
Definition memBatch_Reset (b : memBatch) : memBatch := mkMemBatch [] 0.

(** What a user does with a database or with a batch: a put or a
    delete. *)
Inductive op : Set :=
| OpPut (key value : bytes)
| OpDelete (key : bytes).

(** The operation on the database itself. *)
Definition apply_db (d : MemDatabase) (o : op) : MemDatabase :=
  match o with
  | OpPut key value => (MemDatabase_Put d key value).1
  | OpDelete key => (MemDatabase_Delete d key).1
  end.

(** The operation on a batch. *)
Definition apply_batch (b : memBatch) (o : op) : memBatch :=
  match o with
  | OpPut key value => (memBatch_Put b key value).1
  | OpDelete key => (memBatch_Delete b key).1
  end.

(** What an operation adds to the size of a batch: the length of the
    value of a put, one for a delete. *)
Definition op_size (o : op) : Z :=
  match o with
  | OpPut _ value => len value
  | OpDelete _ => 1
  end.

(** The key of an operation, as the map sees it. *)
Definition op_key (o : op) : string :=
  match o with
  | OpPut key _ | OpDelete key => string_of_bytes key
  end.
End Methods.

End ethdb.

(** ** Proof steps through the state monad *)

Ltac step_in H :=
  match type of H with
  | bind ?m ?f ?s = _ =>
      let o := fresh "o" in
      let E := fresh "E" in
      unfold bind at 1 in H; destruct (m s) as [? ? | |] eqn:E;
      try discriminate H
  | ret _ _ = Returns _ _ =>
      unfold ret in H; first [discriminate H | injection H as <- <-]
  | Returns _ _ = Returns _ _ =>
      first [discriminate H | injection H as <- <-]
  | panic _ = _ => discriminate H
  end.

Ltac step_as H a s E :=
  match type of H with
  | bind ?m ?f ?st = _ =>
      unfold bind at 1 in H; destruct (m st) as [a s | |] eqn:E;
      try discriminate H
  end.

(** * Properties *)

(** ** Stepping through the state monad *)

Section Steps.
Context `{ReflectType Ty} {decoder writer : Type}.
Local Abbreviation State := (State Ty decoder writer).
Local Abbreviation M := (@M Ty _ _ decoder writer).

Lemma bind_Returns {A B} (m : M A) (f : A -> M B) (st : State) (b : B) (st' : State) :
  bind m f st = Returns b st' <->
  exists a st1, m st = Returns a st1 /\ f a st1 = Returns b st'.
Proof.
  unfold bind. split.
  - destruct (m st) as [a st1 | |]; [eauto | discriminate | discriminate].
  - intros (a & st1 & -> & Hf). exact Hf.
Qed.

Lemma bind_le {A B} (m1 m2 : M A) (f1 f2 : A -> M B) :
  (forall (st : State) a st', m1 st = Returns a st' -> m2 st = Returns a st') ->
  (forall a (st : State) b st',
     f1 a st = Returns b st' -> f2 a st = Returns b st') ->
  forall (st : State) b st',
    bind m1 f1 st = Returns b st' -> bind m2 f2 st = Returns b st'.
Proof.
  intros Hm Hf st b st'. rewrite !bind_Returns.
  intros (a & st1 & H1 & H2). exists a, st1. auto.
Qed.

Lemma bind_cache_get {B} key (f : option ptr -> M B) (st : State) :
  bind (cache_get key) f st = f (typeCache st !! key) st.
Proof. reflexivity. Qed.

Lemma bind_cache_put {B} key p (f : unit -> M B) (st : State) :
  bind (cache_put key p) f st
  = f tt (mkState (<[key := p]> (typeCache st)) (heap st) (generated st)).
Proof. reflexivity. Qed.

Lemma bind_cache_delete {B} key (f : unit -> M B) (st : State) :
  bind (cache_delete key) f st
  = f tt (mkState (delete key (typeCache st)) (heap st) (generated st)).
Proof. reflexivity. Qed.

Lemma bind_new_typeinfo {B} (f : ptr -> M B) (st : State) :
  bind new_typeinfo f st
  = f (length (heap st))
      (mkState (typeCache st) (heap st ++ [typeinfo_zero])%list (generated st)).
Proof. reflexivity. Qed.

Lemma bind_note_generation {B} key (f : unit -> M B) (st : State) :
  bind (note_generation key) f st
  = f tt (mkState (typeCache st) (heap st) (generated st ++ [key])%list).
Proof. reflexivity. Qed.

Lemma bind_load {B} p (f : typeinfo decoder writer -> M B) (st : State) v :
  heap st !! p = Some v -> bind (load p) f st = f v st.
Proof. intros Hp. unfold bind, load. by rewrite Hp. Qed.

Lemma bind_store {B} p v (f : unit -> M B) (st : State) v0 :
  heap st !! p = Some v0 ->
  bind (store p v) f st
  = f tt (mkState (typeCache st) (<[p := v]> (heap st)) (generated st)).
Proof. intros Hp. unfold bind, store. by rewrite Hp. Qed.

Lemma generations_app key (l : list (typekey Ty)) k :
  length (filter (fun k' => k' = key) (l ++ [k])%list)
  = (length (filter (fun k' => k' = key) l) + if decide (k = key) then 1 else 0)%nat.
Proof.
  rewrite filter_app, length_app. f_equal.
  rewrite filter_cons. destruct (decide (k = key)); reflexivity.
Qed.

Lemma generations_prefix key (st st' : State) :
  generated st `prefix_of` generated st' ->
  (generations key st <= generations key st')%nat.
Proof.
  intros [tl Htl]. unfold generations. rewrite Htl, filter_app, length_app. lia.
Qed.

Lemma extends_refl (st : State) : extends st st.
Proof.
  split; [done | done | done | done |].
  intros key Hnone [p Hp]. congruence.
Qed.

Lemma extends_trans (st1 st2 st3 : State) :
  extends st1 st2 -> extends st2 st3 -> extends st1 st3.
Proof.
  intros [c1 h1 g1 p1 n1] [c2 h2 g2 p2 n2]. split.
  - by etrans.
  - by etrans.
  - by etrans.
  - intros key Hk. rewrite p2, p1; [done | done |].
    destruct Hk as [p Hp]. exists p.
    by eapply lookup_weaken.
  - intros key Hnone Hsome.
    pose proof (generations_prefix key _ _ g1).
    pose proof (generations_prefix key _ _ g2).
    destruct (typeCache st2 !! key) as [p |] eqn:Hp.
    + specialize (n1 key Hnone (ltac:(by eexists))). lia.
    + specialize (n2 key Hp Hsome). lia.
Qed.

Lemma extends_lookup (st st' : State) key p :
  extends st st' -> typeCache st !! key = Some p ->
  typeCache st' !! key = Some p.
Proof. intros [c _ _ _ _] Hp. by eapply lookup_weaken. Qed.

Lemma extends_load (st st' : State) a (v : typeinfo decoder writer) :
  extends st st' -> heap st !! a = Some v -> heap st' !! a = Some v.
Proof. intros [_ h _ _ _] Ha. by eapply prefix_lookup_Some. Qed.

End Steps.

(** ** The struct tag parser *)

Section ParserProperties.
Context `{ReflectType Ty}.

Lemma Field_Struct typ i (f : StructField Ty) :
  Field typ i = Some f -> type_Kind typ = Struct.
Proof. unfold Field. by destruct (decide (type_Kind typ = Struct)). Qed.

Lemma NumField_Struct typ :
  type_Kind typ = Struct ->
  NumField typ = Some (Z.of_nat (length (type_fields typ))).
Proof. intros Hk. unfold NumField. by rewrite decide_True. Qed.

Lemma Field_NumField typ fi (f : StructField Ty) :
  Field typ fi = Some f ->
  exists n, NumField typ = Some n /\ 0 <= fi < n.
Proof.
  intros Hf. pose proof (Field_Struct _ _ _ Hf) as Hk.
  exists (Z.of_nat (length (type_fields typ))). split; [by apply NumField_Struct |].
  unfold Field in Hf. rewrite decide_True in Hf by done.
  destruct (decide (0 <= fi)); [| done].
  apply lookup_lt_Some in Hf. lia.
Qed.

Lemma parseTokens_defined typ fi (f : StructField Ty) toks ts :
  type_Kind typ = Struct ->
  exists ts' e, parseTokens typ fi f toks ts = Some (ts', e).
Proof.
  intros Hk. revert ts. induction toks as [| t toks IH]; intros ts; simpl.
  - eauto.
  - repeat (destruct (String.eqb _ _); [apply IH |]).
    destruct (String.eqb _ _); [| eauto].
    unfold NumField. rewrite decide_True by done.
    destruct (negb _); [eauto |]. destruct (negb _); [eauto | apply IH].
Qed.

Lemma parseStructTag_defined typ i (f : StructField Ty) :
  Field typ i = Some f ->
  exists ts e, parseStructTag typ i = Some (ts, e).
Proof.
  intros Hf. unfold parseStructTag. rewrite Hf.
  apply parseTokens_defined. by eapply Field_Struct.
Qed.




(** C10. A field without an rlp tag: the empty string splits into one
    empty token, the parser skips it, and the result is the zero value
    of the tags and no error. *)
Theorem parseStructTag_without_tag typ fi (f : StructField Ty) :
  Field typ fi = Some f ->
  Tag_rlp f = "" ->
  Strings.Split (Tag_rlp f) "," = [""]
  /\ parseStructTag typ fi = Some (mkTags false false false, None).
Proof.
  intros Hf Htag. unfold parseStructTag. rewrite Hf, Htag. by split.
Qed.


End ParserProperties.

Lemma parseStructTag_without_tag_witness :
  Strings.Split (Tag_rlp (Sample.exported "X" Sample.Uint64T "")) "," = [""]
  /\ parseStructTag Sample.Simple 0 = Some (mkTags false false false, None).
Proof.
  apply (parseStructTag_without_tag Sample.Simple 0
           (Sample.exported "X" Sample.Uint64T "")); reflexivity.
Defined.



(** ** What a call leaves behind *)

Section Frame.
Context `{ReflectType Ty} {decoder writer : Type}.
Variable makeDecoder : Ty -> tags -> gen Ty decoder.
Variable makeWriter : Ty -> tags -> gen Ty writer.
Local Abbreviation State := (State Ty decoder writer).
Local Abbreviation M := (@M Ty _ _ decoder writer).

Lemma extends_alloc (st : State) :
  extends st (mkState (typeCache st) (heap st ++ [typeinfo_zero])%list (generated st)).
Proof.
  split; simpl; [done | by apply prefix_app_r | done | done |].
  intros key Hnone [p Hp]. congruence.
Qed.

Lemma extends_store (base st : State) p (v : typeinfo decoder writer) :
  extends base st -> (length (heap base) <= p)%nat ->
  extends base (mkState (typeCache st) (<[p := v]> (heap st)) (generated st)).
Proof.
  intros [c [tl h] g pr nw] Hp. split; simpl; [done | | done | done | done].
  rewrite h, insert_app_r_alt by done. by apply prefix_app_r.
Qed.

(** The first steps of a miss: the dummy value is in the cache and the
    call of [genTypeInfo] is noted. *)
Lemma extends_install (st : State) key :
  typeCache st !! key = None ->
  extends st (mkState (<[key := length (heap st)]> (typeCache st))
                      (heap st ++ [typeinfo_zero])%list
                      (generated st ++ [key])%list).
Proof.
  intros Hk. split; simpl.
  - by apply insert_subseteq.
  - by apply prefix_app_r.
  - by apply prefix_app_r.
  - intros key' [p Hp]. unfold generations. simpl.
    rewrite generations_app. destruct (decide (key = key')); [congruence | lia].
  - intros key' Hnone [p Hp]. unfold generations. simpl.
    rewrite generations_app. destruct (decide (key = key')); [lia |].
    rewrite lookup_insert_ne in Hp by done. congruence.
Qed.

Lemma extends_delete (base st : State) key :
  typeCache base !! key = None -> extends base st ->
  extends base (mkState (delete key (typeCache st)) (heap st) (generated st)).
Proof.
  intros Hk [c h g pr nw]. split; simpl; [| done | done | done |].
  - apply map_subseteq_spec. intros k p Hp.
    rewrite lookup_delete_ne by congruence. by eapply lookup_weaken.
  - intros key' Hnone [p Hp]. apply nw; [done |].
    apply lookup_delete_Some in Hp as [_ Hp]. by eexists.
Qed.

Section Calls.
Variable rec : Ty -> tags -> M (result Ty ptr).
Hypothesis rec_extends : forall typ ts (st : State) r st',
  rec typ ts st = Returns r st' -> extends st st'.

Lemma structFields_loop_extends typ todo acc (st : State) r st' :
  structFields_loop rec typ todo acc st = Returns r st' -> extends st st'.
Proof.
  revert acc st. induction todo as [| i todo IH]; intros acc st Hrun; simpl in Hrun.
  - step_in Hrun. apply extends_refl.
  - destruct (Field typ (Z.of_nat i)) as [f |]; [| discriminate].
    destruct (String.eqb (PkgPath f) ""); [| by eapply IH].
    destruct (parseStructTag typ (Z.of_nat i)) as [[ts [err |]] |];
      [| | discriminate].
    + step_in Hrun. apply extends_refl.
    + destruct (ignored ts); [by eapply IH |].
      step_in Hrun. apply rec_extends in E.
      destruct a as [p | err].
      * eapply extends_trans; [exact E |]. by eapply IH.
      * by step_in Hrun.
Qed.

Lemma structFields_extends typ (st : State) r st' :
  structFields rec typ st = Returns r st' -> extends st st'.
Proof.
  unfold structFields. destruct (NumField typ); [| discriminate].
  apply structFields_loop_extends.
Qed.

Lemma run_gen_extends {A} (g : gen Ty A) (st : State) r st' :
  run_gen rec g st = Returns r st' -> extends st st'.
Proof.
  revert st. induction g as [a | err | typ ts k IH | typ k IH];
    intros st Hrun; simpl in Hrun.
  - step_in Hrun. apply extends_refl.
  - step_in Hrun. apply extends_refl.
  - step_in Hrun. apply rec_extends in E.
    eapply extends_trans; [exact E |]. by eapply IH.
  - step_in Hrun. apply structFields_extends in E.
    eapply extends_trans; [exact E |]. by eapply IH.
Qed.

(** [genTypeInfo], from the state in which its call is noted. *)
Lemma genTypeInfo_Returns typ ts (st : State) r st' :
  genTypeInfo makeDecoder makeWriter rec typ ts st = Returns r st' ->
  extends (mkState (typeCache st) (heap st) (generated st ++ [mkKey typ ts])%list) st'
  /\ forall info, r = Ok info ->
       info = length (heap st)
       /\ exists d w, heap st' !! info = Some (mkTypeinfo (Some d) (Some w)).
Proof.
  unfold genTypeInfo. intros Hrun.
  rewrite bind_note_generation, bind_new_typeinfo in Hrun. simpl in Hrun.
  set (base := mkState (typeCache st) (heap st) (generated st ++ [mkKey typ ts])%list).
  set (s1 := mkState _ _ _) in Hrun.
  assert (E1 : extends base s1) by apply (extends_alloc base).
  assert (L1 : heap s1 !! length (heap st) = Some typeinfo_zero).
  { simpl. by rewrite lookup_app_r, Nat.sub_diag. }
  step_in Hrun. rename s into s2. apply run_gen_extends in E.
  destruct a as [dec | err]; [| step_in Hrun; split; [by eapply extends_trans | done]].
  pose proof (extends_load _ _ _ _ E L1) as L2.
  rewrite (bind_load _ _ _ _ L2), (bind_store _ _ _ _ _ L2) in Hrun.
  simpl in Hrun. set (s3 := mkState _ _ _) in Hrun.
  assert (E3 : extends base s3).
  { apply extends_store; [by eapply extends_trans | done]. }
  assert (L3 : heap s3 !! length (heap st) = Some (mkTypeinfo (Some dec) None)).
  { simpl. apply list_lookup_insert_eq. by eapply lookup_lt_Some. }
  step_in Hrun. rename s into s4. apply run_gen_extends in E0.
  destruct a as [wr | err]; [| step_in Hrun; split; [by eapply extends_trans | done]].
  pose proof (extends_load _ _ _ _ E0 L3) as L4.
  rewrite (bind_load _ _ _ _ L4), (bind_store _ _ _ _ _ L4) in Hrun.
  simpl in Hrun. step_in Hrun. split.
  - apply extends_store; [by eapply extends_trans | done].
  - intros info [= <-]. split; [done |]. exists dec, wr. simpl.
    apply list_lookup_insert_eq. by eapply lookup_lt_Some.
Qed.

(** [cachedTypeInfo1]: a hit changes nothing; a miss generates once, and
    leaves the entry complete under the pointer of the dummy value, or
    no entry at all. *)
Lemma cachedTypeInfo1_body_Returns typ ts (st : State) r st' :
  cachedTypeInfo1_body makeDecoder makeWriter rec typ ts st = Returns r st' ->
  match typeCache st !! mkKey typ ts with
  | Some p => r = Ok p /\ st' = st
  | None =>
      extends st st'
      /\ generations (mkKey typ ts) st' = S (generations (mkKey typ ts) st)
      /\ match r with
         | Ok p =>
             p = length (heap st)
             /\ typeCache st' !! mkKey typ ts = Some p
             /\ exists d w, heap st' !! p = Some (mkTypeinfo (Some d) (Some w))
         | Failed _ => typeCache st' !! mkKey typ ts = None
         end
  end.
Proof.
  unfold cachedTypeInfo1_body. intros Hrun.
  rewrite bind_cache_get in Hrun.
  destruct (typeCache st !! mkKey typ ts) as [p |] eqn:Hkey.
  { by step_in Hrun. }
  rewrite bind_new_typeinfo, bind_cache_put in Hrun. simpl in Hrun.
  step_in Hrun. rename s into s2.
  apply genTypeInfo_Returns in E as [E Hinfo]. simpl in E, Hinfo.
  set (s1n := mkState _ _ _) in E.
  assert (E1 : extends st s1n) by (by apply extends_install).
  assert (K1 : typeCache s1n !! mkKey typ ts = Some (length (heap st))).
  { simpl. apply lookup_insert_eq. }
  pose proof (extends_lookup _ _ _ _ E K1) as K2.
  assert (G2 : generations (mkKey typ ts) s2 = S (generations (mkKey typ ts) st)).
  { rewrite (extends_present _ _ E) by (by eexists).
    unfold generations. simpl. rewrite generations_app.
    rewrite decide_True by done. lia. }
  assert (is_Some (heap s2 !! length (heap st))) as [v0 Hv0].
  { apply lookup_lt_is_Some. destruct E as [_ h _ _ _]. simpl in h.
    apply prefix_length in h. rewrite length_app in h. simpl in h. lia. }
  destruct a as [info | err].
  - destruct (Hinfo info eq_refl) as (-> & d & w & Hv).
    rewrite bind_cache_get, K2 in Hrun.
    rewrite (bind_load _ _ _ _ Hv), (bind_store _ _ _ _ _ Hv0) in Hrun.
    step_in Hrun. simpl. split; [| split; [exact G2 |]].
    + apply extends_store; [by eapply extends_trans | done].
    + split; [done |]. split; [exact K2 |]. exists d, w.
      apply list_lookup_insert_eq. by eapply lookup_lt_Some.
  - rewrite bind_cache_delete in Hrun. step_in Hrun. simpl.
    split; [| split; [exact G2 |]].
    + apply extends_delete; [done | by eapply extends_trans].
    + apply lookup_delete_eq.
Qed.

End Calls.
End Frame.

(** ** The recursion, closed *)

Section Whole.
Context `{ReflectType Ty} {decoder writer : Type}.
Variable makeDecoder : Ty -> tags -> gen Ty decoder.
Variable makeWriter : Ty -> tags -> gen Ty writer.
Local Abbreviation State := (State Ty decoder writer).
Local Abbreviation M := (@M Ty _ _ decoder writer).
Local Abbreviation cachedTypeInfo1 := (cachedTypeInfo1 makeDecoder makeWriter).
Local Abbreviation cachedTypeInfo := (cachedTypeInfo makeDecoder makeWriter).

Lemma cachedTypeInfo1_extends fuel typ ts (st : State) r st' :
  cachedTypeInfo1 fuel typ ts st = Returns r st' -> extends st st'.
Proof.
  revert typ ts st r st'. induction fuel as [| fuel IH]; intros typ ts st r st' Hrun.
  - discriminate.
  - simpl in Hrun. apply cachedTypeInfo1_body_Returns in Hrun; [| exact IH].
    destruct (typeCache st !! mkKey typ ts).
    + destruct Hrun as [_ ->]. apply extends_refl.
    + tauto.
Qed.

Lemma cachedTypeInfo1_Returns fuel typ ts (st : State) r st' :
  cachedTypeInfo1 fuel typ ts st = Returns r st' ->
  match typeCache st !! mkKey typ ts with
  | Some p => r = Ok p /\ st' = st
  | None =>
      extends st st'
      /\ generations (mkKey typ ts) st' = S (generations (mkKey typ ts) st)
      /\ match r with
         | Ok p =>
             p = length (heap st)
             /\ typeCache st' !! mkKey typ ts = Some p
             /\ exists d w, heap st' !! p = Some (mkTypeinfo (Some d) (Some w))
         | Failed _ => typeCache st' !! mkKey typ ts = None
         end
  end.
Proof.
  destruct fuel as [| fuel]; [discriminate |]. simpl.
  apply cachedTypeInfo1_body_Returns. apply cachedTypeInfo1_extends.
Qed.

Lemma cachedTypeInfo1_hit fuel typ ts (st : State) p :
  typeCache st !! mkKey typ ts = Some p ->
  cachedTypeInfo1 (S fuel) typ ts st = Returns (Ok p) st.
Proof.
  intros Hp. simpl. unfold cachedTypeInfo1_body.
  by rewrite bind_cache_get, Hp.
Qed.

Lemma cachedTypeInfo_unfold fuel typ ts (st : State) :
  cachedTypeInfo fuel typ ts st
  = match typeCache st !! mkKey typ ts with
    | Some p => Returns (Ok p) st
    | None => cachedTypeInfo1 fuel typ ts st
    end.
Proof.
  unfold cachedTypeInfo. rewrite bind_cache_get.
  by destruct (typeCache st !! mkKey typ ts).
Qed.

Lemma cachedTypeInfo_Returns fuel typ ts (st : State) r st' :
  cachedTypeInfo fuel typ ts st = Returns r st' ->
  match typeCache st !! mkKey typ ts with
  | Some p => r = Ok p /\ st' = st
  | None =>
      extends st st'
      /\ generations (mkKey typ ts) st' = S (generations (mkKey typ ts) st)
      /\ match r with
         | Ok p =>
             p = length (heap st)
             /\ typeCache st' !! mkKey typ ts = Some p
             /\ exists d w, heap st' !! p = Some (mkTypeinfo (Some d) (Some w))
         | Failed _ => typeCache st' !! mkKey typ ts = None
         end
  end.
Proof.
  rewrite cachedTypeInfo_unfold. intros Hrun.
  pose proof (cachedTypeInfo1_Returns fuel typ ts st r st') as Hmiss.
  destruct (typeCache st !! mkKey typ ts).
  - by injection Hrun as <- <-.
  - by apply Hmiss.
Qed.

Lemma cachedTypeInfo_extends fuel typ ts (st : State) r st' :
  cachedTypeInfo fuel typ ts st = Returns r st' -> extends st st'.
Proof.
  intros Hrun. apply cachedTypeInfo_Returns in Hrun.
  destruct (typeCache st !! mkKey typ ts).
  - destruct Hrun as [_ ->]. apply extends_refl.
  - tauto.
Qed.

(** More budget changes nothing once a call has returned. *)
Section Monotone.
Variables rec1 rec2 : Ty -> tags -> M (result Ty ptr).
Hypothesis rec_le : forall typ ts (st : State) r st',
  rec1 typ ts st = Returns r st' -> rec2 typ ts st = Returns r st'.

Lemma structFields_loop_le typ todo acc (st : State) r st' :
  structFields_loop rec1 typ todo acc st = Returns r st' ->
  structFields_loop rec2 typ todo acc st = Returns r st'.
Proof.
  revert acc st. induction todo as [| i todo IH]; intros acc st Hrun;
    simpl in *; [done |].
  destruct (Field typ (Z.of_nat i)) as [f |]; [| done].
  destruct (String.eqb (PkgPath f) ""); [| by apply IH].
  destruct (parseStructTag typ (Z.of_nat i)) as [[ts [err |]] |]; [done | | done].
  destruct (ignored ts); [by apply IH |].
  step_in Hrun. apply rec_le in E. unfold bind. rewrite E.
  destruct a; [by apply IH | done].
Qed.

Lemma structFields_le typ (st : State) r st' :
  structFields rec1 typ st = Returns r st' ->
  structFields rec2 typ st = Returns r st'.
Proof.
  unfold structFields. destruct (NumField typ); [| done].
  apply structFields_loop_le.
Qed.

Lemma run_gen_le {A} (g : gen Ty A) (st : State) r st' :
  run_gen rec1 g st = Returns r st' -> run_gen rec2 g st = Returns r st'.
Proof.
  revert st. induction g as [a | err | typ ts k IH | typ k IH];
    intros st Hrun; simpl in *; [done | done | |].
  - step_in Hrun. apply rec_le in E. unfold bind. rewrite E. by apply IH.
  - step_in Hrun. apply structFields_le in E. unfold bind. rewrite E.
    by apply IH.
Qed.

Lemma genTypeInfo_le typ ts (st : State) r st' :
  genTypeInfo makeDecoder makeWriter rec1 typ ts st = Returns r st' ->
  genTypeInfo makeDecoder makeWriter rec2 typ ts st = Returns r st'.
Proof.
  revert st r st'. unfold genTypeInfo.
  apply bind_le; [done | intros _].
  apply bind_le; [done | intros info].
  apply bind_le; [intros *; apply run_gen_le | intros [dec | err]; [| done]].
  apply bind_le; [done | intros v].
  apply bind_le; [done | intros _].
  apply bind_le; [intros *; apply run_gen_le | done].
Qed.

Lemma cachedTypeInfo1_body_le typ ts (st : State) r st' :
  cachedTypeInfo1_body makeDecoder makeWriter rec1 typ ts st = Returns r st' ->
  cachedTypeInfo1_body makeDecoder makeWriter rec2 typ ts st = Returns r st'.
Proof.
  revert st r st'. unfold cachedTypeInfo1_body.
  apply bind_le; [done | intros [p |]; [done |]].
  apply bind_le; [done | intros dummy].
  apply bind_le; [done | intros _].
  apply bind_le; [intros *; apply genTypeInfo_le | done].
Qed.
End Monotone.

Lemma cachedTypeInfo1_fuel_le fuel fuel' typ ts (st : State) r st' :
  (fuel <= fuel')%nat ->
  cachedTypeInfo1 fuel typ ts st = Returns r st' ->
  cachedTypeInfo1 fuel' typ ts st = Returns r st'.
Proof.
  revert fuel' typ ts st r st'.
  induction fuel as [| fuel IH]; intros fuel' typ ts st r st' Hle Hrun;
    [discriminate |].
  destruct fuel' as [| fuel']; [lia |]. simpl in *.
  eapply cachedTypeInfo1_body_le; [| exact Hrun].
  intros. eapply IH; [lia | done].
Qed.

End Whole.

(** ** Every call returns *)

Lemma length_filter_impl {A} (P Q : A -> Prop)
    `{forall x, Decision (P x)} `{forall x, Decision (Q x)} (l : list A) :
  (forall x, P x -> Q x) ->
  (length (filter P l) <= length (filter Q l))%nat.
Proof.
  intros HPQ. induction l as [| x l IH]; [done |].
  rewrite !filter_cons.
  destruct (decide (P x)) as [HP | HP].
  - rewrite decide_True by auto. simpl. lia.
  - destruct (decide (Q x)); simpl; lia.
Qed.

Lemma length_filter_impl_lt {A} (P Q : A -> Prop)
    `{forall x, Decision (P x)} `{forall x, Decision (Q x)} (l : list A) x :
  (forall y, P y -> Q y) -> x ∈ l -> Q x -> ~ P x ->
  (length (filter P l) < length (filter Q l))%nat.
Proof.
  intros HPQ Hx HQ HP. induction l as [| y l IH]; [by apply elem_of_nil in Hx |].
  rewrite !filter_cons. apply elem_of_cons in Hx as [<- | Hx].
  - rewrite decide_False, decide_True by done. simpl.
    pose proof (length_filter_impl P Q l HPQ). lia.
  - specialize (IH Hx). destruct (decide (P y)) as [HPy | HPy].
    + rewrite decide_True by auto. simpl. lia.
    + destruct (decide (Q y)); simpl; lia.
Qed.

Section Total.
Context `{ReflectType Ty} `{!Finite Ty} {decoder writer : Type}.
Variable makeDecoder : Ty -> tags -> gen Ty decoder.
Variable makeWriter : Ty -> tags -> gen Ty writer.
Local Abbreviation State := (State Ty decoder writer).
Local Abbreviation M := (@M Ty _ _ decoder writer).
Local Abbreviation cachedTypeInfo1 := (cachedTypeInfo1 makeDecoder makeWriter).
Local Abbreviation cachedTypeInfo := (cachedTypeInfo makeDecoder makeWriter).

Hypothesis makeDecoder_ok : forall typ ts, structs_only (makeDecoder typ ts).
Hypothesis makeWriter_ok : forall typ ts, structs_only (makeWriter typ ts).

Lemma elem_of_all_keys (key : typekey Ty) : key ∈ all_keys.
Proof.
  destruct key as [typ ts]. unfold all_keys.
  apply list_elem_of_In, in_concat. exists (map (mkKey typ) all_tags). split.
  - apply (in_map (fun typ => map (mkKey typ) all_tags)), list_elem_of_In,
      elem_of_enum.
  - apply in_map. destruct ts as [[] [] []]; simpl; tauto.
Qed.

Lemma missing_le_budget (st : State) : (missing st < budget Ty)%nat.
Proof.
  unfold missing, budget.
  pose proof (length_filter (fun key => typeCache st !! key = None) all_keys).
  lia.
Qed.

Lemma missing_extends (st st' : State) :
  extends st st' -> (missing st' <= missing st)%nat.
Proof.
  intros [c _ _ _ _]. unfold missing. apply length_filter_impl.
  intros key Hnone. destruct (typeCache st !! key) as [p |] eqn:Hp; [| done].
  by rewrite (lookup_weaken _ _ _ _ Hp c) in Hnone.
Qed.

Lemma missing_put (st : State) key p (h : list (typeinfo decoder writer)) g :
  typeCache st !! key = None ->
  (missing (mkState (<[key := p]> (typeCache st)) h g) < missing st)%nat.
Proof.
  intros Hk. unfold missing. simpl.
  apply (length_filter_impl_lt _ _ _ key).
  - intros k Hnone. apply lookup_insert_None in Hnone. tauto.
  - apply elem_of_all_keys.
  - done.
  - by rewrite lookup_insert_eq.
Qed.

Section Calls.
Variable rec : Ty -> tags -> M (result Ty ptr).
Variable bound : nat.
Hypothesis rec_extends : forall typ ts (st : State) r st',
  rec typ ts st = Returns r st' -> extends st st'.
Hypothesis rec_total : forall typ ts (st : State),
  (missing st < bound)%nat -> exists r st', rec typ ts st = Returns r st'.

Lemma structFields_loop_total typ todo acc (st : State) :
  type_Kind typ = Struct ->
  Forall (fun i => (i < length (type_fields typ))%nat) todo ->
  (missing st < bound)%nat ->
  exists r st', structFields_loop rec typ todo acc st = Returns r st'.
Proof.
  intros Hk Htodo. revert acc st.
  induction Htodo as [| i todo Hi Htodo IH]; intros acc st Hst; simpl.
  - eauto.
  - destruct (Field typ (Z.of_nat i)) as [f |] eqn:Hf.
    2:{ unfold Field in Hf. rewrite decide_True, decide_True in Hf by (done || lia).
        rewrite Nat2Z.id in Hf. apply lookup_ge_None in Hf. lia. }
    destruct (String.eqb (PkgPath f) ""); [| by apply IH].
    destruct (parseStructTag_defined _ _ _ Hf) as (ts & e & ->).
    destruct e as [err |]; [eauto |].
    destruct (ignored ts); [by apply IH |].
    destruct (rec_total (Typ f) ts st Hst) as (r & st1 & Hr).
    unfold bind. rewrite Hr. destruct r as [p | err]; [| eauto].
    apply IH. apply rec_extends, missing_extends in Hr. lia.
Qed.

Lemma structFields_total typ (st : State) :
  type_Kind typ = Struct -> (missing st < bound)%nat ->
  exists r st', structFields rec typ st = Returns r st'.
Proof.
  intros Hk Hst. unfold structFields, NumField. rewrite decide_True by done.
  apply structFields_loop_total; [done | | done].
  rewrite Nat2Z.id. apply Forall_forall. intros i Hi.
  apply elem_of_seq in Hi. lia.
Qed.

Lemma run_gen_total {A} (g : gen Ty A) (st : State) :
  structs_only g -> (missing st < bound)%nat ->
  exists r st', run_gen rec g st = Returns r st'.
Proof.
  intros Hg. revert st.
  induction Hg as [a | err | typ ts k Hk IH | typ k Hs Hk IH]; intros st Hst; simpl.
  - eauto.
  - eauto.
  - destruct (rec_total typ ts st Hst) as (r & st1 & Hr).
    unfold bind. rewrite Hr. apply IH.
    apply rec_extends, missing_extends in Hr. lia.
  - destruct (structFields_total typ st Hs Hst) as (r & st1 & Hr).
    unfold bind. rewrite Hr. apply IH.
    apply structFields_extends, missing_extends in Hr; [lia | done].
Qed.

Lemma genTypeInfo_total typ ts (st : State) :
  (missing st < bound)%nat ->
  exists r st', genTypeInfo makeDecoder makeWriter rec typ ts st = Returns r st'.
Proof.
  intros Hst. unfold genTypeInfo.
  rewrite bind_note_generation, bind_new_typeinfo. simpl.
  set (s1 := mkState _ _ _).
  assert (L1 : heap s1 !! length (heap st) = Some typeinfo_zero).
  { simpl. by rewrite lookup_app_r, Nat.sub_diag. }
  destruct (run_gen_total (makeDecoder typ ts) s1 (makeDecoder_ok typ ts) Hst)
    as (d & s2 & Hd).
  unfold bind at 1. rewrite Hd. destruct d as [dec | err]; [| by eexists _, _].
  pose proof (run_gen_extends _ rec_extends _ _ _ _ Hd) as E.
  pose proof (extends_load _ _ _ _ E L1) as L2.
  rewrite (bind_load _ _ _ _ L2), (bind_store _ _ _ _ _ L2). simpl.
  set (s3 := mkState _ _ _).
  assert (L3 : heap s3 !! length (heap st) = Some (mkTypeinfo (Some dec) None)).
  { simpl. apply list_lookup_insert_eq. by eapply lookup_lt_Some. }
  assert (Hs3 : (missing s3 < bound)%nat).
  { apply missing_extends in E. unfold missing in *. simpl in *. lia. }
  destruct (run_gen_total (makeWriter typ ts) s3 (makeWriter_ok typ ts) Hs3)
    as (w & s4 & Hw).
  unfold bind at 1. rewrite Hw. destruct w as [wr | err]; [| by eexists _, _].
  pose proof (run_gen_extends _ rec_extends _ _ _ _ Hw) as E'.
  pose proof (extends_load _ _ _ _ E' L3) as L4.
  rewrite (bind_load _ _ _ _ L4), (bind_store _ _ _ _ _ L4). by eexists _, _.
Qed.

Lemma cachedTypeInfo1_body_total typ ts (st : State) :
  (missing st < S bound)%nat ->
  exists r st',
    cachedTypeInfo1_body makeDecoder makeWriter rec typ ts st = Returns r st'.
Proof.
  intros Hst.
  destruct (cachedTypeInfo1_body makeDecoder makeWriter rec typ ts st)
    as [r st' | |] eqn:Hrun; [by eexists _, _ | exfalso | exfalso];
    revert Hrun; unfold cachedTypeInfo1_body; rewrite bind_cache_get;
    (destruct (typeCache st !! mkKey typ ts) as [p |] eqn:Hkey; [done |]);
    rewrite bind_new_typeinfo, bind_cache_put; simpl;
    set (s1 := mkState _ _ _);
    (assert (Hs1 : (missing s1 < bound)%nat)
      by (pose proof (missing_put st (mkKey typ ts) (length (heap st))
                        (heap st ++ [typeinfo_zero])%list (generated st) Hkey);
          unfold s1; lia));
    destruct (genTypeInfo_total typ ts s1 Hs1) as (r & s2 & Hr);
    unfold bind at 1; rewrite Hr;
    apply (genTypeInfo_Returns _ _ _ rec_extends) in Hr as [E Hinfo];
    (destruct r as [info | err]; [| done]);
    destruct (Hinfo info eq_refl) as (-> & d & w & Hv);
    rewrite bind_cache_get;
    rewrite (extends_lookup _ _ (mkKey typ ts) (length (heap st)) E)
      by apply lookup_insert_eq;
    rewrite (bind_load _ _ _ _ Hv);
    (assert (is_Some (heap s2 !! length (heap st))) as [v0 Hv0]
      by (apply lookup_lt_is_Some; destruct E as [_ h _ _ _]; simpl in h;
          apply prefix_length in h; rewrite length_app in h; simpl in h; lia));
    rewrite (bind_store _ _ _ _ _ Hv0); done.
Qed.

End Calls.

Lemma cachedTypeInfo1_total fuel typ ts (st : State) :
  (missing st < fuel)%nat ->
  exists r st', cachedTypeInfo1 fuel typ ts st = Returns r st'.
Proof.
  revert typ ts st. induction fuel as [| fuel IH]; intros typ ts st Hst; [lia |].
  simpl. apply (cachedTypeInfo1_body_total _ fuel); [| done | done].
  apply cachedTypeInfo1_extends.
Qed.

Lemma cachedTypeInfo_total typ ts (st : State) :
  exists r st', cachedTypeInfo (budget Ty) typ ts st = Returns r st'.
Proof.
  rewrite cachedTypeInfo_unfold. destruct (typeCache st !! mkKey typ ts).
  - by eexists _, _.
  - apply cachedTypeInfo1_total, missing_le_budget.
Qed.

End Total.

(** ** The field enumerator *)

Section EnumeratorProperties.
Context `{ReflectType Ty} {decoder writer : Type}.
Local Abbreviation State := (State Ty decoder writer).
Local Abbreviation M := (@M Ty _ _ decoder writer).
Variable rec : Ty -> tags -> M (result Ty ptr).

(** A malformed tag on an exported field makes the enumerator fail. *)
Lemma structFields_loop_parse_error typ todo acc (st : State) r st' i f ts err :
  i ∈ todo ->
  Field typ (Z.of_nat i) = Some f -> PkgPath f = "" ->
  parseStructTag typ (Z.of_nat i) = Some (ts, Some err) ->
  structFields_loop rec typ todo acc st = Returns r st' ->
  exists err', r = Failed err'.
Proof.
  intros Hin Hf Hexp Hparse. revert acc st.
  induction todo as [| j todo IH]; intros acc st Hrun;
    [by apply elem_of_nil in Hin |].
  simpl in Hrun. destruct (decide (j = i)) as [-> | Hne].
  - rewrite Hf, Hexp, Hparse in Hrun. simpl in Hrun. step_in Hrun. eauto.
  - apply elem_of_cons in Hin as [-> | Hin]; [done |].
    destruct (Field typ (Z.of_nat j)) as [fj |]; [| done].
    destruct (String.eqb (PkgPath fj) ""); [| by eapply IH].
    destruct (parseStructTag typ (Z.of_nat j)) as [[tsj [errj |]] |];
      [step_in Hrun; eauto | | done].
    destruct (ignored tsj); [by eapply IH |].
    step_in Hrun. destruct a; [by eapply IH | step_in Hrun; eauto].
Qed.

Lemma structFields_parse_error typ (st : State) r st' i f ts err :
  Field typ (Z.of_nat i) = Some f -> PkgPath f = "" ->
  parseStructTag typ (Z.of_nat i) = Some (ts, Some err) ->
  structFields rec typ st = Returns r st' ->
  exists err', r = Failed err'.
Proof.
  intros Hf Hexp Hparse. unfold structFields.
  destruct (Field_NumField _ _ _ Hf) as (n & -> & Hi).
  apply structFields_loop_parse_error with (i := i) (f := f) (ts := ts) (err := err);
    try done.
  apply elem_of_seq. lia.
Qed.

(** The loop of [structFields] walks the fields as the specification
    says. *)
Lemma structFields_loop_spec typ k fs acc (st : State) :
  type_Kind typ = Struct ->
  drop k (type_fields typ) = fs ->
  structFields_loop rec typ (seq k (length fs)) acc st
  = enumerate_from rec typ k fs acc st.
Proof.
  intros Hk. revert k acc st. induction fs as [| f fs IH]; intros k acc st Hdrop;
    simpl; [done |].
  assert (Hf : Field typ (Z.of_nat k) = Some f).
  { unfold Field. rewrite decide_True, decide_True by (done || lia).
    pose proof (lookup_drop (type_fields typ) k 0) as Hl.
    rewrite Hdrop, Nat.add_0_r in Hl. by rewrite Nat2Z.id, <- Hl. }
  assert (Hrest : drop (S k) (type_fields typ) = fs).
  { pose proof (drop_drop (type_fields typ) 1 k) as Hd.
    rewrite Hdrop, Nat.add_1_r in Hd. by rewrite <- Hd. }
  rewrite Hf. destruct (String.eqb_spec (PkgPath f) "") as [Hexp | Hexp].
  - rewrite bool_decide_true by done.
    destruct (parseStructTag typ (Z.of_nat k)) as [[ts [err |]] |]; [done | | done].
    destruct (ignored ts); [by apply IH |].
    unfold bind. destruct (rec (Typ f) ts st) as [[p | err] st1 | |]; try done.
    by apply IH.
  - rewrite bool_decide_false by done. by apply IH.
Qed.

(** The descriptors are those of the retained fields, in their order. *)
Lemma structFields_loop_indices typ todo acc (st : State) fields st' :
  structFields_loop rec typ todo acc st = Returns (Ok fields) st' ->
  map index fields
  = (map index acc ++ map Z.of_nat (filter (fun i => retained typ i) todo))%list.
Proof.
  revert acc st. induction todo as [| i todo IH]; intros acc st Hrun;
    simpl in Hrun.
  - step_in Hrun. simpl. by rewrite app_nil_r.
  - rewrite filter_cons.
    destruct (decide (retained typ i)) as [Hret | Hret];
      unfold retained in Hret;
      destruct (Field typ (Z.of_nat i)) as [f |]; try done;
      destruct (parseStructTag typ (Z.of_nat i)) as [[ts [err |]] |];
      destruct (String.eqb_spec (PkgPath f) "") as [Hexp | Hexp];
      try done; try (by step_in Hrun); try (by eapply IH);
      try rewrite (bool_decide_true _ Hexp) in Hret;
      try rewrite (bool_decide_false _ Hexp) in Hret;
      destruct (ignored ts); try done; try (by eapply IH).
    step_in Hrun. destruct a as [p | err]; [| by step_in Hrun].
    apply IH in Hrun. rewrite Hrun, map_app. simpl.
    by rewrite <- app_assoc.
Qed.

Hypothesis rec_extends : forall typ ts (st : State) r st',
  rec typ ts st = Returns r st' -> extends st st'.
Hypothesis rec_cached : forall typ ts (st : State) p st',
  rec typ ts st = Returns (Ok p) st' ->
  typeCache st' !! mkKey typ ts = Some p.

(** Each descriptor holds the cache entry of the key of its field. *)
Lemma structFields_loop_cached typ todo acc (st : State) fields st' :
  structFields_loop rec typ todo acc st = Returns (Ok fields) st' ->
  (forall fd, fd ∈ acc ->
     exists i f ts, index fd = Z.of_nat i
       /\ Field typ (Z.of_nat i) = Some f
       /\ parseStructTag typ (Z.of_nat i) = Some (ts, None)
       /\ typeCache st !! mkKey (Typ f) ts = Some (info fd)) ->
  forall fd, fd ∈ fields ->
    exists i f ts, index fd = Z.of_nat i
      /\ Field typ (Z.of_nat i) = Some f
      /\ parseStructTag typ (Z.of_nat i) = Some (ts, None)
      /\ typeCache st' !! mkKey (Typ f) ts = Some (info fd).
Proof.
  revert acc st. induction todo as [| i todo IH]; intros acc st Hrun Hacc;
    simpl in Hrun.
  - by step_in Hrun.
  - destruct (Field typ (Z.of_nat i)) as [f |] eqn:Hf; [| done].
    destruct (String.eqb (PkgPath f) ""); [| by eapply IH].
    destruct (parseStructTag typ (Z.of_nat i)) as [[ts [err |]] |] eqn:Hparse;
      [by step_in Hrun | | done].
    destruct (ignored ts); [by eapply IH |].
    step_in Hrun. destruct a as [p | err]; [| by step_in Hrun].
    eapply IH; [exact Hrun |].
    intros fd Hfd. apply elem_of_app in Hfd as [Hfd | Hfd].
    + destruct (Hacc fd Hfd) as (j & fj & tsj & ? & ? & ? & Hc).
      exists j, fj, tsj. repeat split; try done.
      eapply extends_lookup; [by eapply rec_extends | done].
    + apply list_elem_of_singleton in Hfd as ->. simpl.
      exists i, f, ts. repeat split; try done. by eapply rec_cached.
Qed.

End EnumeratorProperties.

(** ** A miss, step by step *)

Section Trace.
Context `{ReflectType Ty} {decoder writer : Type}.
Variable makeDecoder : Ty -> tags -> gen Ty decoder.
Variable makeWriter : Ty -> tags -> gen Ty writer.
Local Abbreviation State := (State Ty decoder writer).
Local Abbreviation M := (@M Ty _ _ decoder writer).

Lemma extends_object_set (base st : State) p (v : typeinfo decoder writer) :
  extends base st -> (length (heap base) <= p)%nat ->
  extends base (object_set p v st).
Proof. apply extends_store. Qed.

Section Calls.
Variable rec : Ty -> tags -> M (result Ty ptr).
Hypothesis rec_extends : forall typ ts (st : State) r st',
  rec typ ts st = Returns r st' -> extends st st'.

(** [genTypeInfo] is the run of the decoder generator, then of the
    writer generator, each result stored into [info] as it comes. *)
Lemma genTypeInfo_run typ ts (st : State) :
  genTypeInfo makeDecoder makeWriter rec typ ts st
  = match run_gen rec (makeDecoder typ ts) (generation_started typ ts st) with
    | Returns (Ok d) s1 =>
        match run_gen rec (makeWriter typ ts)
                (object_set (length (heap st)) (mkTypeinfo (Some d) None) s1) with
        | Returns (Ok w) s2 =>
            Returns (Ok (length (heap st)))
              (object_set (length (heap st)) (mkTypeinfo (Some d) (Some w)) s2)
        | Returns (Failed err) s2 => Returns (Failed err) s2
        | Panics => Panics
        | OutOfFuel => OutOfFuel
        end
    | Returns (Failed err) s1 => Returns (Failed err) s1
    | Panics => Panics
    | OutOfFuel => OutOfFuel
    end.
Proof.
  unfold genTypeInfo. rewrite bind_note_generation, bind_new_typeinfo. simpl.
  change (mkState (typeCache st) (heap st ++ [typeinfo_zero])%list
            (generated st ++ [mkKey typ ts])%list)
    with (generation_started typ ts st).
  unfold bind at 1.
  destruct (run_gen rec (makeDecoder typ ts) (generation_started typ ts st))
    as [[d | err] s1 | |] eqn:Edec; [| done | done | done].
  apply run_gen_extends in Edec; [| exact rec_extends].
  assert (L1 : heap s1 !! length (heap st) = Some typeinfo_zero).
  { eapply extends_load; [exact Edec |]. simpl.
    by rewrite lookup_app_r, Nat.sub_diag. }
  rewrite (bind_load _ _ _ _ L1), (bind_store _ _ _ _ _ L1). simpl.
  change (mkState (typeCache s1)
            (<[length (heap st) := mkTypeinfo (Some d) None]> (heap s1))
            (generated s1))
    with (object_set (length (heap st)) (mkTypeinfo (Some d) None) s1).
  unfold bind at 1.
  destruct (run_gen rec (makeWriter typ ts) _)
    as [[w | err] s2 | |] eqn:Ewr; [| done | done | done].
  apply run_gen_extends in Ewr; [| exact rec_extends].
  assert (L2 : heap s2 !! length (heap st) = Some (mkTypeinfo (Some d) None)).
  { eapply extends_load; [exact Ewr |]. simpl.
    apply list_lookup_insert_eq. by eapply lookup_lt_Some. }
  by rewrite (bind_load _ _ _ _ L2), (bind_store _ _ _ _ _ L2).
Qed.

(** A miss of [cachedTypeInfo1]: the dummy value is installed, the two
    generators run, and either the functions they returned are copied
    over the dummy value or the entry is deleted. *)
Lemma cachedTypeInfo1_body_miss typ ts (st : State) :
  typeCache st !! mkKey typ ts = None ->
  cachedTypeInfo1_body makeDecoder makeWriter rec typ ts st
  = match genTypeInfo makeDecoder makeWriter rec typ ts
            (dummy_installed (mkKey typ ts) st) with
    | Returns (Ok info) s =>
        match heap s !! info with
        | Some v => Returns (Ok (length (heap st))) (object_set (length (heap st)) v s)
        | None => Panics
        end
    | Returns (Failed err) s => Returns (Failed err) (dummy_removed (mkKey typ ts) s)
    | Panics => Panics
    | OutOfFuel => OutOfFuel
    end.
Proof.
  intros Hkey. unfold cachedTypeInfo1_body.
  rewrite bind_cache_get, Hkey, bind_new_typeinfo, bind_cache_put. simpl.
  change (mkState (<[mkKey typ ts := length (heap st)]> (typeCache st))
            (heap st ++ [typeinfo_zero])%list (generated st))
    with (dummy_installed (mkKey typ ts) st).
  unfold bind at 1.
  destruct (genTypeInfo makeDecoder makeWriter rec typ ts
              (dummy_installed (mkKey typ ts) st))
    as [[info | err] s | |] eqn:Egen; [| | done | done].
  - apply genTypeInfo_Returns in Egen as [Eext Hinfo]; [| exact rec_extends].
    destruct (Hinfo info eq_refl) as (-> & d & w & Hv). simpl in Hv.
    pose proof (extends_lookup _ _ (mkKey typ ts) (length (heap st)) Eext
                  (lookup_insert_eq _ _ _)) as K.
    assert (is_Some (heap s !! length (heap st))) as [v0 Hv0].
    { apply lookup_lt_is_Some. destruct Eext as [_ h _ _ _]. simpl in h.
      apply prefix_length in h. rewrite length_app in h. simpl in h. lia. }
    rewrite bind_cache_get, K. simpl. rewrite Hv.
    by rewrite (bind_load _ _ _ _ Hv), (bind_store _ _ _ _ _ Hv0).
  - by rewrite bind_cache_delete.
Qed.

End Calls.

(** The same for [cachedTypeInfo], at any budget over that of the
    calls of the generator. *)
Lemma cachedTypeInfo_miss fuel typ ts (st : State) :
  typeCache st !! mkKey typ ts = None ->
  cachedTypeInfo makeDecoder makeWriter (S fuel) typ ts st
  = match genTypeInfo makeDecoder makeWriter
                      (cachedTypeInfo1 makeDecoder makeWriter fuel) typ ts
            (dummy_installed (mkKey typ ts) st) with
    | Returns (Ok info) s =>
        match heap s !! info with
        | Some v => Returns (Ok (length (heap st))) (object_set (length (heap st)) v s)
        | None => Panics
        end
    | Returns (Failed err) s => Returns (Failed err) (dummy_removed (mkKey typ ts) s)
    | Panics => Panics
    | OutOfFuel => OutOfFuel
    end.
Proof.
  intros Hkey. rewrite cachedTypeInfo_unfold, Hkey. simpl.
  apply cachedTypeInfo1_body_miss; [| exact Hkey].
  apply cachedTypeInfo1_extends.
Qed.

End Trace.

(** ** The cache stays well formed *)

Section WellFormed.
Context `{ReflectType Ty} {decoder writer : Type}.
Variable makeDecoder : Ty -> tags -> gen Ty decoder.
Variable makeWriter : Ty -> tags -> gen Ty writer.
Local Abbreviation State := (State Ty decoder writer).
Local Abbreviation M := (@M Ty _ _ decoder writer).

Lemma load_Returns p (st : State) v s :
  load p st = Returns v s -> heap st !! p = Some v /\ s = st.
Proof.
  unfold load. destruct (heap st !! p); [| discriminate].
  by intros [= -> ->].
Qed.

Lemma store_Returns p (v : typeinfo decoder writer) (st : State) u s :
  store p v st = Returns u s ->
  s = mkState (typeCache st) (<[p := v]> (heap st)) (generated st).
Proof.
  unfold store. destruct (heap st !! p); [| discriminate].
  by intros [= _ <-].
Qed.

Lemma wf_cache_heap (st : State) (h : list (typeinfo decoder writer)) g :
  (length (heap st) <= length h)%nat ->
  wf_cache st -> wf_cache (mkState (typeCache st) h g).
Proof.
  intros Hlen [Hb Hi]. split; simpl; [| exact Hi].
  intros key p Hp. specialize (Hb key p Hp). lia.
Qed.

Lemma wf_cache_install (st : State) key g :
  wf_cache st ->
  wf_cache (mkState (<[key := length (heap st)]> (typeCache st))
                    (heap st ++ [typeinfo_zero])%list g).
Proof.
  intros [Hb Hi]. split; simpl.
  - intros key' p Hp. rewrite length_app. simpl.
    apply lookup_insert_Some in Hp as [[_ <-] | [_ Hp]]; [lia |].
    specialize (Hb key' p Hp). lia.
  - intros k1 k2 p H1 H2.
    apply lookup_insert_Some in H1 as [[<- <-] | [Hne1 H1]];
      apply lookup_insert_Some in H2 as [[<- E2] | [Hne2 H2]]; try done.
    + specialize (Hb k2 _ H2). lia.
    + specialize (Hb k1 _ H1). lia.
    + by eapply Hi.
Qed.

Lemma wf_cache_delete (st : State) key :
  wf_cache st ->
  wf_cache (mkState (delete key (typeCache st)) (heap st) (generated st)).
Proof.
  intros [Hb Hi]. split; simpl.
  - intros key' p Hp. apply lookup_delete_Some in Hp as [_ Hp]. by eapply Hb.
  - intros k1 k2 p H1 H2. apply lookup_delete_Some in H1 as [_ H1].
    apply lookup_delete_Some in H2 as [_ H2]. by eapply Hi.
Qed.

Section Calls.
Variable rec : Ty -> tags -> M (result Ty ptr).
Hypothesis rec_wf : forall typ ts (st : State) r st',
  wf_cache st -> rec typ ts st = Returns r st' -> wf_cache st'.

Lemma structFields_loop_wf typ todo acc (st : State) r st' :
  wf_cache st ->
  structFields_loop rec typ todo acc st = Returns r st' -> wf_cache st'.
Proof.
  revert acc st. induction todo as [| i todo IH]; intros acc st Hwf Hrun;
    simpl in Hrun.
  - by step_in Hrun.
  - destruct (Field typ (Z.of_nat i)) as [f |]; [| discriminate].
    destruct (String.eqb (PkgPath f) ""); [| by eapply IH].
    destruct (parseStructTag typ (Z.of_nat i)) as [[ts [err |]] |];
      [by step_in Hrun | | discriminate].
    destruct (ignored ts); [by eapply IH |].
    step_as Hrun a s1 Hrec. apply rec_wf in Hrec; [| done].
    destruct a as [p | err]; [by eapply IH | by step_in Hrun].
Qed.

Lemma structFields_wf typ (st : State) r st' :
  wf_cache st -> structFields rec typ st = Returns r st' -> wf_cache st'.
Proof.
  unfold structFields. destruct (NumField typ); [| discriminate].
  apply structFields_loop_wf.
Qed.

Lemma run_gen_wf {A} (g : gen Ty A) (st : State) r st' :
  wf_cache st -> run_gen rec g st = Returns r st' -> wf_cache st'.
Proof.
  revert st. induction g as [a | err | typ ts k IH | typ k IH];
    intros st Hwf Hrun; simpl in Hrun.
  - by step_in Hrun.
  - by step_in Hrun.
  - step_as Hrun a s1 Hrec. apply rec_wf in Hrec; [| done]. by eapply IH.
  - step_as Hrun a s1 Hrec. apply structFields_wf in Hrec; [| done].
    by eapply IH.
Qed.

Lemma genTypeInfo_wf typ ts (st : State) r st' :
  wf_cache st ->
  genTypeInfo makeDecoder makeWriter rec typ ts st = Returns r st' ->
  wf_cache st'.
Proof.
  unfold genTypeInfo. intros Hwf Hrun.
  rewrite bind_note_generation, bind_new_typeinfo in Hrun. simpl in Hrun.
  step_as Hrun a s2 Hdec. apply run_gen_wf in Hdec.
  2:{ apply wf_cache_heap; [| done]. rewrite length_app. lia. }
  destruct a as [dec | err]; [| by step_in Hrun].
  step_as Hrun v s2' Hload. apply load_Returns in Hload as [Hv0 ->].
  rewrite (bind_store _ _ _ _ _ Hv0) in Hrun.
  step_as Hrun a s4 Hwr. apply run_gen_wf in Hwr.
  2:{ apply wf_cache_heap; [| done]. by rewrite length_insert. }
  destruct a as [wr | err]; [| by step_in Hrun].
  step_as Hrun v' s4' Hload. apply load_Returns in Hload as [Hv1 ->].
  rewrite (bind_store _ _ _ _ _ Hv1) in Hrun. step_in Hrun.
  apply wf_cache_heap; [| done]. by rewrite length_insert.
Qed.

Lemma cachedTypeInfo1_body_wf typ ts (st : State) r st' :
  wf_cache st ->
  cachedTypeInfo1_body makeDecoder makeWriter rec typ ts st = Returns r st' ->
  wf_cache st'.
Proof.
  unfold cachedTypeInfo1_body. intros Hwf Hrun.
  rewrite bind_cache_get in Hrun.
  destruct (typeCache st !! mkKey typ ts) as [p |]; [by step_in Hrun |].
  rewrite bind_new_typeinfo, bind_cache_put in Hrun. simpl in Hrun.
  step_as Hrun a s2 Hgen. apply genTypeInfo_wf in Hgen.
  2:{ by apply wf_cache_install. }
  destruct a as [info | err].
  - rewrite bind_cache_get in Hrun.
    destruct (typeCache s2 !! mkKey typ ts) as [p |]; [| discriminate].
    step_as Hrun v s2' Hload. apply load_Returns in Hload as [_ ->].
    step_as Hrun u s3 Hstore. apply store_Returns in Hstore as ->.
    step_in Hrun.
    apply wf_cache_heap; [| done]. by rewrite length_insert.
  - rewrite bind_cache_delete in Hrun. step_in Hrun.
    by apply wf_cache_delete.
Qed.
End Calls.

Lemma cachedTypeInfo1_wf fuel typ ts (st : State) r st' :
  wf_cache st ->
  cachedTypeInfo1 makeDecoder makeWriter fuel typ ts st = Returns r st' ->
  wf_cache st'.
Proof.
  revert typ ts st r st'. induction fuel as [| fuel IH];
    intros typ ts st r st' Hwf Hrun; [discriminate |].
  simpl in Hrun. eapply cachedTypeInfo1_body_wf; [exact IH | exact Hwf | exact Hrun].
Qed.

Lemma cachedTypeInfo_wf fuel typ ts (st : State) r st' :
  wf_cache st ->
  cachedTypeInfo makeDecoder makeWriter fuel typ ts st = Returns r st' ->
  wf_cache st'.
Proof.
  intros Hwf Hrun. rewrite cachedTypeInfo_unfold in Hrun.
  destruct (typeCache st !! mkKey typ ts).
  - by injection Hrun as _ <-.
  - by eapply cachedTypeInfo1_wf.
Qed.

End WellFormed.

(** ** The cache *)

Section Propagation.
Context `{ReflectType Ty} {decoder writer : Type}.
Variable makeDecoder : Ty -> tags -> gen Ty decoder.
Variable makeWriter : Ty -> tags -> gen Ty writer.
Local Abbreviation State := (State Ty decoder writer).
Local Abbreviation M := (@M Ty _ _ decoder writer).
Variable rec : Ty -> tags -> M (result Ty ptr).

(** When the decoder of a struct fails with the field enumerator, a
    failure of the enumerator is a failure of the generation. *)
Lemma cachedTypeInfo1_body_propagates typ ts (st : State) r st' :
  propagates (makeDecoder typ ts) typ ->
  (forall (s : State) fs s',
     structFields rec typ s = Returns fs s' -> exists err, fs = Failed err) ->
  typeCache st !! mkKey typ ts = None ->
  cachedTypeInfo1_body makeDecoder makeWriter rec typ ts st = Returns r st' ->
  exists err, r = Failed err.
Proof.
  intros (k & Hdec & Hk) Hfields Hkey. unfold cachedTypeInfo1_body, genTypeInfo.
  rewrite bind_cache_get, Hkey, bind_new_typeinfo, bind_cache_put.
  intros Hrun. step_as Hrun r1 s1 Egen.
  rewrite bind_note_generation, bind_new_typeinfo, Hdec in Egen.
  step_as Egen d s2 Edec. simpl in Edec. step_as Edec fs s3 Efs.
  destruct (Hfields _ _ _ Efs) as [err ->].
  destruct (Hk err) as [err' Herr]. rewrite Herr in Edec. simpl in Edec.
  step_in Edec. step_in Egen. rewrite bind_cache_delete in Hrun.
  step_in Hrun. eauto.
Qed.

End Propagation.

Section CacheProperties.
Context `{ReflectType Ty} {decoder writer : Type}.
Variable makeDecoder : Ty -> tags -> gen Ty decoder.
Variable makeWriter : Ty -> tags -> gen Ty writer.
Local Abbreviation State := (State Ty decoder writer).
Local Abbreviation M := (@M Ty _ _ decoder writer).
Local Abbreviation cachedTypeInfo1 := (cachedTypeInfo1 makeDecoder makeWriter).
Local Abbreviation cachedTypeInfo := (cachedTypeInfo makeDecoder makeWriter).

Lemma cachedTypeInfo1_cached fuel typ ts (st : State) p st' :
  cachedTypeInfo1 fuel typ ts st = Returns (Ok p) st' ->
  typeCache st' !! mkKey typ ts = Some p.
Proof.
  intros Hrun. apply cachedTypeInfo1_Returns in Hrun.
  destruct (typeCache st !! mkKey typ ts) eqn:Hkey.
  - destruct Hrun as [[= ->] ->]. done.
  - tauto.
Qed.

(** C5. After a resolve that succeeded, a resolve for the same key
    returns the same pointer from the first lookup and leaves the state
    as it is: no generator runs. This holds in every later state. *)
Theorem second_resolve_is_a_hit fuel typ ts (st : State) p st' :
  cachedTypeInfo fuel typ ts st = Returns (Ok p) st' ->
  typeCache st' !! mkKey typ ts = Some p
  /\ forall fuel' (st'' : State),
       extends st' st'' ->
       cachedTypeInfo fuel' typ ts st'' = Returns (Ok p) st''
       /\ generations (mkKey typ ts) st'' = generations (mkKey typ ts) st'.
Proof.
  intros Hrun.
  assert (Hp : typeCache st' !! mkKey typ ts = Some p).
  { apply cachedTypeInfo_Returns in Hrun.
    destruct (typeCache st !! mkKey typ ts) eqn:Hkey.
    - destruct Hrun as [[= ->] ->]. done.
    - tauto. }
  split; [done |]. intros fuel' st'' Hext. split.
  - rewrite cachedTypeInfo_unfold. by rewrite (extends_lookup _ _ _ _ Hext Hp).
  - apply (extends_present _ _ Hext). by eexists.
Qed.


(** C2, as amended. While a key has an entry, its pointer never
    changes: every resolve, and every call the generator makes, leaves
    the entries it finds under their pointers. A resolve that misses and
    succeeds returns the pointer [p] of the dummy value it put into the
    cache first (the next free address); the key keeps that entry while
    the two generators run, the object at [p] staying empty; and at the
    end the object at [p] holds the decoder and the writer that
    [makeDecoder] and [makeWriter] returned for the type under its tags,
    copied in place: the map is not touched. A resolve that fails has
    removed its dummy value from the cache; the object stays empty, and
    a later resolve that generates the key installs another object. In
    the field enumerator, a retained field whose key (its type with its
    parsed tags) has an entry, finished or under generation, gets the
    pointer of that entry as its codec info; the codec info of a field
    is the entry of the field's own key, and it is the entry of the
    struct under generation only if the two keys are the same, never for
    a field that is a pointer or a slice. *)
Theorem cache_entries_keep_their_identity fuel typ ts (st : State) r st' :
  cachedTypeInfo fuel typ ts st = Returns r st' ->
  (forall key p, typeCache st !! key = Some p -> typeCache st' !! key = Some p)
  /\ (forall fuel0 typ0 ts0 (s : State) r0 s',
        cachedTypeInfo1 fuel0 typ0 ts0 s = Returns r0 s' ->
        forall key p, typeCache s !! key = Some p -> typeCache s' !! key = Some p)
  /\ (forall A (g : gen Ty A) fuel0 (s : State) r0 s',
        run_gen (cachedTypeInfo1 fuel0) g s = Returns r0 s' ->
        forall key p, typeCache s !! key = Some p -> typeCache s' !! key = Some p)
  /\ (forall p, r = Ok p -> typeCache st !! mkKey typ ts = None ->
        p = length (heap st)
        /\ typeCache st' !! mkKey typ ts = Some p
        /\ exists fuel0 d w (s1 s2 : State),
             fuel = S fuel0
             /\ run_gen (cachedTypeInfo1 fuel0) (makeDecoder typ ts)
                  (generation_started typ ts (dummy_installed (mkKey typ ts) st))
                = Returns (Ok d) s1
             /\ run_gen (cachedTypeInfo1 fuel0) (makeWriter typ ts)
                  (object_set (S p) (mkTypeinfo (Some d) None) s1)
                = Returns (Ok w) s2
             /\ typeCache s1 !! mkKey typ ts = Some p
             /\ typeCache s2 !! mkKey typ ts = Some p
             /\ heap s1 !! p = Some typeinfo_zero
             /\ heap s2 !! p = Some typeinfo_zero
             /\ st' = object_set p (mkTypeinfo (Some d) (Some w))
                        (object_set (S p) (mkTypeinfo (Some d) (Some w)) s2)
             /\ heap st' !! p = Some (mkTypeinfo (Some d) (Some w)))
  /\ (forall err, r = Failed err ->
        typeCache st !! mkKey typ ts = None
        /\ typeCache st' !! mkKey typ ts = None
        /\ heap st' !! length (heap st) = Some typeinfo_zero
        /\ forall fuel' (st'' : State) p' s3,
             extends st' st'' ->
             typeCache st'' !! mkKey typ ts = None ->
             cachedTypeInfo fuel' typ ts st'' = Returns (Ok p') s3 ->
             (length (heap st) < p')%nat)
  /\ (forall fuel0 typ0 (s : State) fields s' i f ts0 p,
        structFields (cachedTypeInfo1 fuel0) typ0 s = Returns (Ok fields) s' ->
        Field typ0 (Z.of_nat i) = Some f -> PkgPath f = "" ->
        parseStructTag typ0 (Z.of_nat i) = Some (ts0, None) ->
        ignored ts0 = false ->
        typeCache s !! mkKey (Typ f) ts0 = Some p ->
        mkField (Z.of_nat i) p ∈ fields)
  /\ (forall fuel0 typ0 ts1 q (s : State) fields s',
        wf_cache s ->
        typeCache s !! mkKey typ0 ts1 = Some q ->
        structFields (cachedTypeInfo1 fuel0) typ0 s = Returns (Ok fields) s' ->
        forall fd, fd ∈ fields ->
          exists i f ts0,
            index fd = Z.of_nat i
            /\ Field typ0 (Z.of_nat i) = Some f
            /\ parseStructTag typ0 (Z.of_nat i) = Some (ts0, None)
            /\ typeCache s' !! mkKey (Typ f) ts0 = Some (info fd)
            /\ (info fd = q <-> mkKey (Typ f) ts0 = mkKey typ0 ts1)
            /\ (type_Kind (Typ f) <> Struct -> info fd <> q)).
Proof.
  intros Hrun. split; [| split; [| split; [| split; [| split; [| split]]]]].
  - intros key p Hp. eapply extends_lookup; [| exact Hp].
    by eapply cachedTypeInfo_extends.
  - clear. intros fuel0 typ0 ts0 s r0 s' Hrun key p Hp.
    eapply extends_lookup; [| exact Hp]. by eapply cachedTypeInfo1_extends.
  - clear. intros A g fuel0 s r0 s' Hrun key p Hp.
    eapply extends_lookup; [| exact Hp].
    eapply run_gen_extends; [| exact Hrun]. apply cachedTypeInfo1_extends.
  - intros p -> Hkey.
    pose proof Hrun as Hinv. apply cachedTypeInfo_Returns in Hinv.
    rewrite Hkey in Hinv. destruct Hinv as (_ & _ & -> & Hentry & _).
    split; [done |]. split; [done |].
    destruct fuel as [| fuel0].
    { rewrite cachedTypeInfo_unfold, Hkey in Hrun. discriminate Hrun. }
    exists fuel0.
    rewrite (cachedTypeInfo_miss _ _ _ _ _ _ Hkey) in Hrun.
    rewrite (genTypeInfo_run _ _ _ (cachedTypeInfo1_extends _ _ fuel0)) in Hrun.
    set (s0 := generation_started typ ts (dummy_installed (mkKey typ ts) st))
      in *.
    assert (Hlen : length (heap (dummy_installed (mkKey typ ts) st))
                   = S (length (heap st))).
    { simpl. rewrite length_app. simpl. lia. }
    rewrite Hlen in Hrun.
    assert (K0 : typeCache s0 !! mkKey typ ts = Some (length (heap st))).
    { simpl. apply lookup_insert_eq. }
    assert (L0 : heap s0 !! length (heap st) = Some typeinfo_zero).
    { simpl. rewrite <- app_assoc. by rewrite lookup_app_r, Nat.sub_diag. }
    destruct (run_gen (cachedTypeInfo1 fuel0) (makeDecoder typ ts) s0)
      as [[d | err] s1 | |] eqn:Edec; try discriminate Hrun.
    pose proof (run_gen_extends _ (cachedTypeInfo1_extends _ _ fuel0)
                  _ _ _ _ Edec) as E1.
    pose proof (extends_lookup _ _ _ _ E1 K0) as K1.
    pose proof (extends_load _ _ _ _ E1 L0) as L1.
    set (s1' := object_set (S (length (heap st))) (mkTypeinfo (Some d) None) s1)
      in *.
    assert (L1' : heap s1' !! length (heap st) = Some typeinfo_zero).
    { simpl. rewrite list_lookup_insert_ne by lia. exact L1. }
    destruct (run_gen (cachedTypeInfo1 fuel0) (makeWriter typ ts) s1')
      as [[w | err] s2 | |] eqn:Ewr; try discriminate Hrun.
    pose proof (run_gen_extends _ (cachedTypeInfo1_extends _ _ fuel0)
                  _ _ _ _ Ewr) as E2.
    pose proof (extends_lookup _ _ _ _ E2 K1) as K2.
    pose proof (extends_load _ _ _ _ E2 L1') as L2.
    assert (Hinfo : (S (length (heap st)) < length (heap s2))%nat).
    { destruct E1 as [_ h1 _ _ _]. destruct E2 as [_ h2 _ _ _].
      apply prefix_length in h1. apply prefix_length in h2.
      simpl in h1, h2. rewrite length_insert in h2.
      rewrite !length_app in h1. simpl in h1. lia. }
    simpl in Hrun. rewrite list_lookup_insert_eq in Hrun by exact Hinfo.
    injection Hrun as <-.
    exists d, w, s1, s2.
    split; [done |]. split; [done |]. split; [done |]. split; [done |].
    split; [exact K2 |]. split; [exact L1 |]. split; [exact L2 |].
    split; [done |].
    simpl. apply list_lookup_insert_eq. rewrite length_insert. lia.
  - intros err ->.
    pose proof Hrun as Hinv. apply cachedTypeInfo_Returns in Hinv.
    destruct (typeCache st !! mkKey typ ts) eqn:Hkey; [by destruct Hinv |].
    destruct Hinv as (_ & _ & Hnone). split; [done |]. split; [done |].
    assert (Hdummy : heap st' !! length (heap st) = Some typeinfo_zero
                     /\ (length (heap st) < length (heap st'))%nat).
    { destruct fuel as [| fuel0].
      { rewrite cachedTypeInfo_unfold, Hkey in Hrun. discriminate Hrun. }
      rewrite (cachedTypeInfo_miss _ _ _ _ _ _ Hkey) in Hrun.
      destruct (genTypeInfo makeDecoder makeWriter (cachedTypeInfo1 fuel0) typ ts
                  (dummy_installed (mkKey typ ts) st))
        as [[info | err'] s | |] eqn:Egen; try discriminate Hrun.
      { destruct (heap s !! info); discriminate Hrun. }
      injection Hrun as _ <-.
      apply genTypeInfo_Returns in Egen as [Eext _];
        [| apply cachedTypeInfo1_extends].
      assert (L : heap s !! length (heap st) = Some typeinfo_zero).
      { eapply extends_load; [exact Eext |]. simpl.
        by rewrite lookup_app_r, Nat.sub_diag. }
      split; [exact L |]. by eapply lookup_lt_Some. }
    split; [tauto |].
    intros fuel' st'' p' s3 Hext Hkey'' Hrun''.
    apply cachedTypeInfo_Returns in Hrun''. rewrite Hkey'' in Hrun''.
    destruct Hrun'' as (_ & _ & -> & _).
    destruct Hext as [_ h _ _ _]. apply prefix_length in h. lia.
  - clear. intros fuel0 typ0 s fields s' i f ts0 p Hrun Hf Hexp Hparse Hign Hp.
    pose proof (structFields_extends _ (cachedTypeInfo1_extends _ _ fuel0)
                  _ _ _ _ Hrun) as Hext.
    unfold structFields in Hrun.
    destruct (Field_NumField _ _ _ Hf) as (n & Hn & Hi). rewrite Hn in Hrun.
    pose proof (structFields_loop_indices _ _ _ _ _ _ _ Hrun) as Hidx.
    pose proof (structFields_loop_cached _ (cachedTypeInfo1_extends _ _ fuel0)
                  (cachedTypeInfo1_cached fuel0) _ _ _ _ _ _ Hrun) as Hcached.
    assert (Hin : Z.of_nat i ∈ map index fields).
    { rewrite Hidx. simpl. apply list_elem_of_fmap_2, list_elem_of_filter.
      split; [| apply elem_of_seq; lia].
      unfold retained. rewrite Hf, Hparse, Hign, bool_decide_true by done. done. }
    apply list_elem_of_fmap in Hin as (fd & Hfd & Hin).
    destruct (Hcached ltac:(intros ? []%elem_of_nil) fd Hin)
      as (j & fj & tsj & Hj & Hfj & Hpj & Hcj).
    assert (j = i) as -> by lia.
    rewrite Hf in Hfj. injection Hfj as <-.
    rewrite Hparse in Hpj. injection Hpj as <-.
    rewrite (extends_lookup _ _ _ _ Hext Hp) in Hcj. injection Hcj as Hinfo.
    destruct fd as [idx inf]; simpl in *. by subst.
  - clear. intros fuel0 typ0 ts1 q s fields s' Hwf Hq Hrun fd Hfd.
    pose proof (structFields_extends _ (cachedTypeInfo1_extends _ _ fuel0)
                  _ _ _ _ Hrun) as Hext.
    pose proof (structFields_wf _ (fun typ ts st r st' =>
                  cachedTypeInfo1_wf makeDecoder makeWriter fuel0 typ ts st r st')
                  _ _ _ _ Hwf Hrun) as [_ Hinj].
    pose proof (extends_lookup _ _ _ _ Hext Hq) as Hq'.
    unfold structFields in Hrun.
    destruct (NumField typ0) as [n |] eqn:Hn; [| discriminate Hrun].
    destruct (structFields_loop_cached _ (cachedTypeInfo1_extends _ _ fuel0)
                (cachedTypeInfo1_cached fuel0) _ _ _ _ _ _ Hrun
                ltac:(intros ? []%elem_of_nil) fd Hfd)
      as (i & f & ts0 & Hi & Hf & Hparse & Hentry).
    exists i, f, ts0.
    split; [done |]. split; [done |]. split; [done |]. split; [done |].
    assert (Hiff : info fd = q <-> mkKey (Typ f) ts0 = mkKey typ0 ts1).
    { split.
      - intros Heq. rewrite Heq in Hentry. by eapply Hinj.
      - intros Heq. rewrite Heq, Hq' in Hentry. by injection Hentry. }
    split; [exact Hiff |].
    intros Hkind Heq. apply Hiff in Heq. injection Heq as Htyp _.
    apply Hkind. rewrite Htyp. by eapply Field_Struct.
Qed.

End CacheProperties.

(** ** Programs with finitely many types *)

Section FiniteProgram.
Context `{ReflectType Ty} `{!Finite Ty} {decoder writer : Type}.
Variable makeDecoder : Ty -> tags -> gen Ty decoder.
Variable makeWriter : Ty -> tags -> gen Ty writer.
Local Abbreviation State := (State Ty decoder writer).
Local Abbreviation M := (@M Ty _ _ decoder writer).
Local Abbreviation cachedTypeInfo1 := (cachedTypeInfo1 makeDecoder makeWriter).
Local Abbreviation cachedTypeInfo := (cachedTypeInfo makeDecoder makeWriter).

Hypothesis makeDecoder_ok : forall typ ts, structs_only (makeDecoder typ ts).
Hypothesis makeWriter_ok : forall typ ts, structs_only (makeWriter typ ts).

Lemma structFields_budget_total typ (st : State) :
  type_Kind typ = Struct ->
  exists r st', structFields (cachedTypeInfo1 (budget Ty)) typ st = Returns r st'.
Proof.
  intros Hk. apply (structFields_total _ (budget Ty)).
  - apply cachedTypeInfo1_extends.
  - intros typ0 ts0 s Hs. by apply cachedTypeInfo1_total.
  - done.
  - apply missing_le_budget.
Qed.

(** C1. While a key has an entry (the dummy value is put into the cache
    before the generator is called), [cachedTypeInfo1] for that key
    returns the entry at once and leaves the state as it is, and whatever
    the generator asks of the cache, the key keeps its entry and is not
    generated again. So the recursion ends: on a program with finitely
    many types, and so for a struct that refers to itself, every resolve
    returns. *)
Theorem placeholder_stops_the_recursion fuel typ ts (st : State) p :
  typeCache st !! mkKey typ ts = Some p ->
  cachedTypeInfo1 (S fuel) typ ts st = Returns (Ok p) st
  /\ (forall A (g : gen Ty A) r st',
        run_gen (cachedTypeInfo1 fuel) g st = Returns r st' ->
        typeCache st' !! mkKey typ ts = Some p
        /\ generations (mkKey typ ts) st' = generations (mkKey typ ts) st)
  /\ (forall typ0 ts0 (st0 : State),
        exists r st',
          cachedTypeInfo (budget Ty) typ0 ts0 st0 = Returns r st').
Proof.
  intros Hp. split; [by apply cachedTypeInfo1_hit |]. split.
  - intros A g r st' Hrun.
    apply run_gen_extends in Hrun; [| apply cachedTypeInfo1_extends].
    split; [by eapply extends_lookup |].
    apply (extends_present _ _ Hrun). by eexists.
  - intros typ0 ts0 st0. by apply cachedTypeInfo_total.
Qed.

(** C4. When [genTypeInfo] returns an error for a key that had no
    entry, [cachedTypeInfo] returns that error and the state is the one
    [genTypeInfo] left with the dummy value deleted; until then the
    dummy value was the entry of the key. [genTypeInfo] returns the
    error of the decoder generator when that fails, and the error of the
    writer generator when that fails after the decoder was made; a
    malformed tag on an exported field makes the resolve of a struct
    fail when its generator fails with the field enumerator. After any
    resolve that returned an error the key has no entry and was
    generated once; the next resolve for the key returns, and has run
    the generator for the key once more. *)
Theorem failed_generation_is_retried fuel typ ts (st : State) :
  typeCache st !! mkKey typ ts = None ->
  (forall err (s : State),
     genTypeInfo makeDecoder makeWriter (cachedTypeInfo1 fuel) typ ts
       (dummy_installed (mkKey typ ts) st) = Returns (Failed err) s ->
     typeCache s !! mkKey typ ts = Some (length (heap st))
     /\ typeCache (dummy_removed (mkKey typ ts) s) !! mkKey typ ts = None
     /\ forall fuel', (fuel < fuel')%nat ->
          cachedTypeInfo fuel' typ ts st
          = Returns (Failed err) (dummy_removed (mkKey typ ts) s))
  /\ (forall err (s : State),
        run_gen (cachedTypeInfo1 fuel) (makeDecoder typ ts)
          (generation_started typ ts (dummy_installed (mkKey typ ts) st))
        = Returns (Failed err) s ->
        genTypeInfo makeDecoder makeWriter (cachedTypeInfo1 fuel) typ ts
          (dummy_installed (mkKey typ ts) st) = Returns (Failed err) s)
  /\ (forall d (s1 : State) err (s : State),
        run_gen (cachedTypeInfo1 fuel) (makeDecoder typ ts)
          (generation_started typ ts (dummy_installed (mkKey typ ts) st))
        = Returns (Ok d) s1 ->
        run_gen (cachedTypeInfo1 fuel) (makeWriter typ ts)
          (object_set (S (length (heap st))) (mkTypeinfo (Some d) None) s1)
        = Returns (Failed err) s ->
        genTypeInfo makeDecoder makeWriter (cachedTypeInfo1 fuel) typ ts
          (dummy_installed (mkKey typ ts) st) = Returns (Failed err) s)
  /\ (forall i (f : StructField Ty) ts0 err0,
        propagates (makeDecoder typ ts) typ ->
        Field typ (Z.of_nat i) = Some f -> PkgPath f = "" ->
        parseStructTag typ (Z.of_nat i) = Some (ts0, Some err0) ->
        exists err st',
          cachedTypeInfo (budget Ty) typ ts st = Returns (Failed err) st')
  /\ (forall fuel' err (st' : State),
        cachedTypeInfo fuel' typ ts st = Returns (Failed err) st' ->
        typeCache st' !! mkKey typ ts = None
        /\ generations (mkKey typ ts) st' = S (generations (mkKey typ ts) st)
        /\ exists r st'',
             cachedTypeInfo (budget Ty) typ ts st' = Returns r st''
             /\ generations (mkKey typ ts) st''
                = S (generations (mkKey typ ts) st')).
Proof.
  intros Hkey.
  assert (Hlen : length (heap (dummy_installed (mkKey typ ts) st))
                 = S (length (heap st))).
  { simpl. rewrite length_app. simpl. lia. }
  split; [| split; [| split; [| split]]].
  - intros err s Hgen.
    assert (Hone : cachedTypeInfo (S fuel) typ ts st
                   = Returns (Failed err) (dummy_removed (mkKey typ ts) s)).
    { by rewrite (cachedTypeInfo_miss _ _ _ _ _ _ Hkey), Hgen. }
    split; [| split].
    + apply genTypeInfo_Returns in Hgen as [Eext _];
        [| apply cachedTypeInfo1_extends].
      eapply extends_lookup; [exact Eext |]. simpl. apply lookup_insert_eq.
    + simpl. apply lookup_delete_eq.
    + intros fuel' Hfuel. rewrite cachedTypeInfo_unfold, Hkey in *.
      eapply cachedTypeInfo1_fuel_le; [| exact Hone]. lia.
  - intros err s Hdec.
    by rewrite (genTypeInfo_run _ _ _ (cachedTypeInfo1_extends _ _ fuel)), Hdec.
  - intros d s1 err s Hdec Hwr.
    rewrite (genTypeInfo_run _ _ _ (cachedTypeInfo1_extends _ _ fuel)), Hdec.
    by rewrite Hlen, Hwr.
  - intros i f ts0 err0 Hprop Hf Hexp Hparse.
    assert (Hfails : forall (s : State) fs s',
      structFields (cachedTypeInfo1 (length (@all_keys Ty _ _))) typ s
      = Returns fs s' -> exists err', fs = Failed err').
    { intros s fs s'. by eapply structFields_parse_error. }
    destruct (cachedTypeInfo_total makeDecoder makeWriter makeDecoder_ok
                makeWriter_ok typ ts st) as (r & st' & Hrun).
    pose proof Hrun as Hbody.
    rewrite cachedTypeInfo_unfold, Hkey in Hbody. unfold budget in Hbody.
    simpl in Hbody.
    destruct (cachedTypeInfo1_body_propagates _ _ _ _ _ _ _ _
                Hprop Hfails Hkey Hbody) as [err' ->].
    by exists err', st'.
  - intros fuel' err st' Hrun. apply cachedTypeInfo_Returns in Hrun.
    rewrite Hkey in Hrun. destruct Hrun as (_ & Hgen & Hnone).
    split; [done |]. split; [done |].
    destruct (cachedTypeInfo_total makeDecoder makeWriter makeDecoder_ok
                makeWriter_ok typ ts st') as (r & st'' & Hrun).
    exists r, st''. split; [done |].
    apply cachedTypeInfo_Returns in Hrun. rewrite Hnone in Hrun. tauto.
Qed.


(** C8. On a struct, [structFields] is the field enumerator of the
    specification. When it succeeds, the descriptors are those of the
    fields that are exported and whose tag does not set ignored, in the
    order of declaration, each with the pointer the cache has for the
    key of its field: the type of the field with its parsed tags. A
    malformed tag on an exported field makes it fail. Every call
    returns. *)
Theorem structFields_enumerates typ :
  type_Kind typ = Struct ->
  (forall (rec : Ty -> tags -> M (result Ty ptr)) (st : State),
     structFields rec typ st = enumerate_spec rec typ st)
  /\ (forall fuel (st : State) fields st',
        structFields (cachedTypeInfo1 fuel) typ st = Returns (Ok fields) st' ->
        map index fields
        = map Z.of_nat (filter (fun i => retained typ i)
                               (seq 0 (length (type_fields typ))))
        /\ forall fd, fd ∈ fields ->
             exists i f ts,
               index fd = Z.of_nat i
               /\ Field typ (Z.of_nat i) = Some f
               /\ parseStructTag typ (Z.of_nat i) = Some (ts, None)
               /\ typeCache st' !! mkKey (Typ f) ts = Some (info fd))
  /\ (forall fuel (st : State) r st' i f ts err,
        Field typ (Z.of_nat i) = Some f -> PkgPath f = "" ->
        parseStructTag typ (Z.of_nat i) = Some (ts, Some err) ->
        structFields (cachedTypeInfo1 fuel) typ st = Returns r st' ->
        exists err', r = Failed err')
  /\ (forall st : State, exists r st',
        structFields (cachedTypeInfo1 (budget Ty)) typ st = Returns r st').
Proof.
  intros Hk. split; [| split; [| split]].
  - intros rec st. unfold structFields, enumerate_spec.
    rewrite (NumField_Struct _ Hk), Nat2Z.id.
    by apply structFields_loop_spec.
  - intros fuel st fields st' Hrun. unfold structFields in Hrun.
    rewrite (NumField_Struct _ Hk), Nat2Z.id in Hrun. split.
    + by apply structFields_loop_indices in Hrun.
    + eapply structFields_loop_cached; [| | exact Hrun |].
      * apply cachedTypeInfo1_extends.
      * apply cachedTypeInfo1_cached.
      * intros fd Hfd. by apply elem_of_nil in Hfd.
  - intros fuel st r st' i f ts err Hf Hexp Hparse Hrun.
    by eapply structFields_parse_error.
  - intros st. by apply structFields_budget_total.
Qed.

End FiniteProgram.

(** ** Concurrent callers *)

Section CallerProperties.
Context `{ReflectType Ty} `{!Finite Ty} {decoder writer : Type}.
Variable makeDecoder : Ty -> tags -> gen Ty decoder.
Variable makeWriter : Ty -> tags -> gen Ty writer.
Local Abbreviation State := (State Ty decoder writer).
Local Abbreviation M := (@M Ty _ _ decoder writer).
Local Abbreviation cachedTypeInfo1 := (cachedTypeInfo1 makeDecoder makeWriter).
Local Abbreviation caller_step := (caller_step makeDecoder makeWriter).
Local Abbreviation run_callers := (run_callers makeDecoder makeWriter).

Lemma failures_insert (pool : list (caller Ty)) i c c' :
  pool !! i = Some c ->
  (failures (<[i := c']> pool) + (if failed c then 1 else 0)
   = failures pool + (if failed c' then 1 else 0))%nat.
Proof.
  unfold failures. revert i. induction pool as [| x pool IH]; intros i Hi;
    [done |].
  destruct i as [| i]; simpl in *.
  - injection Hi as ->. rewrite !filter_cons.
    destruct (failed c), (failed c'); simpl; lia.
  - rewrite !filter_cons. specialize (IH i Hi).
    destruct (decide (failed x)); simpl; lia.
Qed.

Lemma elem_of_insert_inv (pool : list (caller Ty)) i c' x :
  x ∈ <[i := c']> pool -> x = c' \/ x ∈ pool.
Proof.
  intros Hx. apply list_elem_of_lookup in Hx as [j Hj].
  destruct (decide (i = j)) as [-> | Hne].
  - destruct (decide (j < length pool)%nat).
    + rewrite list_lookup_insert_eq in Hj by done. left. congruence.
    + rewrite list_insert_ge in Hj by lia. right.
      apply list_elem_of_lookup. eauto.
  - rewrite list_lookup_insert_ne in Hj by done. right.
    apply list_elem_of_lookup. eauto.
Qed.

Lemma failures_at_entry n typ ts :
  failures (replicate n (@AtEntry Ty typ ts)) = 0%nat.
Proof. unfold failures. induction n as [| n IH]; [done |]. simpl. exact IH. Qed.

(** One atomic part of one caller keeps the books. *)
Lemma caller_step_accounted fuel key before (pool : list (caller Ty)) i c
    (st : State) c' st' :
  pool !! i = Some c -> calls key c ->
  accounted key before pool st ->
  caller_step fuel c st = Returns c' st' ->
  calls key c' /\ accounted key before (<[i := c']> pool) st'.
Proof.
  intros Hi Hc Hacc Hstep. pose proof (failures_insert pool i c c' Hi) as Hfail.
  destruct c as [typ ts | typ ts | r]; simpl in Hc, Hstep.
  - (* the lookup under the read lock *)
    subst key. rewrite bind_cache_get in Hstep. unfold accounted in *.
    destruct (typeCache st !! mkKey typ ts) as [p |] eqn:Hkey;
      step_in Hstep; rewrite Hkey; simpl in *.
    + split; [done |]. destruct Hacc as [Hgen Hok]. split; [lia |].
      intros c q Hin ->. apply elem_of_insert_inv in Hin as [[= ->] | Hin];
        [done | by eapply Hok].
    + split; [done |]. destruct Hacc as [Hgen Hok]. split; [lia |].
      intros c q Hin ->. apply elem_of_insert_inv in Hin as [? | Hin];
        [done | by eapply Hok].
  - (* the call under the write lock *)
    subst key. step_as Hstep r st1 Hrun. step_in Hstep.
    apply cachedTypeInfo1_Returns in Hrun. unfold accounted in *.
    destruct (typeCache st !! mkKey typ ts) as [p |] eqn:Hkey.
    + destruct Hrun as [-> ->]. rewrite Hkey. simpl in *.
      split; [done |]. destruct Hacc as [Hgen Hok]. split; [lia |].
      intros c q Hin ->. apply elem_of_insert_inv in Hin as [[= ->] | Hin];
        [done | by eapply Hok].
    + destruct Hrun as (_ & Hgen' & Hr). destruct Hacc as [Hgen Hok].
      destruct r as [p | err]; simpl in *.
      * destruct Hr as (_ & -> & _). split; [done |]. split; [lia |].
        intros c q Hin ->. apply elem_of_insert_inv in Hin as [[= ->] | Hin];
          [done | by destruct (Hok _ q Hin)].
      * rewrite Hr. split; [done |]. split; [lia |].
        intros c q Hin ->. apply elem_of_insert_inv in Hin as [? | Hin];
          [done | by eapply Hok].
  - (* the caller has returned *)
    step_in Hstep. split; [done |]. by rewrite list_insert_id.
Qed.

Lemma run_callers_accounted fuel key before sched (pool : list (caller Ty))
    (st : State) pool' st' :
  Forall (calls key) pool ->
  accounted key before pool st ->
  run_callers fuel sched pool st = Returns pool' st' ->
  Forall (calls key) pool' /\ accounted key before pool' st'.
Proof.
  revert pool st. induction sched as [| i sched IH]; intros pool st Hall Hacc Hrun;
    simpl in Hrun.
  - by step_in Hrun.
  - destruct (pool !! i) as [c |] eqn:Hi; [| by eapply IH].
    step_as Hrun c' st1 Hstep.
    assert (Hc : calls key c).
    { eapply Forall_forall; [exact Hall |]. apply list_elem_of_lookup. eauto. }
    destruct (caller_step_accounted _ _ _ _ _ _ _ _ _ Hi Hc Hacc Hstep)
      as [Hc' Hacc'].
    eapply IH; [| exact Hacc' | exact Hrun].
    apply Forall_forall. intros x Hx.
    apply elem_of_insert_inv in Hx as [-> | Hx]; [done |].
    eapply Forall_forall; [exact Hall | done].
Qed.

Hypothesis makeDecoder_ok : forall typ ts, structs_only (makeDecoder typ ts).
Hypothesis makeWriter_ok : forall typ ts, structs_only (makeWriter typ ts).

Lemma run_callers_total sched (pool : list (caller Ty)) (st : State) :
  exists pool' st', run_callers (budget Ty) sched pool st = Returns pool' st'.
Proof.
  revert pool st. induction sched as [| i sched IH]; intros pool st; simpl.
  - by eexists _, _.
  - destruct (pool !! i) as [c |]; [| apply IH].
    assert (exists c' st1, caller_step (budget Ty) c st = Returns c' st1)
      as (c' & st1 & Hstep).
    { destruct c as [typ ts | typ ts | r]; unfold caller_step.
      - rewrite bind_cache_get.
        destruct (typeCache st !! mkKey typ ts); by eexists _, _.
      - destruct (cachedTypeInfo1_total makeDecoder makeWriter makeDecoder_ok
                    makeWriter_ok (budget Ty) typ ts st (missing_le_budget st))
          as (r & st1 & Hr).
        unfold bind. rewrite Hr. by eexists _, _.
      - by eexists _, _. }
    unfold bind. rewrite Hstep. apply IH.
Qed.

(** C9, as amended. Callers of [cachedTypeInfo] for one key that had no
    entry, run in any order of their atomic parts: the generator has run
    for the key once for each caller that returned an error, and once
    more if the key has an entry at the end, which is then what every
    caller that succeeded has returned. So when no caller fails and one
    has returned, the generator has run for the key exactly once. Every
    schedule runs to its end. *)
Theorem one_generation_per_entry fuel sched n typ ts (st : State) pool' st' :
  typeCache st !! mkKey typ ts = None ->
  run_callers fuel sched (replicate n (AtEntry typ ts)) st = Returns pool' st' ->
  generations (mkKey typ ts) st'
  = (generations (mkKey typ ts) st + failures pool'
     + match typeCache st' !! mkKey typ ts with Some _ => 1 | None => 0 end)%nat
  /\ (forall c q, c ∈ pool' -> c = Finished (Ok q) ->
        typeCache st' !! mkKey typ ts = Some q)
  /\ (failures pool' = 0%nat -> (exists c, c ∈ pool' /\ finished c = true) ->
      generations (mkKey typ ts) st' = S (generations (mkKey typ ts) st))
  /\ (forall sched0 n0 (st0 : State), exists pool0 st0',
        run_callers (budget Ty) sched0 (replicate n0 (AtEntry typ ts)) st0
        = Returns pool0 st0').
Proof.
  intros Hkey Hrun.
  destruct (run_callers_accounted fuel (mkKey typ ts)
              (generations (mkKey typ ts) st) sched
              (replicate n (AtEntry typ ts)) st pool' st') as [Hall Hacc].
  { apply Forall_forall. intros c Hc. by apply elem_of_replicate in Hc as [-> _]. }
  { unfold accounted. rewrite Hkey. split.
    - rewrite failures_at_entry. lia.
    - intros c q Hc ->. by apply elem_of_replicate in Hc as [? _]. }
  { done. }
  unfold accounted in Hacc.
  assert (Hok : forall c q, c ∈ pool' -> c = Finished (Ok q) ->
                typeCache st' !! mkKey typ ts = Some q).
  { intros c q Hc ->. destruct (typeCache st' !! mkKey typ ts) as [p |].
    - destruct Hacc as [_ Hp]. by rewrite (Hp _ q Hc).
    - destruct Hacc as [_ Hp]. by destruct (Hp _ q Hc). }
  split; [| split; [done | split]].
  - destruct (typeCache st' !! mkKey typ ts); destruct Hacc; lia.
  - intros Hnofail (c & Hc & Hfin).
    assert (exists q, c = Finished (Ok q)) as [q ->].
    { destruct c as [| | [q | err]]; try done; [by eauto |].
      exfalso. unfold failures in Hnofail. apply nil_length_inv in Hnofail.
      by eapply (filter_nil_not_elem_of _ _ _ Hnofail); [| exact Hc]. }
    rewrite (Hok _ q Hc eq_refl) in Hacc. destruct Hacc. lia.
  - intros sched0 n0 st0. apply run_callers_total.
Qed.

End CallerProperties.

(** ** The sample program *)

Lemma sample_make_structs_only typ ts : structs_only (Sample.make typ ts).
Proof.
  destruct typ; unfold Sample.make; simpl;
    repeat (constructor; try done; intros []).
Qed.

Lemma sample_make_propagates typ ts :
  type_Kind typ = Struct -> propagates (Sample.makeDecoder typ ts) typ.
Proof.
  intros Hk. unfold propagates, Sample.makeDecoder, Sample.make.
  simpl in Hk. rewrite Hk. eexists. split; [reflexivity |].
  intros err. by exists err.
Qed.


Local Close Scope Z_scope.

Lemma observe_Returns {A} (o : outcome (State Sample.ty Sample.codec Sample.codec) A)
    a entries objects keys :
  Sample.observe o = Some (a, entries, objects, keys) ->
  exists st, o = Returns a st
             /\ map_to_list (typeCache st) = entries
             /\ heap st = objects
             /\ generated st = keys.
Proof.
  destruct o as [a' st | |]; simpl; [| done | done].
  intros [= -> <- <- <-]. by exists st.
Qed.

Lemma summary_Returns {A} (o : outcome (State Sample.ty Sample.codec Sample.codec) A)
    a entries objects keys :
  Sample.summary o = Some (a, entries, objects, keys) ->
  exists st, o = Returns a st.
Proof.
  destruct o as [a' st | |]; simpl; [| done | done].
  intros [= -> _ _ _]. by exists st.
Qed.

Lemma lookup_entries (st : State Sample.ty Sample.codec Sample.codec) entries key p :
  map_to_list (typeCache st) = entries ->
  (key, p) ∈ entries -> typeCache st !! key = Some p.
Proof. intros <- Hin. by apply elem_of_map_to_list. Qed.

(** Resolving the sample types in a program that has not used the
    cache. *)

Example resolve_Simple :
  Sample.summary (Sample.resolve Sample.Simple tags_zero Sample.fresh)
  = Some (Ok 0, [(Sample.Uint64T, 2); (Sample.Simple, 0)], 4,
          [Sample.Simple; Sample.Uint64T]).
Proof. vm_compute. reflexivity. Qed.

Example resolve_Node :
  Sample.summary (Sample.resolve Sample.Node tags_zero Sample.fresh)
  = Some (Ok 0, [(Sample.Node, 0); (Sample.PtrNode, 2)], 4,
          [Sample.Node; Sample.PtrNode]).
Proof. vm_compute. reflexivity. Qed.

Example resolve_PtrNode :
  Sample.summary (Sample.resolve Sample.PtrNode tags_zero Sample.fresh)
  = Some (Ok 0, [(Sample.Node, 2); (Sample.PtrNode, 0)], 4,
          [Sample.PtrNode; Sample.Node]).
Proof. vm_compute. reflexivity. Qed.

Example resolve_Tree :
  Sample.summary (Sample.resolve Sample.Tree tags_zero Sample.fresh)
  = Some (Ok 0, [(Sample.Tree, 0); (Sample.Trees, 2)], 4,
          [Sample.Tree; Sample.Trees]).
Proof. vm_compute. reflexivity. Qed.

Example resolve_TailFirst :
  Sample.summary (Sample.resolve Sample.TailFirst tags_zero Sample.fresh)
  = Some (Failed (ErrTailPosition Sample.TailFirst "A"), [], 2,
          [Sample.TailFirst]).
Proof. vm_compute. reflexivity. Qed.


Example resolve_TailHidden :
  Sample.summary (Sample.resolve Sample.TailHidden tags_zero Sample.fresh)
  = Some (Failed (ErrTailPosition Sample.TailHidden "Rest"), [], 2,
          [Sample.TailHidden]).
Proof. vm_compute. reflexivity. Qed.

Example resolve_TailLast :
  Sample.summary (Sample.resolve Sample.TailLast tags_zero Sample.fresh)
  = Some (Ok 0,
          [(Sample.TailLast, 0); (Sample.Uint64T, 2); (Sample.Uint64s, 4)], 6,
          [Sample.TailLast; Sample.Uint64T; Sample.Uint64s]).
Proof. vm_compute. reflexivity. Qed.

Example resolve_Unknown :
  Sample.summary (Sample.resolve Sample.Unknown tags_zero Sample.fresh)
  = Some (Failed (ErrUnknownTag "bogus" Sample.Unknown "B"),
          [(Sample.Uint64T, 2)], 4, [Sample.Unknown; Sample.Uint64T]).
Proof. vm_compute. reflexivity. Qed.

Example resolve_Mixed :
  Sample.summary (Sample.resolve Sample.Mixed tags_zero Sample.fresh)
  = Some (Ok 0,
          [(Sample.Mixed, 0); (Sample.Node, 6); (Sample.Uint64T, 2);
           (Sample.PtrNode, 4); (Sample.PtrNode, 8)], 10,
          [Sample.Mixed; Sample.Uint64T; Sample.PtrNode; Sample.Node;
           Sample.PtrNode]).
Proof. vm_compute. reflexivity. Qed.

(** The generation for [Broken] fails on its channel after the one for
    [*Broken] has succeeded: [*Broken] keeps its entry, whose codec
    points to the dummy value of [Broken], which is in the cache no
    more. *)
Example resolve_Broken :
  Sample.observe (Sample.resolve Sample.Broken tags_zero Sample.fresh)
  = Some (Failed (ErrGenerator "rlp: type is not RLP-serializable"),
          [(mkKey Sample.PtrBroken tags_zero, 2)],
          [typeinfo_zero; typeinfo_zero;
           mkTypeinfo (Some (Sample.ElemCodec 0)) (Some (Sample.ElemCodec 0));
           mkTypeinfo (Some (Sample.ElemCodec 0)) (Some (Sample.ElemCodec 0));
           typeinfo_zero; typeinfo_zero],
          [mkKey Sample.Broken tags_zero; mkKey Sample.PtrBroken tags_zero;
           mkKey Sample.ChanT tags_zero]).
Proof. vm_compute. reflexivity. Qed.

Example resolve_ChanT :
  Sample.summary (Sample.resolve Sample.ChanT tags_zero Sample.fresh)
  = Some (Failed (ErrGenerator "rlp: type is not RLP-serializable"), [], 2,
          [Sample.ChanT]).
Proof. vm_compute. reflexivity. Qed.

Example observe_Node :
  Sample.observe (Sample.resolve Sample.Node tags_zero Sample.fresh)
  = Some (Ok 0,
          [(mkKey Sample.Node tags_zero, 0); (mkKey Sample.PtrNode tags_zero, 2)],
          [mkTypeinfo (Some (Sample.StructCodec [mkField 0%Z 2]))
                      (Some (Sample.StructCodec [mkField 0%Z 2]));
           mkTypeinfo (Some (Sample.StructCodec [mkField 0%Z 2]))
                      (Some (Sample.StructCodec [mkField 0%Z 2]));
           mkTypeinfo (Some (Sample.ElemCodec 0)) (Some (Sample.ElemCodec 0));
           mkTypeinfo (Some (Sample.ElemCodec 0)) (Some (Sample.ElemCodec 0))],
          [mkKey Sample.Node tags_zero; mkKey Sample.PtrNode tags_zero]).
Proof. vm_compute. reflexivity. Qed.

(** Resolving [*Node]: here the key of the field [Next] of [Node] is the
    key under generation, and its descriptor holds the entry of [*Node]
    itself, at address 0. *)
Example observe_PtrNode :
  Sample.observe (Sample.resolve Sample.PtrNode tags_zero Sample.fresh)
  = Some (Ok 0,
          [(mkKey Sample.Node tags_zero, 2); (mkKey Sample.PtrNode tags_zero, 0)],
          [mkTypeinfo (Some (Sample.ElemCodec 2)) (Some (Sample.ElemCodec 2));
           mkTypeinfo (Some (Sample.ElemCodec 2)) (Some (Sample.ElemCodec 2));
           mkTypeinfo (Some (Sample.StructCodec [mkField 0%Z 0]))
                      (Some (Sample.StructCodec [mkField 0%Z 0]));
           mkTypeinfo (Some (Sample.StructCodec [mkField 0%Z 0]))
                      (Some (Sample.StructCodec [mkField 0%Z 0]))],
          [mkKey Sample.PtrNode tags_zero; mkKey Sample.Node tags_zero]).
Proof. vm_compute. reflexivity. Qed.


(** Two callers of [Node], taking turns: the first to take the write
    lock generates, the second finds the entry. *)
Example callers_of_Node :
  Sample.summary
    (run_callers Sample.makeDecoder Sample.makeWriter 200 [0; 1; 0; 1]
       (replicate 2 (AtEntry Sample.Node tags_zero)) Sample.fresh)
  = Some ([Finished (Ok 0); Finished (Ok 0)],
          [(Sample.Node, 0); (Sample.PtrNode, 2)], 4,
          [Sample.Node; Sample.PtrNode]).
Proof. vm_compute. reflexivity. Qed.

(** Two callers of the channel type, one after the other. *)
Example callers_of_ChanT :
  Sample.observe
    (run_callers Sample.makeDecoder Sample.makeWriter 200 [0; 0; 1; 1]
       (replicate 2 (AtEntry Sample.ChanT tags_zero)) Sample.fresh)
  = Some ([Finished (Failed (ErrGenerator "rlp: type is not RLP-serializable"));
           Finished (Failed (ErrGenerator "rlp: type is not RLP-serializable"))],
          [],
          [typeinfo_zero; typeinfo_zero; typeinfo_zero; typeinfo_zero],
          [mkKey Sample.ChanT tags_zero; mkKey Sample.ChanT tags_zero]).
Proof. vm_compute. reflexivity. Qed.

(** *** The properties on the sample program *)

Lemma placeholder_stops_the_recursion_witness :
  let st := mkState {[mkKey Sample.Node tags_zero := 0]} [typeinfo_zero]
                    [mkKey Sample.Node tags_zero] in
  typeCache st !! mkKey Sample.Node tags_zero = Some 0
  /\ cachedTypeInfo1 Sample.makeDecoder Sample.makeWriter 3 Sample.Node
       tags_zero st = Returns (Ok 0) st
  /\ (forall A (g : gen Sample.ty A) r st',
        run_gen (cachedTypeInfo1 Sample.makeDecoder Sample.makeWriter 2) g st
        = Returns r st' ->
        typeCache st' !! mkKey Sample.Node tags_zero = Some 0
        /\ generations (mkKey Sample.Node tags_zero) st'
           = generations (mkKey Sample.Node tags_zero) st)
  /\ (forall typ0 ts0 (st0 : State Sample.ty Sample.codec Sample.codec),
        exists r st',
          cachedTypeInfo Sample.makeDecoder Sample.makeWriter
            (budget Sample.ty) typ0 ts0 st0 = Returns r st').
Proof.
  intros st.
  assert (Hp : typeCache st !! mkKey Sample.Node tags_zero = Some 0)
    by reflexivity.
  split; [exact Hp |].
  exact (placeholder_stops_the_recursion Sample.makeDecoder Sample.makeWriter
           sample_make_structs_only sample_make_structs_only
           2 Sample.Node tags_zero st 0 Hp).
Defined.

Lemma cache_entries_keep_their_identity_witness :
  exists st',
    Sample.resolve Sample.PtrNode tags_zero Sample.fresh = Returns (Ok 0) st'
    /\ (forall key p, typeCache Sample.fresh !! key = Some p ->
                      typeCache st' !! key = Some p)
    /\ (forall fuel0 typ0 ts0 (s : State Sample.ty Sample.codec Sample.codec) r0 s',
          cachedTypeInfo1 Sample.makeDecoder Sample.makeWriter fuel0 typ0 ts0 s
          = Returns r0 s' ->
          forall key p, typeCache s !! key = Some p -> typeCache s' !! key = Some p)
    /\ (forall A (g : gen Sample.ty A) fuel0
               (s : State Sample.ty Sample.codec Sample.codec) r0 s',
          run_gen (cachedTypeInfo1 Sample.makeDecoder Sample.makeWriter fuel0) g s
          = Returns r0 s' ->
          forall key p, typeCache s !! key = Some p -> typeCache s' !! key = Some p)
    /\ (forall p, @Ok Sample.ty ptr 0 = Ok p ->
          typeCache Sample.fresh !! mkKey Sample.PtrNode tags_zero = None ->
          p = length (heap Sample.fresh)
          /\ typeCache st' !! mkKey Sample.PtrNode tags_zero = Some p
          /\ exists fuel0 d w (s1 s2 : State Sample.ty Sample.codec Sample.codec),
               200 = S fuel0
               /\ run_gen (cachedTypeInfo1 Sample.makeDecoder Sample.makeWriter fuel0)
                    (Sample.makeDecoder Sample.PtrNode tags_zero)
                    (generation_started Sample.PtrNode tags_zero
                       (dummy_installed (mkKey Sample.PtrNode tags_zero)
                          Sample.fresh))
                  = Returns (Ok d) s1
               /\ run_gen (cachedTypeInfo1 Sample.makeDecoder Sample.makeWriter fuel0)
                    (Sample.makeWriter Sample.PtrNode tags_zero)
                    (object_set (S p) (mkTypeinfo (Some d) None) s1)
                  = Returns (Ok w) s2
               /\ typeCache s1 !! mkKey Sample.PtrNode tags_zero = Some p
               /\ typeCache s2 !! mkKey Sample.PtrNode tags_zero = Some p
               /\ heap s1 !! p = Some typeinfo_zero
               /\ heap s2 !! p = Some typeinfo_zero
               /\ st' = object_set p (mkTypeinfo (Some d) (Some w))
                          (object_set (S p) (mkTypeinfo (Some d) (Some w)) s2)
               /\ heap st' !! p = Some (mkTypeinfo (Some d) (Some w)))
    /\ (forall err, @Ok Sample.ty ptr 0 = Failed err ->
          typeCache Sample.fresh !! mkKey Sample.PtrNode tags_zero = None
          /\ typeCache st' !! mkKey Sample.PtrNode tags_zero = None
          /\ heap st' !! length (heap Sample.fresh) = Some typeinfo_zero
          /\ forall fuel' (st'' : State Sample.ty Sample.codec Sample.codec) p' s3,
               extends st' st'' ->
               typeCache st'' !! mkKey Sample.PtrNode tags_zero = None ->
               cachedTypeInfo Sample.makeDecoder Sample.makeWriter fuel'
                 Sample.PtrNode tags_zero st'' = Returns (Ok p') s3 ->
               length (heap Sample.fresh) < p')
    /\ (forall fuel0 typ0 (s : State Sample.ty Sample.codec Sample.codec)
               fields s' i f ts0 p,
          structFields (cachedTypeInfo1 Sample.makeDecoder Sample.makeWriter fuel0)
            typ0 s = Returns (Ok fields) s' ->
          Field typ0 (Z.of_nat i) = Some f -> PkgPath f = "" ->
          parseStructTag typ0 (Z.of_nat i) = Some (ts0, None) ->
          ignored ts0 = false ->
          typeCache s !! mkKey (Typ f) ts0 = Some p ->
          mkField (Z.of_nat i) p ∈ fields)
    /\ (forall fuel0 typ0 ts1 q (s : State Sample.ty Sample.codec Sample.codec)
               fields s',
          wf_cache s ->
          typeCache s !! mkKey typ0 ts1 = Some q ->
          structFields (cachedTypeInfo1 Sample.makeDecoder Sample.makeWriter fuel0)
            typ0 s = Returns (Ok fields) s' ->
          forall fd, fd ∈ fields ->
            exists i f ts0,
              index fd = Z.of_nat i
              /\ Field typ0 (Z.of_nat i) = Some f
              /\ parseStructTag typ0 (Z.of_nat i) = Some (ts0, None)
              /\ typeCache s' !! mkKey (Typ f) ts0 = Some (info fd)
              /\ (info fd = q <-> mkKey (Typ f) ts0 = mkKey typ0 ts1)
              /\ (type_Kind (Typ f) <> Struct -> info fd <> q)).
Proof.
  destruct (summary_Returns _ _ _ _ _ resolve_PtrNode) as [st' Hrun].
  exists st'. split; [exact Hrun |].
  exact (cache_entries_keep_their_identity Sample.makeDecoder Sample.makeWriter
           200 Sample.PtrNode tags_zero Sample.fresh (Ok 0) st' Hrun).
Defined.

(** Resolving [Node]: its codec holds the descriptor of the field [Next],
    the field through which [Node] refers to itself. The codec info of
    that descriptor is the entry of [*Node], at address 2; the entry of
    [Node] itself is at address 0, and it is the codec of [*Node] that
    points to it. *)
Lemma recursive_field_of_Node :
  exists st',
    Sample.resolve Sample.Node tags_zero Sample.fresh = Returns (Ok 0) st'
    /\ typeCache st' !! mkKey Sample.Node tags_zero = Some 0
    /\ Field Sample.Node 0%Z = Some (Sample.exported "Next" Sample.PtrNode "")
    /\ heap st' !! 0
       = Some (mkTypeinfo (Some (Sample.StructCodec [mkField 0%Z 2]))
                          (Some (Sample.StructCodec [mkField 0%Z 2])))
    /\ typeCache st' !! mkKey Sample.PtrNode tags_zero = Some 2
    /\ heap st' !! 2
       = Some (mkTypeinfo (Some (Sample.ElemCodec 0)) (Some (Sample.ElemCodec 0)))
    /\ info (mkField 0%Z 2) <> 0.
Proof.
  destruct (observe_Returns _ _ _ _ _ observe_Node)
    as (st' & Hrun & Hentries & Hheap & _).
  exists st'. split; [exact Hrun |]. rewrite Hheap.
  split; [| split; [reflexivity | split; [reflexivity | split;
    [| split; [reflexivity | discriminate]]]]].
  - eapply lookup_entries; [exact Hentries |]. apply list_elem_of_here.
  - eapply lookup_entries; [exact Hentries |].
    apply list_elem_of_further, list_elem_of_here.
Qed.

Lemma failed_generation_is_retried_witness :
  let key := mkKey Sample.ChanT tags_zero in
  let err := ErrGenerator "rlp: type is not RLP-serializable" in
  let s : State Sample.ty Sample.codec Sample.codec :=
    generation_started Sample.ChanT tags_zero (dummy_installed key Sample.fresh) in
  typeCache Sample.fresh !! key = None
  /\ genTypeInfo Sample.makeDecoder Sample.makeWriter
       (cachedTypeInfo1 Sample.makeDecoder Sample.makeWriter 199)
       Sample.ChanT tags_zero (dummy_installed key Sample.fresh)
     = Returns (Failed err) s
  /\ typeCache s !! key = Some 0
  /\ Sample.resolve Sample.ChanT tags_zero Sample.fresh
     = Returns (Failed err) (dummy_removed key s)
  /\ typeCache (dummy_removed key s) !! key = None
  /\ generations key (dummy_removed key s) = S (generations key Sample.fresh)
  /\ exists r st'',
       cachedTypeInfo Sample.makeDecoder Sample.makeWriter (budget Sample.ty)
         Sample.ChanT tags_zero (dummy_removed key s) = Returns r st''
       /\ generations key st'' = S (generations key (dummy_removed key s)).
Proof.
  intros key err s.
  assert (Hkey : typeCache Sample.fresh !! key = None) by reflexivity.
  destruct (failed_generation_is_retried Sample.makeDecoder Sample.makeWriter
              sample_make_structs_only sample_make_structs_only
              199 Sample.ChanT tags_zero Sample.fresh Hkey)
    as (Hfail & Hdec & _ & _ & Hretry).
  assert (Hgen : genTypeInfo Sample.makeDecoder Sample.makeWriter
                   (cachedTypeInfo1 Sample.makeDecoder Sample.makeWriter 199)
                   Sample.ChanT tags_zero (dummy_installed key Sample.fresh)
                 = Returns (Failed err) s).
  { apply Hdec. reflexivity. }
  destruct (Hfail err s Hgen) as (Hstale & Hnone & Hrun).
  assert (Hresolve : Sample.resolve Sample.ChanT tags_zero Sample.fresh
                     = Returns (Failed err) (dummy_removed key s)).
  { apply Hrun. lia. }
  destruct (Hretry 200 err (dummy_removed key s) Hresolve)
    as (_ & Hgens & Hnext).
  split; [exact Hkey |]. split; [exact Hgen |]. split; [exact Hstale |].
  split; [exact Hresolve |]. split; [exact Hnone |]. split; [exact Hgens |].
  exact Hnext.
Defined.

Lemma second_resolve_is_a_hit_witness :
  exists st',
    Sample.resolve Sample.Simple tags_zero Sample.fresh = Returns (Ok 0) st'
    /\ typeCache st' !! mkKey Sample.Simple tags_zero = Some 0
    /\ forall fuel' (st'' : State Sample.ty Sample.codec Sample.codec),
         extends st' st'' ->
         cachedTypeInfo Sample.makeDecoder Sample.makeWriter fuel'
           Sample.Simple tags_zero st'' = Returns (Ok 0) st''
         /\ generations (mkKey Sample.Simple tags_zero) st''
            = generations (mkKey Sample.Simple tags_zero) st'.
Proof.
  destruct (summary_Returns _ _ _ _ _ resolve_Simple) as [st' Hrun].
  exists st'. split; [exact Hrun |].
  exact (second_resolve_is_a_hit Sample.makeDecoder Sample.makeWriter
           200 Sample.Simple tags_zero Sample.fresh 0 st' Hrun).
Defined.




Lemma structFields_enumerates_witness :
  type_Kind Sample.Mixed = Struct
  /\ (forall (rec : Sample.ty -> tags -> @M Sample.ty _ _ Sample.codec Sample.codec
                                           (result Sample.ty ptr))
             (st : State Sample.ty Sample.codec Sample.codec),
        structFields rec Sample.Mixed st = enumerate_spec rec Sample.Mixed st)
  /\ (forall fuel (st : State Sample.ty Sample.codec Sample.codec) fields st',
        structFields (cachedTypeInfo1 Sample.makeDecoder Sample.makeWriter fuel)
          Sample.Mixed st = Returns (Ok fields) st' ->
        map index fields
        = map Z.of_nat (filter (fun i => retained Sample.Mixed i)
                               (seq 0 (length (type_fields Sample.Mixed))))
        /\ forall fd, fd ∈ fields ->
             exists i f ts,
               index fd = Z.of_nat i
               /\ Field Sample.Mixed (Z.of_nat i) = Some f
               /\ parseStructTag Sample.Mixed (Z.of_nat i) = Some (ts, None)
               /\ typeCache st' !! mkKey (Typ f) ts = Some (info fd))
  /\ (forall fuel (st : State Sample.ty Sample.codec Sample.codec) r st' i f ts err,
        Field Sample.Mixed (Z.of_nat i) = Some f -> PkgPath f = "" ->
        parseStructTag Sample.Mixed (Z.of_nat i) = Some (ts, Some err) ->
        structFields (cachedTypeInfo1 Sample.makeDecoder Sample.makeWriter fuel)
          Sample.Mixed st = Returns r st' ->
        exists err', r = Failed err')
  /\ (forall st : State Sample.ty Sample.codec Sample.codec, exists r st',
        structFields
          (cachedTypeInfo1 Sample.makeDecoder Sample.makeWriter (budget Sample.ty))
          Sample.Mixed st = Returns r st').
Proof.
  split; [reflexivity |].
  exact (structFields_enumerates Sample.makeDecoder Sample.makeWriter
           sample_make_structs_only sample_make_structs_only
           Sample.Mixed eq_refl).
Defined.

(** The fields of [Mixed] that are retained: [A] and [D]. *)
Example retained_of_Mixed :
  filter (fun i => retained Sample.Mixed i) (seq 0 4) = [0; 3].
Proof. vm_compute. reflexivity. Qed.

Lemma one_generation_per_entry_witness :
  let pool' := [Finished (@Ok Sample.ty ptr 0); Finished (Ok 0)] in
  exists st',
    typeCache Sample.fresh !! mkKey Sample.Node tags_zero = None
    /\ run_callers Sample.makeDecoder Sample.makeWriter 200 [0; 1; 0; 1]
         (replicate 2 (AtEntry Sample.Node tags_zero)) Sample.fresh
       = Returns pool' st'
    /\ generations (mkKey Sample.Node tags_zero) st'
       = generations (mkKey Sample.Node tags_zero) Sample.fresh + failures pool'
         + match typeCache st' !! mkKey Sample.Node tags_zero with
           | Some _ => 1
           | None => 0
           end
    /\ (forall c q, c ∈ pool' -> c = Finished (Ok q) ->
          typeCache st' !! mkKey Sample.Node tags_zero = Some q)
    /\ (failures pool' = 0 -> (exists c, c ∈ pool' /\ finished c = true) ->
        generations (mkKey Sample.Node tags_zero) st'
        = S (generations (mkKey Sample.Node tags_zero) Sample.fresh))
    /\ (forall sched0 n0 (st0 : State Sample.ty Sample.codec Sample.codec),
          exists pool0 st0',
            run_callers Sample.makeDecoder Sample.makeWriter (budget Sample.ty)
              sched0 (replicate n0 (AtEntry Sample.Node tags_zero)) st0
            = Returns pool0 st0').
Proof.
  intros pool'.
  destruct (summary_Returns _ _ _ _ _ callers_of_Node) as [st' Hrun].
  exists st'. split; [reflexivity |]. split; [exact Hrun |].
  exact (one_generation_per_entry Sample.makeDecoder Sample.makeWriter
           sample_make_structs_only sample_make_structs_only
           200 [0; 1; 0; 1] 2 Sample.Node tags_zero Sample.fresh pool' st'
           eq_refl Hrun).
Defined.

(** Two callers resolve the channel type, one after the other. Both
    generations fail: the generator has run twice for the one key. *)
Lemma failing_key_is_generated_again :
  exists st',
    run_callers Sample.makeDecoder Sample.makeWriter 200 [0; 0; 1; 1]
      (replicate 2 (AtEntry Sample.ChanT tags_zero)) Sample.fresh
    = Returns
        [Finished (Failed (ErrGenerator "rlp: type is not RLP-serializable"));
         Finished (Failed (ErrGenerator "rlp: type is not RLP-serializable"))]
        st'
    /\ typeCache Sample.fresh !! mkKey Sample.ChanT tags_zero = None
    /\ generations (mkKey Sample.ChanT tags_zero) Sample.fresh = 0
    /\ generations (mkKey Sample.ChanT tags_zero) st' = 2.
Proof.
  destruct (observe_Returns _ _ _ _ _ callers_of_ChanT)
    as (st' & Hrun & _ & _ & Hgen).
  exists st'. split; [exact Hrun |].
  split; [reflexivity |]. split; [reflexivity |].
  unfold generations. rewrite Hgen. reflexivity.
Qed.

(** * Further properties of the cache *)

(** ** Entries are finished when a call returns *)

Section Settling.
Context `{ReflectType Ty} {decoder writer : Type}.
Variable makeDecoder : Ty -> tags -> gen Ty decoder.
Variable makeWriter : Ty -> tags -> gen Ty writer.
Local Abbreviation State := (State Ty decoder writer).
Local Abbreviation M := (@M Ty _ _ decoder writer).

Lemma extends_length (st st' : State) :
  extends st st' -> length (heap st) <= length (heap st').
Proof. intros [_ h _ _ _]. by apply prefix_length. Qed.

Lemma complete_at_extends (st st' : State) p :
  extends st st' -> complete_at st p -> complete_at st' p.
Proof. intros Hext (d & w & Hp). exists d, w. by eapply extends_load. Qed.

Lemma settles_above_refl n (st : State) : settles_above n st st.
Proof. intros key p Hp Hnone. congruence. Qed.

Lemma settles_above_le n m (st st' : State) :
  n <= m -> settles_above m st st' -> settles_above n st st'.
Proof. intros Hle Hs key p Hp Hnone. destruct (Hs key p Hp Hnone). split; [lia | done]. Qed.

Lemma settles_above_trans n (st1 st2 st3 : State) :
  extends st2 st3 -> n <= length (heap st2) ->
  settles_above n st1 st2 -> settles_above (length (heap st2)) st2 st3 ->
  settles_above n st1 st3.
Proof.
  intros Hext Hn H12 H23 key p Hp Hnone.
  destruct (typeCache st2 !! key) as [q |] eqn:Hq.
  - rewrite (extends_lookup _ _ _ _ Hext Hq) in Hp. injection Hp as <-.
    destruct (H12 key q Hq Hnone) as [Hle Hc].
    split; [done | by eapply complete_at_extends].
  - destruct (H23 key p Hp Hq) as [Hle Hc]. split; [lia | done].
Qed.

(** A store into an object below [n] leaves the entries from [n] on as
    they are. *)
Lemma settles_above_store n (st st' : State) q (v : typeinfo decoder writer) :
  q < n -> settles_above n st st' ->
  settles_above n st
    (mkState (typeCache st') (<[q := v]> (heap st')) (generated st')).
Proof.
  intros Hq Hs key p Hp Hnone. simpl in Hp.
  destruct (Hs key p Hp Hnone) as [Hle (d & w & Hc)].
  split; [done |]. exists d, w. simpl.
  rewrite list_lookup_insert_ne by lia. done.
Qed.

Section Calls.
Variable rec : Ty -> tags -> M (result Ty ptr).
Hypothesis rec_extends : forall typ ts (st : State) r st',
  rec typ ts st = Returns r st' -> extends st st'.
Hypothesis rec_settles : forall typ ts (st : State) r st',
  rec typ ts st = Returns r st' -> settles_above (length (heap st)) st st'.

Lemma structFields_loop_settles typ todo acc (st : State) r st' :
  structFields_loop rec typ todo acc st = Returns r st' ->
  settles_above (length (heap st)) st st'.
Proof.
  revert acc st. induction todo as [| i todo IH]; intros acc st Hrun;
    simpl in Hrun.
  - step_in Hrun. apply settles_above_refl.
  - destruct (Field typ (Z.of_nat i)) as [f |]; [| discriminate].
    destruct (String.eqb (PkgPath f) ""); [| by eapply IH].
    destruct (parseStructTag typ (Z.of_nat i)) as [[ts [err |]] |];
      [| | discriminate].
    + step_in Hrun. apply settles_above_refl.
    + destruct (ignored ts); [by eapply IH |].
      step_as Hrun a s1 Hrec.
      pose proof (rec_extends _ _ _ _ _ Hrec) as Hext1.
      pose proof (rec_settles _ _ _ _ _ Hrec) as Hs1.
      destruct a as [p | err]; [| step_in Hrun; done].
      eapply settles_above_trans; [| | exact Hs1 | by eapply IH].
      * by eapply structFields_loop_extends.
      * by apply extends_length.
Qed.

Lemma structFields_settles typ (st : State) r st' :
  structFields rec typ st = Returns r st' ->
  settles_above (length (heap st)) st st'.
Proof.
  unfold structFields. destruct (NumField typ); [| discriminate].
  apply structFields_loop_settles.
Qed.

Lemma run_gen_settles {A} (g : gen Ty A) (st : State) r st' :
  run_gen rec g st = Returns r st' ->
  settles_above (length (heap st)) st st'.
Proof.
  revert st. induction g as [a | err | typ ts k IH | typ k IH];
    intros st Hrun; simpl in Hrun.
  - step_in Hrun. apply settles_above_refl.
  - step_in Hrun. apply settles_above_refl.
  - step_as Hrun a s1 Hrec.
    eapply settles_above_trans; [| | by eapply rec_settles | by eapply IH].
    + by eapply run_gen_extends.
    + apply extends_length. by eapply rec_extends.
  - step_as Hrun a s1 Hrec.
    eapply settles_above_trans;
      [| | by eapply structFields_settles | by eapply IH].
    + by eapply run_gen_extends.
    + apply extends_length. by eapply structFields_extends.
Qed.

(** The entries that [genTypeInfo] leaves are above its own object. *)
Lemma genTypeInfo_settles typ ts (st : State) r st' :
  genTypeInfo makeDecoder makeWriter rec typ ts st = Returns r st' ->
  settles_above (S (length (heap st))) st st'.
Proof.
  unfold genTypeInfo. intros Hrun.
  rewrite bind_note_generation, bind_new_typeinfo in Hrun. simpl in Hrun.
  set (s1 := mkState _ _ _) in Hrun.
  assert (Hlen1 : length (heap s1) = S (length (heap st))).
  { simpl. rewrite length_app. simpl. lia. }
  assert (L1 : heap s1 !! length (heap st) = Some typeinfo_zero).
  { simpl. by rewrite lookup_app_r, Nat.sub_diag. }
  assert (Hbase : forall s, settles_above (S (length (heap st))) s1 s ->
                            settles_above (S (length (heap st))) st s).
  { intros s Hs key p Hp Hnone. by apply (Hs key p Hp). }
  step_as Hrun a s2 Hdec.
  pose proof (run_gen_extends _ rec_extends _ _ _ _ Hdec) as E2.
  pose proof (run_gen_settles _ _ _ _ Hdec) as S2. rewrite Hlen1 in S2.
  destruct a as [dec | err]; [| step_in Hrun; by apply Hbase].
  pose proof (extends_load _ _ _ _ E2 L1) as L2.
  rewrite (bind_load _ _ _ _ L2), (bind_store _ _ _ _ _ L2) in Hrun.
  simpl in Hrun. set (s3 := mkState _ _ _) in Hrun.
  assert (S3 : settles_above (S (length (heap st))) s1 s3).
  { apply settles_above_store; [lia | done]. }
  assert (Hlen3 : S (length (heap st)) <= length (heap s3)).
  { simpl. rewrite length_insert. apply extends_length in E2. lia. }
  assert (L3 : heap s3 !! length (heap st) = Some (mkTypeinfo (Some dec) None)).
  { simpl. apply list_lookup_insert_eq. by eapply lookup_lt_Some. }
  step_as Hrun a s4 Hwr.
  pose proof (run_gen_extends _ rec_extends _ _ _ _ Hwr) as E4.
  pose proof (run_gen_settles _ _ _ _ Hwr) as S4.
  assert (S14 : settles_above (S (length (heap st))) s1 s4).
  { eapply settles_above_trans; [exact E4 | exact Hlen3 | exact S3 | exact S4]. }
  destruct a as [wr | err]; [| step_in Hrun; by apply Hbase].
  pose proof (extends_load _ _ _ _ E4 L3) as L4.
  rewrite (bind_load _ _ _ _ L4), (bind_store _ _ _ _ _ L4) in Hrun.
  simpl in Hrun. step_in Hrun.
  apply Hbase, settles_above_store; [lia | done].
Qed.

Lemma cachedTypeInfo1_body_settles typ ts (st : State) r st' :
  cachedTypeInfo1_body makeDecoder makeWriter rec typ ts st = Returns r st' ->
  settles_above (length (heap st)) st st'.
Proof.
  intros Hrun.
  pose proof (cachedTypeInfo1_body_Returns _ _ _ rec_extends _ _ _ _ _ Hrun)
    as Hinv.
  revert Hrun. unfold cachedTypeInfo1_body. rewrite bind_cache_get.
  revert Hinv. destruct (typeCache st !! mkKey typ ts) as [p0 |] eqn:Hkey; intros Hinv.
  { destruct Hinv as [_ ->]. intros _. apply settles_above_refl. }
  destruct Hinv as (Hext & _ & Hr).
  rewrite bind_new_typeinfo, bind_cache_put. simpl. intros Hrun.
  step_as Hrun a s2 Hgen.
  pose proof (genTypeInfo_settles _ _ _ _ _ Hgen) as S2. simpl in S2.
  rewrite length_app in S2. simpl in S2.
  pose proof (genTypeInfo_Returns _ _ _ rec_extends _ _ _ _ _ Hgen) as [E2 Hinfo].
  pose proof (extends_lookup _ _ (mkKey typ ts) (length (heap st)) E2
                (lookup_insert_eq _ _ _)) as K2.
  destruct a as [info | err].
  - destruct (Hinfo info eq_refl) as (-> & d & w & Hv).
    rewrite bind_cache_get, K2 in Hrun.
    rewrite (bind_load _ _ _ _ Hv) in Hrun.
    assert (is_Some (heap s2 !! length (heap st))) as [v0 Hv0].
    { apply lookup_lt_is_Some. apply extends_length in E2. simpl in E2.
      rewrite length_app in E2. simpl in E2. lia. }
    rewrite (bind_store _ _ _ _ _ Hv0) in Hrun. step_in Hrun.
    intros key p Hp Hnone. simpl in Hp.
    destruct (decide (key = mkKey typ ts)) as [-> | Hne].
    + rewrite K2 in Hp. injection Hp as <-. split; [done |].
      exists d, w. simpl. apply list_lookup_insert_eq. by eapply lookup_lt_Some.
    + destruct (S2 key p Hp) as [Hle (d' & w' & Hc')].
      { simpl. by rewrite lookup_insert_ne. }
      split; [lia |]. exists d', w'. simpl.
      rewrite list_lookup_insert_ne by lia. done.
  - rewrite bind_cache_delete in Hrun. step_in Hrun.
    intros key p Hp Hnone. simpl in Hp.
    apply lookup_delete_Some in Hp as [Hne Hp].
    destruct (S2 key p Hp) as [Hle Hc].
    { simpl. by rewrite lookup_insert_ne. }
    split; [lia | exact Hc].
Qed.

End Calls.

Lemma cachedTypeInfo1_settles fuel typ ts (st : State) r st' :
  cachedTypeInfo1 makeDecoder makeWriter fuel typ ts st = Returns r st' ->
  settles_above (length (heap st)) st st'.
Proof.
  revert typ ts st r st'. induction fuel as [| fuel IH];
    intros typ ts st r st' Hrun; [discriminate |].
  simpl in Hrun. eapply cachedTypeInfo1_body_settles; [| exact IH | exact Hrun].
  apply cachedTypeInfo1_extends.
Qed.

Lemma all_complete_step (st st' : State) :
  extends st st' -> settles_above (length (heap st)) st st' ->
  all_complete st -> all_complete st'.
Proof.
  intros Hext Hs Hall key p Hp.
  destruct (typeCache st !! key) as [q |] eqn:Hq.
  - rewrite (extends_lookup _ _ _ _ Hext Hq) in Hp. injection Hp as <-.
    eapply complete_at_extends; [exact Hext | by eapply Hall].
  - by destruct (Hs key p Hp Hq).
Qed.

(** X1. A caller is never given a dummy value. From a state in which
    every entry of the cache is finished, as the empty cache is, a
    resolve that returns leaves every entry finished, and the pointer it
    returns on success points to a finished codec info. *)
Theorem resolve_returns_finished_entries fuel typ ts (st : State) r st' :
  all_complete st ->
  cachedTypeInfo makeDecoder makeWriter fuel typ ts st = Returns r st' ->
  all_complete st'
  /\ forall p, r = Ok p ->
       typeCache st' !! mkKey typ ts = Some p /\ complete_at st' p.
Proof.
  intros Hall Hrun.
  assert (Hall' : all_complete st').
  { pose proof (cachedTypeInfo_extends _ _ _ _ _ _ _ _ Hrun) as Hext.
    rewrite cachedTypeInfo_unfold in Hrun.
    destruct (typeCache st !! mkKey typ ts) as [q |].
    - by injection Hrun as _ <-.
    - eapply all_complete_step; [exact Hext | | exact Hall].
      by eapply cachedTypeInfo1_settles. }
  split; [exact Hall' |]. intros p ->.
  assert (Hp : typeCache st' !! mkKey typ ts = Some p).
  { apply cachedTypeInfo_Returns in Hrun.
    destruct (typeCache st !! mkKey typ ts) eqn:Hkey.
    - destruct Hrun as [[= ->] ->]. done.
    - tauto. }
  split; [exact Hp | by eapply Hall'].
Qed.

End Settling.

(** ** Entries stay apart *)

Section Apart.
Context `{ReflectType Ty} {decoder writer : Type}.
Variable makeDecoder : Ty -> tags -> gen Ty decoder.
Variable makeWriter : Ty -> tags -> gen Ty writer.
Local Abbreviation State := (State Ty decoder writer).

(** X2. Every entry of the cache points to an allocated object and no
    two keys share one: the codec info of a type under one set of tags is
    another object than that of the same type under other tags. Every
    resolve keeps this, and on success the pointer it returns belongs to
    its own key only. *)
Theorem resolve_keeps_entries_apart fuel typ ts (st : State) r st' :
  wf_cache st ->
  cachedTypeInfo makeDecoder makeWriter fuel typ ts st = Returns r st' ->
  wf_cache st'
  /\ forall p key', r = Ok p -> typeCache st' !! key' = Some p ->
                    key' = mkKey typ ts.
Proof.
  intros Hwf Hrun.
  assert (Hwf' : wf_cache st').
  { rewrite cachedTypeInfo_unfold in Hrun.
    destruct (typeCache st !! mkKey typ ts).
    - by injection Hrun as _ <-.
    - by eapply cachedTypeInfo1_wf. }
  split; [exact Hwf' |]. intros p key' -> Hp'.
  assert (Hp : typeCache st' !! mkKey typ ts = Some p).
  { apply cachedTypeInfo_Returns in Hrun.
    destruct (typeCache st !! mkKey typ ts) eqn:Hkey.
    - destruct Hrun as [[= ->] ->]. done.
    - tauto. }
  destruct Hwf' as [_ Hinj]. by eapply Hinj.
Qed.

End Apart.

(** ** What callers can rely on *)

Section Reliance.
Context `{ReflectType Ty} {decoder writer : Type}.
Variable makeDecoder : Ty -> tags -> gen Ty decoder.
Variable makeWriter : Ty -> tags -> gen Ty writer.
Local Abbreviation State := (State Ty decoder writer).
Local Abbreviation M := (@M Ty _ _ decoder writer).

Lemma caller_step_Returns fuel (c : caller Ty) (st : State) c' st' :
  caller_step makeDecoder makeWriter fuel c st = Returns c' st' ->
  match c with
  | AtEntry typ ts =>
      st' = st
      /\ c' = match typeCache st !! mkKey typ ts with
              | Some p => Finished (Ok p)
              | None => AtLock typ ts
              end
  | AtLock typ ts =>
      exists r, cachedTypeInfo1 makeDecoder makeWriter fuel typ ts st
                = Returns r st'
                /\ c' = Finished r
  | Finished r => st' = st /\ c' = Finished r
  end.
Proof.
  destruct c as [typ ts | typ ts | r]; unfold caller_step; intros Hstep.
  - rewrite bind_cache_get in Hstep.
    destruct (typeCache st !! mkKey typ ts); by step_in Hstep.
  - step_as Hstep r s1 Hrun. step_in Hstep. eauto.
  - by step_in Hstep.
Qed.

Lemma caller_step_extends fuel (c : caller Ty) (st : State) c' st' :
  caller_step makeDecoder makeWriter fuel c st = Returns c' st' ->
  extends st st'.
Proof.
  intros Hstep. apply caller_step_Returns in Hstep.
  destruct c as [typ ts | typ ts | r].
  - destruct Hstep as [-> _]. apply extends_refl.
  - destruct Hstep as (r & Hrun & _). by eapply cachedTypeInfo1_extends.
  - destruct Hstep as [-> _]. apply extends_refl.
Qed.

Lemma run_callers_extends fuel sched (pool : list (caller Ty)) (st : State)
    pool' st' :
  run_callers makeDecoder makeWriter fuel sched pool st = Returns pool' st' ->
  extends st st'.
Proof.
  revert pool st. induction sched as [| i sched IH]; intros pool st Hrun;
    simpl in Hrun.
  - step_in Hrun. apply extends_refl.
  - destruct (pool !! i) as [c |]; [| by eapply IH].
    step_as Hrun c' s1 Hstep.
    eapply extends_trans; [by eapply caller_step_extends | by eapply IH].
Qed.

(** X3. What a resolve has returned stays as it is. Whatever callers run
    afterwards, in whatever order, every entry of the cache keeps its
    pointer, every typeinfo object that existed keeps its contents, and
    no key that had an entry is generated again. *)
Theorem later_callers_change_nothing fuel sched (pool : list (caller Ty))
    (st : State) pool' st' :
  run_callers makeDecoder makeWriter fuel sched pool st = Returns pool' st' ->
  (forall key p, typeCache st !! key = Some p -> typeCache st' !! key = Some p)
  /\ (forall p v, heap st !! p = Some v -> heap st' !! p = Some v)
  /\ (forall key, is_Some (typeCache st !! key) ->
                  generations key st' = generations key st).
Proof.
  intros Hrun. apply run_callers_extends in Hrun. split; [| split].
  - intros key p. by apply extends_lookup.
  - intros p v. by apply extends_load.
  - apply (extends_present _ _ Hrun).
Qed.

Lemma caller_step_complete fuel (c : caller Ty) (st : State) c' st' :
  all_complete st ->
  caller_step makeDecoder makeWriter fuel c st = Returns c' st' ->
  all_complete st'
  /\ forall p, returned c' p -> returned c p \/ complete_at st' p.
Proof.
  intros Hall Hstep. apply caller_step_Returns in Hstep.
  destruct c as [typ ts | typ ts | r].
  - destruct Hstep as [-> ->]. split; [done |]. intros p Hp. right.
    destruct (typeCache st !! mkKey typ ts) as [q |] eqn:Hq; [| done].
    injection Hp as <-. by eapply Hall.
  - destruct Hstep as (r & Hrun & ->).
    pose proof (cachedTypeInfo1_extends _ _ _ _ _ _ _ _ Hrun) as Hext.
    pose proof (cachedTypeInfo1_settles _ _ _ _ _ _ _ _ Hrun) as Hs.
    assert (Hall' : all_complete st') by (by eapply all_complete_step).
    split; [done |]. intros p [= ->]. right.
    eapply Hall', cachedTypeInfo1_cached, Hrun.
  - destruct Hstep as [-> ->]. split; [done |]. intros p Hp. by left.
Qed.

(** X4. Callers that run in any order are never given a dummy value.
    From a state in which every entry is finished, with no caller that
    has returned yet, every entry is finished at the end and every
    pointer a caller has returned points to a finished codec info. *)
Theorem callers_receive_finished_entries fuel sched (pool : list (caller Ty))
    (st : State) pool' st' :
  all_complete st ->
  (forall c, c ∈ pool -> finished c = false) ->
  run_callers makeDecoder makeWriter fuel sched pool st = Returns pool' st' ->
  all_complete st'
  /\ forall c p, c ∈ pool' -> returned c p -> complete_at st' p.
Proof.
  intros Hall Hnone Hrun.
  assert (Hgen : forall sched (pool : list (caller Ty)) (st : State) pool' st',
    all_complete st ->
    (forall c p, c ∈ pool -> returned c p -> complete_at st p) ->
    run_callers makeDecoder makeWriter fuel sched pool st = Returns pool' st' ->
    all_complete st'
    /\ forall c p, c ∈ pool' -> returned c p -> complete_at st' p).
  { clear. intros sched. induction sched as [| i sched IH];
      intros pool st pool' st' Hall Hpool Hrun; simpl in Hrun.
    - by step_in Hrun.
    - destruct (pool !! i) as [c |] eqn:Hi; [| by eapply IH].
      step_as Hrun c' s1 Hstep.
      pose proof (caller_step_extends _ _ _ _ _ Hstep) as Hext.
      destruct (caller_step_complete _ _ _ _ _ Hall Hstep) as [Hall1 Hc'].
      eapply IH; [exact Hall1 | | exact Hrun].
      intros x p Hx Hret.
      apply list_elem_of_lookup in Hx as [j Hj].
      destruct (decide (i = j)) as [<- | Hne].
      + rewrite list_lookup_insert_eq in Hj by (by eapply lookup_lt_Some).
        injection Hj as <-. destruct (Hc' p Hret) as [Hold | Hnew]; [| done].
        eapply complete_at_extends; [exact Hext |].
        eapply Hpool; [| exact Hold]. apply list_elem_of_lookup. eauto.
      + rewrite list_lookup_insert_ne in Hj by done.
        eapply complete_at_extends; [exact Hext |].
        eapply Hpool; [| exact Hret]. apply list_elem_of_lookup. eauto. }
  eapply Hgen; [exact Hall | | exact Hrun].
  intros c p Hc Hret. specialize (Hnone c Hc). by rewrite Hret in Hnone.
Qed.

End Reliance.

(** ** No call panics *)

Section Safety.
Context `{ReflectType Ty} {decoder writer : Type}.
Variable makeDecoder : Ty -> tags -> gen Ty decoder.
Variable makeWriter : Ty -> tags -> gen Ty writer.
Local Abbreviation State := (State Ty decoder writer).
Local Abbreviation M := (@M Ty _ _ decoder writer).

Hypothesis makeDecoder_ok : forall typ ts, structs_only (makeDecoder typ ts).
Hypothesis makeWriter_ok : forall typ ts, structs_only (makeWriter typ ts).

Lemma bind_safe {A B} (m : M A) (f : A -> M B) (st : State) :
  m st <> Panics ->
  (forall a s, m st = Returns a s -> f a s <> Panics) ->
  bind m f st <> Panics.
Proof.
  intros Hm Hf. unfold bind. destruct (m st) as [a s | |]; [by apply Hf | done | done].
Qed.

Section Calls.
Variable rec : Ty -> tags -> M (result Ty ptr).
Hypothesis rec_extends : forall typ ts (st : State) r st',
  rec typ ts st = Returns r st' -> extends st st'.
Hypothesis rec_safe : forall typ ts (st : State), rec typ ts st <> Panics.

Lemma structFields_loop_safe typ todo acc (st : State) :
  type_Kind typ = Struct ->
  Forall (fun i => i < length (type_fields typ)) todo ->
  structFields_loop rec typ todo acc st <> Panics.
Proof.
  intros Hk Htodo. revert acc st.
  induction Htodo as [| i todo Hi Htodo IH]; intros acc st; simpl; [done |].
  destruct (Field typ (Z.of_nat i)) as [f |] eqn:Hf.
  2:{ unfold Field in Hf. rewrite decide_True, decide_True in Hf by (done || lia).
      rewrite Nat2Z.id in Hf. apply lookup_ge_None in Hf. lia. }
  destruct (String.eqb (PkgPath f) ""); [| by apply IH].
  destruct (parseStructTag_defined _ _ _ Hf) as (ts & e & ->).
  destruct e as [err |]; [done |].
  destruct (ignored ts); [by apply IH |].
  apply bind_safe; [apply rec_safe |].
  intros [p | err] s _; [apply IH | done].
Qed.

Lemma structFields_safe typ (st : State) :
  type_Kind typ = Struct -> structFields rec typ st <> Panics.
Proof.
  intros Hk. unfold structFields, NumField. rewrite decide_True by done.
  apply structFields_loop_safe; [done |].
  rewrite Nat2Z.id. apply Forall_forall. intros i Hi.
  apply elem_of_seq in Hi. lia.
Qed.

Lemma run_gen_safe {A} (g : gen Ty A) (st : State) :
  structs_only g -> run_gen rec g st <> Panics.
Proof.
  intros Hg. revert st.
  induction Hg as [a | err | typ ts k Hk IH | typ k Hs Hk IH]; intros st; simpl;
    [done | done | |].
  - apply bind_safe; [apply rec_safe | intros; apply IH].
  - apply bind_safe; [by apply structFields_safe | intros; apply IH].
Qed.

Lemma genTypeInfo_safe typ ts (st : State) :
  genTypeInfo makeDecoder makeWriter rec typ ts st <> Panics.
Proof.
  unfold genTypeInfo.
  rewrite bind_note_generation, bind_new_typeinfo. simpl.
  set (s1 := mkState _ _ _).
  assert (L1 : heap s1 !! length (heap st) = Some typeinfo_zero).
  { simpl. by rewrite lookup_app_r, Nat.sub_diag. }
  apply bind_safe; [by apply run_gen_safe |].
  intros [dec | err] s2 Hdec; [| done].
  pose proof (run_gen_extends _ rec_extends _ _ _ _ Hdec) as E.
  pose proof (extends_load _ _ _ _ E L1) as L2.
  rewrite (bind_load _ _ _ _ L2), (bind_store _ _ _ _ _ L2). simpl.
  set (s3 := mkState _ _ _).
  assert (L3 : heap s3 !! length (heap st) = Some (mkTypeinfo (Some dec) None)).
  { simpl. apply list_lookup_insert_eq. by eapply lookup_lt_Some. }
  apply bind_safe; [by apply run_gen_safe |].
  intros [wr | err] s4 Hwr; [| done].
  pose proof (run_gen_extends _ rec_extends _ _ _ _ Hwr) as E'.
  pose proof (extends_load _ _ _ _ E' L3) as L4.
  by rewrite (bind_load _ _ _ _ L4), (bind_store _ _ _ _ _ L4).
Qed.

Lemma cachedTypeInfo1_body_safe typ ts (st : State) :
  cachedTypeInfo1_body makeDecoder makeWriter rec typ ts st <> Panics.
Proof.
  unfold cachedTypeInfo1_body. rewrite bind_cache_get.
  destruct (typeCache st !! mkKey typ ts) as [p |]; [done |].
  rewrite bind_new_typeinfo, bind_cache_put. simpl.
  apply bind_safe; [apply genTypeInfo_safe |].
  intros [info | err] s2 Hgen; [| done].
  apply (genTypeInfo_Returns _ _ _ rec_extends) in Hgen as [E Hinfo].
  destruct (Hinfo info eq_refl) as (-> & d & w & Hv).
  rewrite bind_cache_get.
  rewrite (extends_lookup _ _ (mkKey typ ts) (length (heap st)) E
             (lookup_insert_eq _ _ _)).
  rewrite (bind_load _ _ _ _ Hv).
  assert (is_Some (heap s2 !! length (heap st))) as [v0 Hv0].
  { apply lookup_lt_is_Some. apply extends_length in E. simpl in E.
    rewrite length_app in E. simpl in E. lia. }
  by rewrite (bind_store _ _ _ _ _ Hv0).
Qed.
End Calls.

Lemma cachedTypeInfo1_safe fuel typ ts (st : State) :
  cachedTypeInfo1 makeDecoder makeWriter fuel typ ts st <> Panics.
Proof.
  revert typ ts st. induction fuel as [| fuel IH]; intros typ ts st; [done |].
  simpl. apply cachedTypeInfo1_body_safe; [| exact IH].
  apply cachedTypeInfo1_extends.
Qed.

(** X5. No resolve panics, whatever the types and however deep the
    recursion: when the generated info is copied, the entry of the key
    is there and points to an object, and the field enumerator asks
    [reflect] only for the fields that a struct has. The generator must
    ask for the fields of structs only. *)
Theorem resolve_never_panics fuel typ ts (st : State) :
  cachedTypeInfo makeDecoder makeWriter fuel typ ts st <> Panics
  /\ (type_Kind typ = Struct ->
      structFields (cachedTypeInfo1 makeDecoder makeWriter fuel) typ st
      <> Panics).
Proof.
  split.
  - rewrite cachedTypeInfo_unfold.
    destruct (typeCache st !! mkKey typ ts); [done | apply cachedTypeInfo1_safe].
  - intros Hk. apply structFields_safe; [| done].
    intros. apply cachedTypeInfo1_safe.
Qed.

End Safety.

(** ** Fields that are not retained *)

Section Skipping.
Context `{ReflectType Ty} {decoder writer : Type}.
Local Abbreviation State := (State Ty decoder writer).
Local Abbreviation M := (@M Ty _ _ decoder writer).

(** X6. The field enumerator asks the cache about the fields it
    retains and about no other: the fields that are not exported and
    the fields whose tag sets ignored are never resolved. Two resolvers
    that agree on the keys of the retained fields of a struct give the
    same fields, the same error and the same state, whatever either does
    on any other key. *)
Theorem structFields_resolves_retained_only
    (rec1 rec2 : Ty -> tags -> M (result Ty ptr)) typ :
  type_Kind typ = Struct ->
  (forall i f ts,
     Field typ (Z.of_nat i) = Some f -> PkgPath f = "" ->
     parseStructTag typ (Z.of_nat i) = Some (ts, None) -> ignored ts = false ->
     forall st : State, rec1 (Typ f) ts st = rec2 (Typ f) ts st) ->
  forall st : State, structFields rec1 typ st = structFields rec2 typ st.
Proof.
  intros Hk Hsame st. unfold structFields.
  rewrite (NumField_Struct _ Hk), Nat2Z.id.
  generalize (@nil field) as acc. revert st.
  induction (seq 0 (length (type_fields typ))) as [| i todo IH];
    intros st acc; simpl; [done |].
  destruct (Field typ (Z.of_nat i)) as [f |] eqn:Hf; [| done].
  destruct (String.eqb_spec (PkgPath f) "") as [Hexp | Hexp]; [| apply IH].
  destruct (parseStructTag typ (Z.of_nat i)) as [[ts [err |]] |] eqn:Hparse;
    [done | | done].
  destruct (ignored ts) eqn:Hign; [apply IH |].
  unfold bind. rewrite (Hsame i f ts Hf Hexp Hparse Hign st).
  destruct (rec2 (Typ f) ts st) as [[p | err] s | |]; [apply IH | done | done | done].
Qed.

End Skipping.

(** ** The parser, token by token *)

Section ParserSpec.
Context `{ReflectType Ty}.

Lemma tags_of_cons t toks :
  tags_of (t :: toks) = tags_join (tags_of [t]) (tags_of toks).
Proof.
  unfold tags_of, tags_join. simpl.
  f_equal;
    match goal with
    | |- bool_decide (?x ∈ _ :: _) = _ =>
        destruct (decide (x = t)) as [<- | Hne];
        [ rewrite !bool_decide_true by (apply list_elem_of_here); done
        | rewrite (bool_decide_false (x ∈ [t]))
            by (intros Hin; apply list_elem_of_singleton in Hin; done);
          simpl; apply bool_decide_ext; rewrite elem_of_cons; tauto ]
    end.
Qed.

Lemma tags_join_assoc a b c :
  tags_join (tags_join a b) c = tags_join a (tags_join b c).
Proof. unfold tags_join. simpl. by rewrite !orb_assoc. Qed.

Lemma tags_join_zero_r a : tags_join a (tags_of []) = a.
Proof. destruct a. unfold tags_join, tags_of. simpl. by rewrite !orb_false_r. Qed.

Lemma tags_of_app pre post :
  tags_of (pre ++ post) = tags_join (tags_of pre) (tags_of post).
Proof.
  induction pre as [| t pre IH]; simpl.
  - by destruct (tags_of post).
  - by rewrite tags_of_cons, IH, (tags_of_cons t pre), tags_join_assoc.
Qed.

Lemma acceptable_dec typ fi (f : StructField Ty) t :
  acceptable typ fi f t \/ ~ acceptable typ fi f t.
Proof.
  unfold acceptable.
  destruct (decide (t = "")); [tauto |]. destruct (decide (t = "-")); [tauto |].
  destruct (decide (t = "nil")); [tauto |].
  destruct (decide (t = "tail")); [| tauto].
  destruct (decide (NumField typ = Some (fi + 1)%Z)); [| tauto].
  destruct (decide (type_Kind (Typ f) = Slice)); tauto.
Qed.

(** One turn of the loop on a token that the parser goes past. *)
Lemma parseTokens_step typ fi (f : StructField Ty) t0 raw ts0 :
  acceptable typ fi f (Strings.TrimSpace t0) ->
  parseTokens typ fi f (t0 :: raw) ts0
  = parseTokens typ fi f raw (tags_join ts0 (tags_of [Strings.TrimSpace t0])).
Proof.
  intros Hacc. simpl.
  assert (Hz : forall a, tags_join a (tags_of [""]) = a)
    by (intros []; unfold tags_join; simpl; by rewrite !orb_false_r).
  destruct Hacc as [-> | [-> | [-> | (-> & Hn & Hk)]]]; simpl.
  - by rewrite Hz.
  - unfold tags_join. simpl. by rewrite !orb_false_r, orb_true_r.
  - unfold tags_join. simpl. by rewrite !orb_false_r, orb_true_r.
  - rewrite Hn. replace (fi + 1 - 1)%Z with fi by lia. rewrite Z.eqb_refl.
    simpl. rewrite bool_decide_true by done. simpl.
    unfold tags_join. simpl. by rewrite !orb_false_r, orb_true_r.
Qed.

Lemma parseTokens_accepted typ fi (f : StructField Ty) raw ts0 :
  Forall (acceptable typ fi f) (map Strings.TrimSpace raw) ->
  parseTokens typ fi f raw ts0
  = Some (tags_join ts0 (tags_of (map Strings.TrimSpace raw)), None).
Proof.
  revert ts0. induction raw as [| t0 raw IH]; intros ts0 Hall; simpl in Hall.
  - simpl. by rewrite tags_join_zero_r.
  - apply Forall_cons in Hall as [Ht Hall].
    rewrite (parseTokens_step _ _ _ _ _ _ Ht), (IH _ Hall).
    simpl map.
    by rewrite (tags_of_cons (Strings.TrimSpace t0) (map Strings.TrimSpace raw)),
         tags_join_assoc.
Qed.

Lemma parseTokens_rejected typ fi (f : StructField Ty) n raw pre t post ts0 :
  NumField typ = Some n ->
  map Strings.TrimSpace raw = (pre ++ t :: post)%list ->
  Forall (acceptable typ fi f) pre ->
  ~ acceptable typ fi f t ->
  parseTokens typ fi f raw ts0
  = Some (tags_join ts0
            (tags_of (pre ++ if decide (t = "tail") then ["tail"] else [])%list),
          Some (token_error typ fi f t)).
Proof.
  intros Hn Hraw Hpre Hbad. revert raw ts0 Hraw.
  induction Hpre as [| t1 pre Ht1 Hpre IH]; intros raw ts0 Hraw;
    destruct raw as [| t0 raw]; try discriminate Hraw;
    simpl in Hraw; injection Hraw as Ht Hraw.
  - subst t. simpl. unfold acceptable in Hbad. unfold token_error.
    destruct (String.eqb_spec (Strings.TrimSpace t0) ""); [tauto |].
    destruct (String.eqb_spec (Strings.TrimSpace t0) "-"); [tauto |].
    destruct (String.eqb_spec (Strings.TrimSpace t0) "nil"); [tauto |].
    destruct (String.eqb_spec (Strings.TrimSpace t0) "tail") as [Et | Et].
    + destruct (decide (Strings.TrimSpace t0 = "tail")); [| done]. rewrite Hn.
      assert (Hjoin : tags_join ts0 (tags_of ["tail"])
                      = mkTags (nilOK ts0) true (ignored ts0)).
      { unfold tags_join. simpl. by rewrite !orb_false_r, orb_true_r. }
      rewrite Hjoin.
      destruct (Z.eqb_spec fi (n - 1)) as [Hfi | Hfi]; simpl.
      * assert (Hlast : Some n = Some (fi + 1)%Z) by (f_equal; lia).
        destruct (decide (Some n = Some (fi + 1)%Z)); [| done].
        destruct (bool_decide_reflect (type_Kind (Typ f) = Slice)) as [Hk | Hk];
          [| reflexivity].
        exfalso. apply Hbad. rewrite Hn. tauto.
      * destruct (decide (Some n = Some (fi + 1)%Z)) as [[= ->] |]; [lia | done].
    + destruct (decide (Strings.TrimSpace t0 = "tail")); [done |]. simpl.
      by rewrite tags_join_zero_r.
  - subst t1. rewrite (parseTokens_step _ _ _ _ _ _ Ht1), (IH _ _ Hraw).
    f_equal. f_equal. rewrite tags_join_assoc. f_equal.
    simpl app. by rewrite (tags_of_cons (Strings.TrimSpace t0) (pre ++ _)%list).
Qed.

Lemma first_rejected typ fi (f : StructField Ty) toks :
  Forall (acceptable typ fi f) toks
  \/ exists pre t post,
       toks = (pre ++ t :: post)%list
       /\ Forall (acceptable typ fi f) pre /\ ~ acceptable typ fi f t.
Proof.
  induction toks as [| t toks IH]; [by left |].
  destruct (acceptable_dec typ fi f t) as [Ht | Ht].
  - destruct IH as [Hall | (pre & t' & post & -> & Hpre & Hbad)].
    + left. by constructor.
    + right. exists (t :: pre), t', post. split; [done |]. split; [by constructor | done].
  - right. exists [], t, toks. split; [done |]. split; [constructor | done].
Qed.

(** X7. What [parseStructTag] returns, for every tag. The tokens are
    the pieces between the commas, trimmed. If the parser goes past all
    of them (empty, [-], [nil], and [tail] on a last field that is a
    slice), there is no error and the tags are the ones the tokens name,
    in any order and however often. Otherwise the first token it does
    not go past decides the error, the tokens after it are not looked
    at, and the tags returned with the error are those of the tokens
    before it, with tail set if that token is tail. Success means that
    every token is one the parser goes past. *)
Theorem parseStructTag_by_tokens typ fi (f : StructField Ty) :
  Field typ fi = Some f ->
  (Forall (acceptable typ fi f) (tokens (Tag_rlp f)) ->
   parseStructTag typ fi = Some (tags_of (tokens (Tag_rlp f)), None))
  /\ (forall pre t post,
        tokens (Tag_rlp f) = (pre ++ t :: post)%list ->
        Forall (acceptable typ fi f) pre ->
        ~ acceptable typ fi f t ->
        parseStructTag typ fi
        = Some (tags_of (pre ++ if decide (t = "tail") then ["tail"] else [])%list,
                Some (token_error typ fi f t)))
  /\ (forall ts, parseStructTag typ fi = Some (ts, None) ->
        Forall (acceptable typ fi f) (tokens (Tag_rlp f))
        /\ ts = tags_of (tokens (Tag_rlp f))).
Proof.
  intros Hf. destruct (Field_NumField _ _ _ Hf) as (n & Hn & _).
  assert (Hzero : forall a, tags_join tags_zero a = a) by (by intros []).
  unfold parseStructTag. rewrite Hf. split; [| split].
  - intros Hall. rewrite (parseTokens_accepted _ _ _ _ _ Hall). by rewrite Hzero.
  - intros pre t post Htok Hpre Hbad.
    rewrite (parseTokens_rejected _ _ _ n _ pre t post _ Hn Htok Hpre Hbad).
    by rewrite Hzero.
  - intros ts Hparse.
    destruct (first_rejected typ fi f (tokens (Tag_rlp f)))
      as [Hall | (pre & t & post & Htok & Hpre & Hbad)].
    + rewrite (parseTokens_accepted _ _ _ _ _ Hall), Hzero in Hparse.
      by injection Hparse as <-.
    + rewrite (parseTokens_rejected _ _ _ n _ pre t post _ Hn Htok Hpre Hbad)
        in Hparse. discriminate Hparse.
Qed.

(** X8. [isUint] holds of the six kinds of unsigned integers and of no
    other kind: not of the signed integers, which come before them among
    the kinds, nor of the floats, which come after. *)
Theorem isUint_kinds (k : Kind) :
  isUint k = true <-> k ∈ [Uint; Uint8; Uint16; Uint32; Uint64; Uintptr].
Proof.
  split.
  - destruct k; intros Hk; try discriminate Hk; set_solver.
  - intros Hk. repeat (apply elem_of_cons in Hk as [-> | Hk]; [reflexivity |]).
    by apply elem_of_nil in Hk.
Qed.

End ParserSpec.

(** *** The further properties on the sample program *)

Lemma fresh_all_complete : all_complete Sample.fresh.
Proof. intros key p Hp. simpl in Hp. by rewrite lookup_empty in Hp. Qed.

Lemma fresh_wf_cache : wf_cache Sample.fresh.
Proof.
  split.
  - intros key p Hp. simpl in Hp. by rewrite lookup_empty in Hp.
  - intros key key' p Hp. simpl in Hp. by rewrite lookup_empty in Hp.
Qed.

Lemma resolve_returns_finished_entries_witness :
  exists st',
    all_complete Sample.fresh
    /\ Sample.resolve Sample.Simple tags_zero Sample.fresh = Returns (Ok 0) st'
    /\ all_complete st'
    /\ forall p, @Ok Sample.ty ptr 0 = Ok p ->
         typeCache st' !! mkKey Sample.Simple tags_zero = Some p
         /\ complete_at st' p.
Proof.
  destruct (summary_Returns _ _ _ _ _ resolve_Simple) as [st' Hrun].
  exists st'. split; [exact fresh_all_complete |]. split; [exact Hrun |].
  exact (resolve_returns_finished_entries Sample.makeDecoder Sample.makeWriter
           200 Sample.Simple tags_zero Sample.fresh (Ok 0) st'
           fresh_all_complete Hrun).
Defined.

Lemma resolve_keeps_entries_apart_witness :
  exists st',
    wf_cache Sample.fresh
    /\ Sample.resolve Sample.Mixed tags_zero Sample.fresh = Returns (Ok 0) st'
    /\ wf_cache st'
    /\ forall p key', @Ok Sample.ty ptr 0 = Ok p ->
         typeCache st' !! key' = Some p -> key' = mkKey Sample.Mixed tags_zero.
Proof.
  destruct (summary_Returns _ _ _ _ _ resolve_Mixed) as [st' Hrun].
  exists st'. split; [exact fresh_wf_cache |]. split; [exact Hrun |].
  exact (resolve_keeps_entries_apart Sample.makeDecoder Sample.makeWriter
           200 Sample.Mixed tags_zero Sample.fresh (Ok 0) st'
           fresh_wf_cache Hrun).
Defined.

Lemma later_callers_change_nothing_witness :
  exists st',
    run_callers Sample.makeDecoder Sample.makeWriter 200 [0; 1; 0; 1]
      (replicate 2 (AtEntry Sample.Node tags_zero)) Sample.fresh
    = Returns [Finished (Ok 0); Finished (Ok 0)] st'
    /\ (forall key p, typeCache Sample.fresh !! key = Some p ->
                      typeCache st' !! key = Some p)
    /\ (forall p v, heap Sample.fresh !! p = Some v -> heap st' !! p = Some v)
    /\ (forall key, is_Some (typeCache Sample.fresh !! key) ->
                    generations key st' = generations key Sample.fresh).
Proof.
  destruct (summary_Returns _ _ _ _ _ callers_of_Node) as [st' Hrun].
  exists st'. split; [exact Hrun |].
  exact (later_callers_change_nothing Sample.makeDecoder Sample.makeWriter
           200 [0; 1; 0; 1] (replicate 2 (AtEntry Sample.Node tags_zero))
           Sample.fresh _ st' Hrun).
Defined.

Lemma callers_receive_finished_entries_witness :
  exists st',
    all_complete Sample.fresh
    /\ (forall c, c ∈ replicate 2 (AtEntry Sample.Node tags_zero) ->
                  finished c = false)
    /\ run_callers Sample.makeDecoder Sample.makeWriter 200 [0; 1; 0; 1]
         (replicate 2 (AtEntry Sample.Node tags_zero)) Sample.fresh
       = Returns [Finished (Ok 0); Finished (Ok 0)] st'
    /\ all_complete st'
    /\ forall c p, c ∈ [Finished (@Ok Sample.ty ptr 0); Finished (Ok 0)] ->
                   returned c p -> complete_at st' p.
Proof.
  destruct (summary_Returns _ _ _ _ _ callers_of_Node) as [st' Hrun].
  assert (Hpool : forall c, c ∈ replicate 2 (AtEntry Sample.Node tags_zero) ->
                            finished c = false).
  { intros c Hc. apply elem_of_replicate in Hc as [-> _]. reflexivity. }
  exists st'. split; [exact fresh_all_complete |]. split; [exact Hpool |].
  split; [exact Hrun |].
  exact (callers_receive_finished_entries Sample.makeDecoder Sample.makeWriter
           200 [0; 1; 0; 1] (replicate 2 (AtEntry Sample.Node tags_zero))
           Sample.fresh _ st' fresh_all_complete Hpool Hrun).
Defined.

Lemma resolve_never_panics_witness :
  (forall typ ts, structs_only (Sample.makeDecoder typ ts))
  /\ Sample.resolve Sample.Broken tags_zero Sample.fresh <> Panics
  /\ (type_Kind Sample.Broken = Struct ->
      structFields (cachedTypeInfo1 Sample.makeDecoder Sample.makeWriter 200)
        Sample.Broken Sample.fresh <> Panics).
Proof.
  split; [exact sample_make_structs_only |].
  exact (resolve_never_panics Sample.makeDecoder Sample.makeWriter
           sample_make_structs_only sample_make_structs_only
           200 Sample.Broken tags_zero Sample.fresh).
Defined.

(** A resolver that knows the types of the two retained fields of
    [Mixed] only, and panics on any other. *)
Lemma structFields_resolves_retained_only_witness :
  let rec1 := cachedTypeInfo1 Sample.makeDecoder Sample.makeWriter 200 in
  let rec2 := fun typ ts =>
    match typ with
    | Sample.Uint64T | Sample.PtrNode => rec1 typ ts
    | _ => panic
    end in
  type_Kind Sample.Mixed = Struct
  /\ forall st : State Sample.ty Sample.codec Sample.codec,
       structFields rec1 Sample.Mixed st = structFields rec2 Sample.Mixed st.
Proof.
  intros rec1 rec2.
  assert (Hk : type_Kind Sample.Mixed = Struct) by reflexivity.
  split; [exact Hk |].
  apply (structFields_resolves_retained_only rec1 rec2 Sample.Mixed Hk).
  intros i f ts Hf Hexp Hparse Hign st.
  destruct i as [| [| [| [| i]]]].
  - injection Hf as <-. reflexivity.
  - injection Hf as <-. discriminate Hexp.
  - vm_compute in Hparse. injection Hparse as <-. discriminate Hign.
  - injection Hf as <-. reflexivity.
  - apply Field_NumField in Hf as (n & Hn & Hi). injection Hn as <-.
    simpl in Hi. lia.
Defined.

Lemma parseStructTag_by_tokens_witness :
  let f := Sample.exported "A" Sample.Uint64T "bogus,tail" in
  Field Sample.LateTail 0%Z = Some f
  /\ tokens (Tag_rlp f) = ["bogus"; "tail"]
  /\ ~ acceptable Sample.LateTail 0%Z f "bogus"
  /\ parseStructTag Sample.LateTail 0%Z
     = Some (tags_of [], Some (ErrUnknownTag "bogus" Sample.LateTail "A")).
Proof.
  intros f.
  assert (Hf : Field Sample.LateTail 0%Z = Some f) by reflexivity.
  assert (Hbad : ~ acceptable Sample.LateTail 0%Z f "bogus").
  { intros [Hb | [Hb | [Hb | [Hb _]]]]; discriminate Hb. }
  split; [exact Hf |]. split; [reflexivity |]. split; [exact Hbad |].
  destruct (parseStructTag_by_tokens Sample.LateTail 0%Z f Hf) as (_ & Hrej & _).
  exact (Hrej [] "bogus" ["tail"] eq_refl (Forall_nil_2 _) Hbad).
Defined.

(** * The memory database ([ethdb/memory_database.go]) *)

Section MemoryDatabase.
Variable CopyBytes : ethdb.bytes -> ethdb.bytes.
Hypothesis CopyBytes_content :
  forall b, ethdb.content (CopyBytes b) = ethdb.content b.

Local Abbreviation Put := (ethdb.MemDatabase_Put CopyBytes).
Local Abbreviation Get := (ethdb.MemDatabase_Get CopyBytes).
Local Abbreviation Has := ethdb.MemDatabase_Has.
Local Abbreviation Delete := ethdb.MemDatabase_Delete.
Local Abbreviation Len := ethdb.MemDatabase_Len.
Local Abbreviation Keys := ethdb.MemDatabase_Keys.

Lemma string_of_bytes_inj b1 b2 :
  ethdb.string_of_bytes b1 = ethdb.string_of_bytes b2 <->
  ethdb.content b1 = ethdb.content b2.
Proof.
  unfold ethdb.string_of_bytes. split; [| by intros ->].
  intros Heq. apply (f_equal list_ascii_of_string) in Heq.
  by rewrite !list_ascii_of_string_of_list_ascii in Heq.
Qed.

Lemma string_of_bytes_CopyBytes b :
  ethdb.string_of_bytes (CopyBytes b) = ethdb.string_of_bytes b.
Proof. apply string_of_bytes_inj, CopyBytes_content. Qed.

Lemma string_of_bytes_of_string s :
  ethdb.string_of_bytes (ethdb.bytes_of_string s) = s.
Proof. apply string_of_list_ascii_of_string. Qed.

(** X9. What was put is what is got: after [Put key value], [Get] of a
    key with the same bytes (nil and the empty slice are the same key)
    returns the bytes of [value] and no error, and [Has] holds; [Get] and
    [Has] of any other key return what they returned before. *)
Theorem Put_then_Get (d : ethdb.MemDatabase) key value key' :
  (ethdb.content key' = ethdb.content key ->
   (exists got, Get (Put d key value).1 key' = (got, None)
                /\ ethdb.content got = ethdb.content value)
   /\ Has (Put d key value).1 key' = (true, None))
  /\ (ethdb.content key' <> ethdb.content key ->
      Get (Put d key value).1 key' = Get d key'
      /\ Has (Put d key value).1 key' = Has d key').
Proof.
  unfold ethdb.MemDatabase_Put, ethdb.MemDatabase_Get, ethdb.MemDatabase_Has.
  simpl. split.
  - intros Hsame. apply string_of_bytes_inj in Hsame. rewrite Hsame.
    rewrite lookup_insert_eq. split.
    + eexists. split; [reflexivity |]. by rewrite !CopyBytes_content.
    + by rewrite bool_decide_true by (by eexists).
  - intros Hother.
    rewrite lookup_insert_ne; [done |].
    intros Heq. apply Hother. symmetry. by apply string_of_bytes_inj.
Qed.

(** X10. After [Delete key], [Get] of a key with the same bytes returns
    nil and the error not found, and [Has] does not hold; any other key
    is as before. Deleting a key that is not there changes nothing. *)
Theorem Delete_then_Get (d : ethdb.MemDatabase) key key' :
  (ethdb.content key' = ethdb.content key ->
   Get (Delete d key).1 key' = (None, Some "not found")
   /\ Has (Delete d key).1 key' = (false, None))
  /\ (ethdb.content key' <> ethdb.content key ->
      Get (Delete d key).1 key' = Get d key'
      /\ Has (Delete d key).1 key' = Has d key')
  /\ (Has d key = (false, None) -> (Delete d key).1 = d).
Proof.
  unfold ethdb.MemDatabase_Delete, ethdb.MemDatabase_Get, ethdb.MemDatabase_Has.
  simpl. split; [| split].
  - intros Hsame. apply string_of_bytes_inj in Hsame. rewrite Hsame.
    rewrite lookup_delete_eq. split; [done |].
    rewrite bool_decide_false; [done |]. by intros [? ?].
  - intros Hother.
    rewrite lookup_delete_ne; [done |].
    intros Heq. apply Hother. symmetry. by apply string_of_bytes_inj.
  - intros [= Hhas]. apply bool_decide_eq_false in Hhas.
    destruct d as [m]. simpl in *. f_equal. apply delete_id.
    by apply eq_None_not_Some.
Qed.

(** X11. [Has] and [Get] agree: [Has] holds of a key exactly when [Get]
    returns a value without error for it, and the value has the bytes of
    the entry; otherwise [Get] returns nil and the error not found.
    Neither changes the database, and [Has] never returns an error. *)
Theorem Has_agrees_with_Get (d : ethdb.MemDatabase) key :
  (Has d key).2 = None
  /\ ((Has d key).1 = true <->
      exists entry, ethdb.db d !! ethdb.string_of_bytes key = Some entry
                    /\ Get d key = (CopyBytes entry, None)
                    /\ ethdb.content (Get d key).1 = ethdb.content entry)
  /\ ((Has d key).1 = false <-> Get d key = (None, Some "not found")).
Proof.
  unfold ethdb.MemDatabase_Get, ethdb.MemDatabase_Has. simpl.
  split; [done |].
  destruct (ethdb.db d !! ethdb.string_of_bytes key) as [entry |] eqn:Hentry.
  - rewrite bool_decide_true by (by eexists). split.
    + split; [| done]. intros _. exists entry. simpl.
      by rewrite CopyBytes_content.
    + split; intros; discriminate.
  - rewrite bool_decide_false by (by intros [? ?]). split.
    + split; [discriminate |]. by intros (entry & ? & _).
    + done.
Qed.

(** X12. The keys that [Keys] returns, in whatever order the map is
    walked: each key of the database once, none of them nil, as many as
    [Len] says, and a key is among them exactly when [Has] holds of
    it. *)
Theorem Keys_are_the_keys (d : ethdb.MemDatabase) keys :
  Keys d keys ->
  NoDup keys
  /\ Z.of_nat (length keys) = Len d
  /\ (forall key, key ∈ keys -> is_Some key /\ (Has d key).1 = true)
  /\ (forall key, (Has d key).1 = true ->
        ethdb.bytes_of_string (ethdb.string_of_bytes key) ∈ keys).
Proof.
  unfold ethdb.MemDatabase_Keys, ethdb.MemDatabase_Len, ethdb.MemDatabase_Has.
  intros Hkeys. simpl.
  assert (Hin : forall s, ethdb.bytes_of_string s ∈ keys
                          <-> is_Some (ethdb.db d !! s)).
  { intros s. rewrite Hkeys, list_elem_of_fmap. split.
    - intros ([s' v] & Heq & Hel). simpl in Heq.
      apply (f_equal ethdb.string_of_bytes) in Heq.
      rewrite !string_of_bytes_of_string in Heq. subst s'.
      apply elem_of_map_to_list in Hel. by eexists.
    - intros [v Hv]. exists (s, v). split; [done |].
      by apply elem_of_map_to_list. }
  split; [| split; [| split]].
  - rewrite Hkeys.
    apply (NoDup_fmap_2_strong (fun e => ethdb.bytes_of_string e.1)).
    + intros [s1 v1] [s2 v2] H1 H2 Heq. simpl in Heq.
      apply (f_equal ethdb.string_of_bytes) in Heq.
      rewrite !string_of_bytes_of_string in Heq. subst s2.
      apply elem_of_map_to_list in H1, H2. congruence.
    + apply NoDup_map_to_list.
  - rewrite Hkeys, length_fmap, length_map_to_list. done.
  - intros key Hkey. pose proof Hkey as Hsome.
    rewrite Hkeys in Hsome. apply list_elem_of_fmap in Hsome as (e & -> & _).
    split; [by eexists |].
    apply bool_decide_eq_true. apply Hin.
    by rewrite string_of_bytes_of_string in *.
  - intros key Hhas. apply bool_decide_eq_true in Hhas. by apply Hin.
Qed.

(** X13. [Len] counts the keys: none in a new database, one more after
    a [Put] of a key that was not there, the same after a [Put] of one
    that was, one less after a [Delete] of a key that was there. *)
Theorem Len_counts_keys (d : ethdb.MemDatabase) key value :
  Len ethdb.NewMemDatabase = 0%Z
  /\ Len (Put d key value).1
     = (if (Has d key).1 then Len d else Len d + 1)%Z
  /\ Len (Delete d key).1
     = (if (Has d key).1 then Len d - 1 else Len d)%Z.
Proof.
  unfold ethdb.MemDatabase_Len, ethdb.MemDatabase_Put, ethdb.MemDatabase_Delete,
    ethdb.MemDatabase_Has, ethdb.NewMemDatabase. simpl.
  split; [by rewrite map_size_empty |].
  rewrite map_size_insert, map_size_delete.
  destruct (ethdb.db d !! ethdb.string_of_bytes key) as [entry |] eqn:Hentry.
  - rewrite bool_decide_true by (by eexists). split; [done |].
    assert (base.size (ethdb.db d) <> 0).
    { intros Hz. apply map_size_empty_inv in Hz. rewrite Hz in Hentry.
      by rewrite lookup_empty in Hentry. }
    simpl. lia.
  - rewrite bool_decide_false by (by intros [? ?]). simpl. split; lia.
Qed.

(** ** Batches *)

Local Abbreviation Write := ethdb.memBatch_Write.
Local Abbreviation apply_db := (ethdb.apply_db CopyBytes).
Local Abbreviation apply_batch := (ethdb.apply_batch CopyBytes).

Lemma write_one_apply (d : ethdb.MemDatabase) o :
  fold_left ethdb.write_one
    (ethdb.writes (apply_batch (ethdb.mkMemBatch [] 0) o)) (ethdb.db d)
  = ethdb.db (apply_db d o).
Proof.
  destruct o as [key value | key]; simpl; unfold ethdb.write_one; simpl;
    by rewrite string_of_bytes_CopyBytes.
Qed.

Lemma writes_apply_batch (b : ethdb.memBatch) o :
  ethdb.writes (apply_batch b o)
  = (ethdb.writes b ++ ethdb.writes (apply_batch (ethdb.mkMemBatch [] 0) o))%list.
Proof. by destruct o. Qed.

Lemma Write_fold (b : ethdb.memBatch) ops (d : ethdb.MemDatabase) :
  (Write (fold_left apply_batch ops b) d).1
  = fold_left apply_db ops (Write b d).1.
Proof.
  revert b d. induction ops as [| o ops IH]; intros b d; [done |].
  simpl fold_left. rewrite IH. f_equal.
  unfold ethdb.memBatch_Write. simpl.
  rewrite writes_apply_batch, fold_left_app.
  pose proof (write_one_apply
                (ethdb.mkMemDatabase
                   (fold_left ethdb.write_one (ethdb.writes b) (ethdb.db d))) o)
    as Hone.
  simpl in Hone. rewrite Hone. by destruct (apply_db _ o).
Qed.

(** X14. A batch is its operations, deferred: writing a batch that was
    made by [NewBatch] and given puts and deletes leaves the database as
    the same puts and deletes leave it when they are made on the
    database itself, in the same order; until [Write] nothing reaches the
    database, and a new batch writes nothing. *)
Theorem Write_replays_the_batch (d : ethdb.MemDatabase) ops :
  (Write (fold_left apply_batch ops (ethdb.MemDatabase_NewBatch d)) d).1
  = fold_left apply_db ops d
  /\ (Write (ethdb.MemDatabase_NewBatch d) d).1 = d
  /\ (Write (fold_left apply_batch ops (ethdb.MemDatabase_NewBatch d)) d).2
     = None.
Proof.
  split; [| split; [| done]].
  - rewrite Write_fold. f_equal. by destruct d.
  - by destruct d.
Qed.

Lemma write_lookup ws (m : gmap string ethdb.bytes) s :
  fold_left ethdb.write_one ws m !! s
  = match last (filter (fun w => ethdb.string_of_bytes (ethdb.k w) = s) ws) with
    | None => m !! s
    | Some w => if ethdb.del w then None else Some (ethdb.v w)
    end.
Proof.
  revert m. induction ws as [| w ws IH] using rev_ind; intros m; [done |].
  rewrite fold_left_app, filter_app. simpl.
  rewrite filter_cons, filter_nil. unfold ethdb.write_one at 1.
  destruct (decide (ethdb.string_of_bytes (ethdb.k w) = s)) as [<- | Hne].
  - rewrite last_snoc. destruct (ethdb.del w).
    + by rewrite lookup_delete_eq.
    + by rewrite lookup_insert_eq.
  - rewrite app_nil_r, <- IH. destruct (ethdb.del w).
    + by rewrite lookup_delete_ne.
    + by rewrite lookup_insert_ne.
Qed.

(** X15. The last write wins: after [Write], a key that the batch does
    not write is as it was; any other key is as the last write of the
    batch for it says, absent after a delete and holding the value of
    the batch after a put, whatever came before in the batch or was in
    the database. *)
Theorem Write_last_write_wins (b : ethdb.memBatch) (d : ethdb.MemDatabase) s :
  ethdb.db (Write b d).1 !! s
  = match last (filter (fun w => ethdb.string_of_bytes (ethdb.k w) = s)
                       (ethdb.writes b)) with
    | None => ethdb.db d !! s
    | Some w => if ethdb.del w then None else Some (ethdb.v w)
    end.
Proof. apply write_lookup. Qed.

(** X16. Writing a batch twice is writing it once: [Write] does not
    empty the batch, and the second [Write] leaves the database as the
    first left it. *)
Theorem Write_twice (b : ethdb.memBatch) (d : ethdb.MemDatabase) :
  (Write b (Write b d).1).1 = (Write b d).1.
Proof.
  unfold ethdb.memBatch_Write. simpl. f_equal. apply map_eq. intros s.
  rewrite (write_lookup (ethdb.writes b) (fold_left _ _ _)).
  rewrite (write_lookup (ethdb.writes b) (ethdb.db d)).
  by destruct (last _).
Qed.

Lemma int_add_0 x y : ethdb.int_add x y = ethdb.int_add 0 (x + y).
Proof. reflexivity. Qed.

Lemma int_add_wrap x y :
  ethdb.int_add 0 (ethdb.int_add 0 x + y) = ethdb.int_add 0 (x + y).
Proof.
  unfold ethdb.int_add.
  replace (0 + ((0 + x + 2 ^ 63) mod 2 ^ 64 - 2 ^ 63 + y) + 2 ^ 63)%Z
    with ((0 + x + 2 ^ 63) mod 2 ^ 64 + y)%Z by lia.
  replace (0 + (x + y) + 2 ^ 63)%Z with (0 + x + 2 ^ 63 + y)%Z by lia.
  by rewrite Zplus_mod_idemp_l.
Qed.

Lemma size_fold (b : ethdb.memBatch) ops :
  ops <> [] ->
  ethdb.size (fold_left apply_batch ops b)
  = ethdb.int_add 0 (ethdb.size b + fold_right Z.add 0%Z (map ethdb.op_size ops)).
Proof.
  revert b. induction ops as [| o ops IH]; intros b Hne; [done |].
  simpl fold_left. destruct ops as [| o' ops].
  - simpl. rewrite Z.add_0_r. by destruct o.
  - rewrite IH by done.
    assert (Hstep : ethdb.size (apply_batch b o)
                    = ethdb.int_add 0 (ethdb.size b + ethdb.op_size o))
      by (by destruct o).
    rewrite Hstep, int_add_wrap. f_equal. simpl. lia.
Qed.

(** X17. [ValueSize] is the sum of what the operations of the batch
    add, the length of the value for a put and one for a delete: exactly
    so while the sum fits the type int, and wrapped around otherwise.
    [Reset] sets it to zero and empties the batch: the database is
    unchanged by the [Write] of a batch that was reset. *)
Theorem ValueSize_sums (d : ethdb.MemDatabase) ops :
  let b := fold_left apply_batch ops (ethdb.MemDatabase_NewBatch d) in
  let total := fold_right Z.add 0%Z (map ethdb.op_size ops) in
  (0 <= total)%Z
  /\ ethdb.memBatch_ValueSize b = ethdb.int_add 0 total
  /\ ((total < 2 ^ 63)%Z -> ethdb.memBatch_ValueSize b = total)
  /\ ethdb.memBatch_ValueSize (ethdb.memBatch_Reset b) = 0%Z
  /\ (Write (ethdb.memBatch_Reset b) d).1 = d.
Proof.
  intros b total.
  assert (Hpos : (0 <= total)%Z).
  { clear b. subst total. induction ops as [| o ops IH]; simpl; [lia |].
    assert (0 <= ethdb.op_size o)%Z; [| lia].
    destruct o; simpl; unfold ethdb.len; lia. }
  assert (Hsize : ethdb.memBatch_ValueSize b = ethdb.int_add 0 total).
  { unfold ethdb.memBatch_ValueSize. subst b total.
    destruct ops as [| o ops]; [done |]. by rewrite size_fold. }
  split; [exact Hpos |]. split; [exact Hsize |]. split; [| split].
  - intros Hfit. rewrite Hsize. unfold ethdb.int_add.
    rewrite Z.mod_small by lia. lia.
  - done.
  - by destruct d.
Qed.

End MemoryDatabase.

(** *** The memory database on small inputs

    [CopyBytes] here gives back the bytes it is given. The key nil and
    the empty key are one key. *)

Lemma Put_then_Get_witness :
  let copy := fun b : ethdb.bytes => b in
  let d := ethdb.NewMemDatabase in
  let value : ethdb.bytes := Some ["x"%char] in
  (forall b, ethdb.content (copy b) = ethdb.content b)
  /\ ethdb.content (Some []) = ethdb.content None
  /\ (exists got,
        ethdb.MemDatabase_Get copy (ethdb.MemDatabase_Put copy d None value).1
          (Some [])
        = (got, None)
        /\ ethdb.content got = ethdb.content value)
  /\ ethdb.MemDatabase_Has (ethdb.MemDatabase_Put copy d None value).1 (Some [])
     = (true, None).
Proof.
  intros copy d value.
  assert (Hcopy : forall b, ethdb.content (copy b) = ethdb.content b)
    by reflexivity.
  assert (Hkey : ethdb.content (Some []) = ethdb.content None) by reflexivity.
  split; [exact Hcopy |]. split; [exact Hkey |].
  destruct (Put_then_Get copy Hcopy d None value (Some [])) as [Hsame _].
  exact (Hsame Hkey).
Defined.

Lemma Has_agrees_with_Get_witness :
  let copy := fun b : ethdb.bytes => b in
  let key : ethdb.bytes := Some ["k"%char] in
  (forall b, ethdb.content (copy b) = ethdb.content b)
  /\ (ethdb.MemDatabase_Has ethdb.NewMemDatabase key).1 = false
  /\ ethdb.MemDatabase_Get copy ethdb.NewMemDatabase key
     = (None, Some "not found").
Proof.
  intros copy key.
  assert (Hcopy : forall b, ethdb.content (copy b) = ethdb.content b)
    by reflexivity.
  split; [exact Hcopy |]. split; [reflexivity |].
  destruct (Has_agrees_with_Get copy Hcopy ethdb.NewMemDatabase key)
    as (_ & _ & Hnone).
  apply Hnone. reflexivity.
Defined.

Lemma Keys_are_the_keys_witness :
  let copy := fun b : ethdb.bytes => b in
  let key : ethdb.bytes := Some ["k"%char] in
  let d := (ethdb.MemDatabase_Put copy ethdb.NewMemDatabase key None).1 in
  ethdb.MemDatabase_Keys d [key]
  /\ NoDup [key]
  /\ Z.of_nat (length [key]) = ethdb.MemDatabase_Len d
  /\ (forall key', key' ∈ [key] ->
        is_Some key' /\ (ethdb.MemDatabase_Has d key').1 = true)
  /\ (forall key', (ethdb.MemDatabase_Has d key').1 = true ->
        ethdb.bytes_of_string (ethdb.string_of_bytes key') ∈ [key]).
Proof.
  intros copy key d.
  assert (Hkeys : ethdb.MemDatabase_Keys d [key]).
  { unfold ethdb.MemDatabase_Keys, d. simpl.
    by rewrite insert_empty, map_to_list_singleton. }
  split; [exact Hkeys |].
  exact (Keys_are_the_keys d [key] Hkeys).
Defined.

Lemma Write_replays_the_batch_witness :
  let copy := fun b : ethdb.bytes => b in
  let ops := [ethdb.OpPut (Some ["k"%char]) (Some ["x"%char]);
              ethdb.OpDelete (Some ["k"%char]);
              ethdb.OpPut None (Some ["y"%char])] in
  let d := ethdb.NewMemDatabase in
  (forall b, ethdb.content (copy b) = ethdb.content b)
  /\ (ethdb.memBatch_Write
        (fold_left (ethdb.apply_batch copy) ops (ethdb.MemDatabase_NewBatch d)) d).1
     = fold_left (ethdb.apply_db copy) ops d
  /\ (ethdb.memBatch_Write (ethdb.MemDatabase_NewBatch d) d).1 = d
  /\ (ethdb.memBatch_Write
        (fold_left (ethdb.apply_batch copy) ops (ethdb.MemDatabase_NewBatch d)) d).2
     = None.
Proof.
  intros copy ops d.
  assert (Hcopy : forall b, ethdb.content (copy b) = ethdb.content b)
    by reflexivity.
  split; [exact Hcopy |].
  exact (Write_replays_the_batch copy Hcopy d ops).
Defined.
